(** * En-transformer: the equivariant attention block

    A shallow embedding of [en_transformer/en_transformer.py].

    Tensors are nested lists.  An element of a tensor that the program
    builds is described by a function of its indices, next to the sizes
    of its axes; the two tensors the block returns are tabulated from
    such functions.  The scalar type is a parameter ([Scalar]): lemmas
    that only follow the data flow hold for every scalar type, hence also
    for the float32 numbers of the program; the algebraic laws
    (equivariance, invariance, reordering of sums) are proved for the
    instance of the real numbers, where they hold exactly and not only
    within a rounding tolerance.  The masking of the attention logits
    relies on the infinities, the NaN and the underflow of float32: it
    is stated for the instance [fnum], the reals with these special
    values.

    Tensors are taken to be well shaped: the shape errors that torch
    raises are not part of the model. *)

From Stdlib Require Import String Reals Lra Lia Factorial Bool Arith ZArith List.
From Stdlib Require Import Permutation Sorted FunctionalExtensionality.
Import ListNotations.

Set Implicit Arguments.

(** * Scalars *)

Class Scalar (T : Type) := {
  zero : T;
  one : T;
  of_Z : Z -> T;
  sadd : T -> T -> T;
  ssub : T -> T -> T;
  smul : T -> T -> T;
  sdiv : T -> T -> T;
  sopp : T -> T;
  ssqrt : T -> T;
  sexp : T -> T;
  ssin : T -> T;
  scos : T -> T;
  stanh : T -> T;
  serf : T -> T;
  sltb : T -> T -> bool
}.

(** ** The Gauss error function on the reals

    [erf x = 2/sqrt(pi) * sum_n (-1)^n x^(2n+1) / (n! (2n+1))], built as
    the Standard Library builds [exp] and [cos], from the ratio
    criterion. *)

Section Erf.
Local Open Scope R_scope.

Definition erf_cof (n : nat) : R := (-1) ^ n / (INR (fact n) * INR (2 * n + 1)).

Lemma erf_cof_no_R0 : forall n, erf_cof n <> 0.
Proof.
  intro n. unfold erf_cof.
  apply Rmult_integral_contrapositive_currified.
  - apply pow_nonzero. lra.
  - apply Rinv_neq_0_compat. apply Rmult_integral_contrapositive_currified.
    + apply INR_fact_neq_0.
    + apply not_0_INR. lia.
Qed.

Lemma erf_cof_ratio (n : nat) :
  Rabs (erf_cof (S n) / erf_cof n) = INR (2 * n + 1) / (INR (S n) * INR (2 * n + 3)).
Proof.
  unfold erf_cof.
  assert (Hf : INR (fact n) <> 0) by apply INR_fact_neq_0.
  assert (Hp : (-1) ^ n <> 0) by (apply pow_nonzero; lra).
  assert (H1 : 0 < INR (2 * n + 1)) by (apply lt_0_INR; lia).
  assert (H3 : 0 < INR (2 * n + 3)) by (apply lt_0_INR; lia).
  assert (HS : 0 < INR (S n)) by (apply lt_0_INR; lia).
  replace (2 * S n + 1)%nat with (2 * n + 3)%nat by lia.
  rewrite fact_simpl, mult_INR.
  replace ((-1) ^ S n / (INR (S n) * INR (fact n) * INR (2 * n + 3)) /
           ((-1) ^ n / (INR (fact n) * INR (2 * n + 1))))
    with (- (INR (2 * n + 1) / (INR (S n) * INR (2 * n + 3)))).
  2:{ simpl pow. field. repeat split; lra. }
  rewrite Rabs_Ropp. apply Rabs_pos_eq.
  apply Rlt_le, Rdiv_lt_0_compat; [lra | nra].
Qed.

Lemma Alembert_erf : Un_cv (fun n => Rabs (erf_cof (S n) / erf_cof n)) 0.
Proof.
  intros eps Heps.
  destruct (archimed_cor1 eps Heps) as [N [HN HN0]].
  exists N. intros n Hn.
  rewrite erf_cof_ratio. unfold R_dist. rewrite Rminus_0_r.
  assert (H1 : 0 < INR (2 * n + 1)) by (apply lt_0_INR; lia).
  assert (H3 : 0 < INR (2 * n + 3)) by (apply lt_0_INR; lia).
  assert (HS : 0 < INR (S n)) by (apply lt_0_INR; lia).
  assert (HNpos : 0 < INR N) by (apply lt_0_INR; lia).
  assert (H13 : INR (2 * n + 1) <= INR (2 * n + 3)) by (apply le_INR; lia).
  assert (HNS : INR N <= INR (S n)) by (apply le_INR; lia).
  rewrite Rabs_pos_eq by (apply Rlt_le, Rdiv_lt_0_compat; [lra | nra]).
  apply Rle_lt_trans with (/ INR N); [| exact HN].
  apply Rle_trans with (/ INR (S n)).
  - apply Rmult_le_reg_r with (INR (S n) * INR (2 * n + 3)); [nra |].
    replace (INR (2 * n + 1) / (INR (S n) * INR (2 * n + 3)) * (INR (S n) * INR (2 * n + 3)))
      with (INR (2 * n + 1)) by (field; split; lra).
    replace (/ INR (S n) * (INR (S n) * INR (2 * n + 3))) with (INR (2 * n + 3)) by (field; lra).
    exact H13.
  - apply Rinv_le_contravar; assumption.
Qed.

Definition erf_series (y : R) : R :=
  proj1_sig (Alembert_C3 erf_cof y erf_cof_no_R0 Alembert_erf).

Definition erf (x : R) : R := 2 / sqrt PI * (x * erf_series (x * x)).

Definition Rltb (x y : R) : bool := if Rlt_dec x y then true else false.

End Erf.

#[export] Instance R_scalar : Scalar R := {|
  zero := 0%R;
  one := 1%R;
  of_Z := IZR;
  sadd := Rplus;
  ssub := Rminus;
  smul := Rmult;
  sdiv := Rdiv;
  sopp := Ropp;
  ssqrt := sqrt;
  sexp := exp;
  ssin := sin;
  scos := cos;
  stanh := tanh;
  serf := erf;
  sltb := Rltb
|}.

(** * Python results and exceptions *)

Inductive exception : Type :=
  | AssertionError (msg : string)
  | AttributeError (msg : string)
  | RuntimeError (msg : string).

Inductive result (A : Type) : Type :=
  | Ok (a : A)
  | Raise (e : exception).

Arguments Ok {A} a.
Arguments Raise {A} e.

Definition bind {A B} (r : result A) (f : A -> result B) : result B :=
  match r with
  | Ok a => f a
  | Raise e => Raise e
  end.

Notation "x <- r ;; k" := (bind r (fun x => k))
  (at level 61, r at next level, right associativity).

Fixpoint mapM {A B} (f : A -> result B) (l : list A) : result (list B) :=
  match l with
  | [] => Ok []
  | a :: r => y <- f a ;; ys <- mapM f r ;; Ok (y :: ys)
  end.

(** [exists(val)]: [val is not None]. *)
Definition exists_ {A} (val : option A) : bool :=
  match val with Some _ => true | None => false end.

(** * Tensor helpers *)

(** The list [[f 0; ...; f (n-1)]]: an axis of size [n] whose elements
    are given by their index. *)
Definition tab {A} (n : nat) (f : nat -> A) : list A := map f (seq 0 n).

Fixpoint zip_with {A B C} (f : A -> B -> C) (l : list A) (r : list B) : list C :=
  match l, r with
  | a :: l', b :: r' => f a b :: zip_with f l' r'
  | _, _ => []
  end.

Section Numeric.
Context {T : Type} `{Scalar T}.

Definition vadd (u v : list T) : list T := zip_with sadd u v.
Definition vsub (u v : list T) : list T := zip_with ssub u v.

(** [sum] over an axis. *)
Definition ssum (l : list T) : T := fold_right sadd zero l.

Definition dot (u v : list T) : T := ssum (zip_with smul u v).

(** [t.norm(dim = -1, p = 2)]. *)
Definition vnorm (v : list T) : T := ssqrt (ssum (map (fun x => smul x x) v)).

Definition smax (a b : T) : T := if sltb a b then b else a.

(** [x.clamp(min = lo)]. *)
Definition clamp_min (lo x : T) : T := if sltb x lo then lo else x.

(** ** Layers of [torch.nn] *)

(** [nn.Linear]: [weight] has one row per output feature. *)
Record Linear := {
  weight : list (list T);
  bias : option (list T)
}.

Definition linear (l : Linear) (x : list T) : list T :=
  let y := map (fun row => dot row x) (weight l) in
  match bias l with
  | Some b => vadd y b
  | None => y
  end.

Definition relu (x : T) : T := smax zero x.

Definition gelu (x : T) : T :=
  smul x (smul (sdiv one (of_Z 2)) (sadd one (serf (sdiv x (ssqrt (of_Z 2)))))).

(** [nn.LayerNorm] over the last axis, with its default [eps = 1e-5]
    and the biased variance. *)
Record LayerNorm := {
  ln_weight : list T;
  ln_bias : list T
}.

Definition of_nat (n : nat) : T := of_Z (Z.of_nat n).

Definition mean (x : list T) : T := sdiv (ssum x) (of_nat (length x)).

Definition layer_norm (l : LayerNorm) (x : list T) : list T :=
  let mu := mean x in
  let var := mean (map (fun a => smul (ssub a mu) (ssub a mu)) x) in
  let den := ssqrt (sadd var (sdiv one (of_Z 100000))) in
  vadd (zip_with smul (map (fun a => sdiv (ssub a mu) den) x) (ln_weight l)) (ln_bias l).

(** [t.softmax(dim = -1)], computed as torch does: the maximum of the
    row is subtracted before the exponential. *)
Definition row_max (l : list T) : T :=
  match l with
  | [] => zero
  | a :: r => fold_left smax r a
  end.

Definition softmax (l : list T) : list T :=
  let m := row_max l in
  let e := map (fun x => sexp (ssub x m)) l in
  let s := ssum e in
  map (fun a => sdiv a s) e.

(** [t.topk(k, dim = -1, largest = False).indices]: the indices of the
    [k] smallest entries, in ascending order of the entries; equal
    entries keep the order of their indices. *)
Fixpoint insert_by (x : nat * T) (l : list (nat * T)) : list (nat * T) :=
  match l with
  | [] => [x]
  | y :: r => if sltb (snd y) (snd x) then y :: insert_by x r else x :: y :: r
  end.

Definition sort_by (l : list (nat * T)) : list (nat * T) := fold_right insert_by [] l.

Definition argsort (row : list T) : list nat :=
  map fst (sort_by (combine (seq 0 (length row)) row)).

Definition topk (k : nat) (row : list T) : list nat := firstn k (argsort row).

(** [t.chunk(c, dim = -1)[idx]]. *)
Definition chunk (c idx : nat) (row : list T) : list T :=
  let size := (length row + c - 1) / c in
  firstn size (skipn (idx * size) row).

(** Head [hh] of [rearrange(t, 'b n (h d) -> b h n d', h = h)]. *)
Definition split_head (h hh : nat) (row : list T) : list T :=
  let d := length row / h in
  firstn d (skipn (hh * d) row).

(** ** Helper functions of the module *)

(** [batched_index_select(values, indices, dim)]: entry [j] along the
    selected axis is the entry of [values] at index [indices[j]]. *)
Definition batched_index_select {A} (values : nat -> A) (indices : list nat)
  (j : nat) : A :=
  values (nth j indices 0%nat).

(** [fourier_encode_dist(x, num_encodings)], with [include_self = True];
    [scales = 2 ** arange(num_encodings)]. *)
Definition fourier_encode_dist (x : T) (num_encodings : nat) : list T :=
  let scales := tab num_encodings (fun e => of_Z (2 ^ Z.of_nat e)) in
  let xs := map (fun s => sdiv x s) scales in
  (map ssin xs ++ map scos xs) ++ [x].

(** ** CoorsNorm *)

Record CoorsNorm := {
  eps : T;
  fn_norm : LayerNorm
}.

(** [CoorsNorm.forward] on one vector; [norm] keeps its axis, so the
    layer norm sees a vector of length one. *)
Definition CoorsNorm_forward (cn : CoorsNorm) (coors : list T) : list T :=
  let norm := vnorm coors in
  let normed_coors := map (fun x => sdiv x (clamp_min (eps cn) norm)) coors in
  let phase := map gelu (layer_norm (fn_norm cn) [norm]) in
  map (fun x => smul (hd zero phase) x) normed_coors.

End Numeric.

Arguments Linear T : clear implicits.
Arguments LayerNorm T : clear implicits.
Arguments CoorsNorm T : clear implicits.

(** * EquivariantAttention *)

(** The parameter-free layers of [torch.nn] that the module names.
    Attribute lookup in Python is case sensitive, and [torch.nn] spells
    the hyperbolic tangent layer [Tanh]; it has no attribute [TanH]. *)
Inductive Activation : Type := Identity | ReLU | GELU | Tanh.

Definition nn_layers : list (string * Activation) :=
  [("Identity", Identity); ("ReLU", ReLU); ("GELU", GELU); ("Tanh", Tanh)]%string.

(** [nn.<name>()]. *)
Definition nn_getattr (name : string) : result Activation :=
  match find (fun p => String.eqb (fst p) name) nn_layers with
  | Some p => Ok (snd p)
  | None => Raise (AttributeError ("module 'torch.nn' has no attribute '" ++ name ++ "'"))
  end.

Section Block.
Context {T : Type} `{Scalar T}.

Definition activation (a : Activation) (x : T) : T :=
  match a with
  | Identity => x
  | ReLU => relu x
  | GELU => gelu x
  | Tanh => stanh x
  end.

(** The keyword arguments of [EquivariantAttention.__init__]. *)
Record Config := {
  cfg_dim : nat;
  cfg_dim_head : nat;
  cfg_heads : nat;
  cfg_edge_dim : nat;
  cfg_m_dim : nat;
  cfg_fourier_features : nat;
  cfg_norm_rel_coors : bool;
  cfg_norm_coor_weights : bool;
  cfg_num_nearest_neighbors : nat;
  cfg_only_sparse_neighbors : bool;
  cfg_valid_neighbor_radius : T;
  cfg_init_eps : T
}.

(** The values of the learned parameters: drawn by [init_] at
    construction and changed by training. *)
Record Params := {
  p_to_qkv : Linear T;
  p_to_out : Linear T;
  p_to_pos_emb : Linear T * Linear T;
  p_edge_mlp : Linear T * Linear T;
  p_to_attn_mlp : Linear T * Linear T;
  p_coors_mlp : Linear T * Linear T;
  p_coors_norm : LayerNorm T
}.

(** The module after construction. *)
Record EquivariantAttention := {
  fourier_features : nat;
  num_nearest_neighbors : nat;
  only_sparse_neighbors : bool;
  valid_neighbor_radius : T;
  heads : nat;
  to_qkv : Linear T;
  to_out : Linear T;
  to_pos_emb : Linear T * Linear T;
  edge_mlp : Linear T * Linear T;
  to_attn_mlp : Linear T * Linear T;
  coors_mlp : Linear T * Linear T * Activation;
  rel_coors_norm : option (CoorsNorm T);
  init_eps : T
}.

(** [EquivariantAttention.__init__].  The layers [nn.Linear], [nn.ReLU],
    [nn.LayerNorm], [nn.GELU] and [nn.Identity] that it names exist; the
    last layer of [coors_mlp] is looked up under the name the source
    writes. *)
Definition EquivariantAttention_init (cfg : Config) (p : Params)
  : result EquivariantAttention :=
  act <- (if cfg_norm_coor_weights cfg then nn_getattr "TanH" else nn_getattr "Identity") ;;
  Ok {| fourier_features := cfg_fourier_features cfg;
        num_nearest_neighbors := cfg_num_nearest_neighbors cfg;
        only_sparse_neighbors := cfg_only_sparse_neighbors cfg;
        valid_neighbor_radius := cfg_valid_neighbor_radius cfg;
        heads := cfg_heads cfg;
        to_qkv := p_to_qkv p;
        to_out := p_to_out p;
        to_pos_emb := p_to_pos_emb p;
        edge_mlp := p_edge_mlp p;
        to_attn_mlp := p_to_attn_mlp p;
        coors_mlp := (p_coors_mlp p, act);
        rel_coors_norm :=
          if cfg_norm_rel_coors cfg
          then Some {| eps := sdiv one (of_Z 100000000); fn_norm := p_coors_norm p |}
          else None;
        init_eps := cfg_init_eps cfg |}.

(** [Rearrange('... () -> ...')]. *)
Definition squeeze (y : list T) : T := hd zero y.

Definition to_pos_emb_fn (m : Linear T * Linear T) (x : list T) : list T :=
  linear (snd m) (map relu (linear (fst m) x)).

Definition edge_mlp_fn (m : Linear T * Linear T) (x : list T) : list T :=
  map relu (linear (snd m) (map relu (linear (fst m) x))).

Definition to_attn_mlp_fn (m : Linear T * Linear T) (x : list T) : T :=
  squeeze (linear (snd m) (map relu (linear (fst m) x))).

Definition coors_mlp_fn (m : Linear T * Linear T * Activation) (x : list T) : T :=
  activation (snd m) (squeeze (linear (snd (fst m)) (map relu (linear (fst (fst m)) x)))).

Definition rel_coors_norm_fn (m : option (CoorsNorm T)) (v : list T) : list T :=
  match m with
  | Some cn => CoorsNorm_forward cn v
  | None => v
  end.

(** The sentinel of the neighbour ranking, [1e5]. *)
Definition ranking_sentinel : T := of_Z 100000.

(** [-torch.finfo(torch.float32).max]. *)
Definition max_neg_value : T := sopp (of_Z 340282346638528859811704183484516925440).

End Block.

Arguments Config T : clear implicits.
Arguments Params T : clear implicits.
Arguments EquivariantAttention T : clear implicits.

(** ** [forward] on one element of the batch

    The names of the source ([n], [h], [q], [k], [v], ...) live in the
    module [Fwd]. *)

Module Fwd.
Section ForwardOne.
Context {T : Type} `{Scalar T}.
Variable self : EquivariantAttention T.
Variable feats : list (list T).
Variable coors : list (list T).
Variable edges : option (list (list (list T))).
Variable mask : option (list bool).

(** [b, n, d = feats.shape], [h = self.heads]. *)
Definition n : nat := length feats.
Definition h : nat := heads self.

(** The number of rows and the last axis of [coors]. *)
Definition n_coors : nat := length coors.
Definition coor_dim : nat := length (hd [] coors).

(** [rel_coors = coors[:, i, None] - coors[:, None, j]]. *)
Definition rel_coors (i j : nat) : list T := vsub (nth i coors []) (nth j coors []).

(** [rel_dist = rel_coors.norm(dim = -1, p = 2)]. *)
Definition rel_dist (i j : nat) : T := vnorm (rel_coors i j).

(** [nbhd_ranking]: [rel_dist], with the pairs that have an invalid end
    point filled with the sentinel. *)
Definition nbhd_ranking (i j : nat) : T :=
  match mask with
  | Some m =>
      let ranking_mask := nth i m false && nth j m false in
      if negb ranking_mask then ranking_sentinel else rel_dist i j
  | None => rel_dist i j
  end.

(** [nbhd_indices]: [None] in dense mode. *)
Definition nbhd_indices : option (list (list nat)) :=
  if (0 <? num_nearest_neighbors self)%nat
  then Some (tab n_coors (fun i =>
               topk (num_nearest_neighbors self) (tab n_coors (nbhd_ranking i))))
  else None.

(** [rel_dist] after the optional Fourier encoding; it is the same for
    every head. *)
Definition rel_dist_enc (i j : nat) : list T :=
  if (0 <? fourier_features self)%nat
  then fourier_encode_dist (rel_dist i j) (fourier_features self)
  else [rel_dist i j].

(** [q, k, v = self.to_qkv(feats).chunk(3, dim = -1)], split in heads. *)
Definition qkv (i : nat) : list T := linear (to_qkv self) (nth i feats []).
Definition q (hh i : nat) : list T := split_head h hh (chunk 3 0 (qkv i)).
Definition k (hh j : nat) : list T := split_head h hh (chunk 3 1 (qkv j)).
Definition v (hh j : nat) : list T := split_head h hh (chunk 3 2 (qkv j)).

(** The last axis of [q], [k] and [v]. *)
Definition dim_head : nat :=
  ((length (weight (to_qkv self)) + 3 - 1) / 3) / h.

(** [i = j = n], or [i, j = nbhd_indices.shape[-2:]]. *)
Definition j_size : nat :=
  match nbhd_indices with
  | Some ix => length (hd [] ix)
  | None => n
  end.

(** Keys, values and geometry on the neighbourhoods: gathered by
    [nbhd_indices], or repeated for every node in dense mode. *)
Definition k_nb (hh i j : nat) : list T :=
  match nbhd_indices with
  | Some ix => batched_index_select (k hh) (nth i ix []) j
  | None => k hh j
  end.

Definition v_nb (hh i j : nat) : list T :=
  match nbhd_indices with
  | Some ix => batched_index_select (v hh) (nth i ix []) j
  | None => v hh j
  end.

Definition rel_dist_nb (i j : nat) : list T :=
  match nbhd_indices with
  | Some ix => batched_index_select (rel_dist_enc i) (nth i ix []) j
  | None => rel_dist_enc i j
  end.

Definition rel_coors_nb (i j : nat) : list T :=
  match nbhd_indices with
  | Some ix => batched_index_select (rel_coors i) (nth i ix []) j
  | None => rel_coors i j
  end.

(** [rel_dist_pos_emb = self.to_pos_emb(rel_dist)]. *)
Definition rel_dist_pos_emb (i j : nat) : list T :=
  to_pos_emb_fn (to_pos_emb self) (rel_dist_nb i j).

(** [v = v + rel_dist_pos_emb]. *)
Definition v_pos (hh i j : nat) : list T := vadd (v_nb hh i j) (rel_dist_pos_emb i j).

(** [mask = q_mask * k_mask], when a mask is given. *)
Definition pair_mask (i j : nat) : option bool :=
  match mask with
  | Some m =>
      let q_mask := nth i m false in
      let k_mask :=
        match nbhd_indices with
        | Some ix => batched_index_select (fun j' => nth j' m false) (nth i ix []) j
        | None => nth j m false
        end in
      Some (q_mask && k_mask)
  | None => None
  end.

(** [edge_input = (q - k) + rel_dist_pos_emb], with the edge features
    appended when they are given. *)
Definition edge_input (hh i j : nat) : list T :=
  let e := vadd (vsub (q hh i) (k_nb hh i j)) (rel_dist_pos_emb i j) in
  match edges with
  | Some ed =>
      let ed_nb :=
        match nbhd_indices with
        | Some ix => batched_index_select (fun j' => nth j' (nth i ed []) []) (nth i ix []) j
        | None => nth j (nth i ed []) []
        end in
      e ++ ed_nb
  | None => e
  end.

(** [m_ij = self.edge_mlp(edge_input)]. *)
Definition m_ij (hh i j : nat) : list T := edge_mlp_fn (edge_mlp self) (edge_input hh i j).

(** [coor_mlp_input = rearrange(m_ij, 'b h i j d -> b i j (h d)')]. *)
Definition coor_mlp_input (i j : nat) : list T := concat (tab h (fun hh => m_ij hh i j)).

(** [coor_weights = self.coors_mlp(coor_mlp_input)]. *)
Definition coor_weights_raw (i j : nat) : T := coors_mlp_fn (coors_mlp self) (coor_mlp_input i j).

(** [coor_weights.masked_fill_(~coor_mask, 0.)]. *)
Definition coor_weights (i j : nat) : T :=
  match pair_mask i j with
  | Some m => if negb m then zero else coor_weights_raw i j
  | None => coor_weights_raw i j
  end.

(** [rel_coors = self.rel_coors_norm(rel_coors)]. *)
Definition rel_coors_normed (i j : nat) : list T :=
  rel_coors_norm_fn (rel_coors_norm self) (rel_coors_nb i j).

(** The term of neighbour [j] in the sum of
    [einsum('b i j, b i j c -> b i c', coor_weights, rel_coors)]. *)
Definition coors_term (i c j : nat) : T :=
  smul (coor_weights i j) (nth c (rel_coors_normed i j) zero).

Definition coors_out (i : nat) : list T :=
  tab coor_dim (fun c => ssum (tab j_size (coors_term i c))).

(** [sim = self.to_attn_mlp(m_ij)]. *)
Definition sim_raw (hh i j : nat) : T := to_attn_mlp_fn (to_attn_mlp self) (m_ij hh i j).

(** [sim.masked_fill_(~mask, max_neg_value)]. *)
Definition sim (hh i j : nat) : T :=
  match pair_mask i j with
  | Some m => if negb m then max_neg_value else sim_raw hh i j
  | None => sim_raw hh i j
  end.

(** [attn = sim.softmax(dim = -1)]. *)
Definition attn (hh i j : nat) : T := nth j (softmax (tab j_size (sim hh i))) zero.

(** [out = einsum('b h i j, b h i j d -> b h i d', attn, v)]. *)
Definition out_head (hh i : nat) : list T :=
  tab dim_head (fun d => ssum (tab j_size (fun j => smul (attn hh i j) (nth d (v_pos hh i j) zero)))).

(** [out = self.to_out(rearrange(out, 'b h n d -> b n (h d)'))]. *)
Definition out (i : nat) : list T :=
  linear (to_out self) (concat (tab h (fun hh => out_head hh i))).

(** [torch.topk] raises when [k] exceeds the size of the axis. *)
Definition forward_one : result (list (list T) * list (list T)) :=
  if ((0 <? num_nearest_neighbors self) && (n_coors <? num_nearest_neighbors self))%nat
  then Raise (RuntimeError "selected index k out of range")
  else Ok (tab n out, tab n coors_out).

End ForwardOne.
End Fwd.

(** ** [EquivariantAttention.forward] *)

Section Forward.
Context {T : Type} `{Scalar T}.

Definition forward (self : EquivariantAttention T)
  (feats : list (list (list T))) (coors : list (list (list T)))
  (edges : option (list (list (list (list T)))))
  (mask : option (list (list bool)))
  (adj_mat : option (list (list (list bool))))
  : result (list (list (list T)) * list (list (list T))) :=
  if only_sparse_neighbors self && negb (exists_ adj_mat)
  then Raise (AssertionError
         "adjacency matrix must be passed in if only_sparse_neighbors is turned on")
  else
    outs <- mapM (fun b =>
              Fwd.forward_one self (nth b feats []) (nth b coors [])
                (option_map (fun e => nth b e []) edges)
                (option_map (fun m => nth b m []) mask))
            (seq 0 (length feats)) ;;
    Ok (map fst outs, map snd outs).

End Forward.

(** * The statements *)

Unset Implicit Arguments.

Section Statements.
Context {T : Type} `{Scalar T}.

(** The block with another value of [valid_neighbor_radius]. *)
Definition with_valid_neighbor_radius (r : T) (self : EquivariantAttention T)
  : EquivariantAttention T :=
  {| fourier_features := fourier_features self;
     num_nearest_neighbors := num_nearest_neighbors self;
     only_sparse_neighbors := only_sparse_neighbors self;
     valid_neighbor_radius := r;
     heads := heads self;
     to_qkv := to_qkv self;
     to_out := to_out self;
     to_pos_emb := to_pos_emb self;
     edge_mlp := edge_mlp self;
     to_attn_mlp := to_attn_mlp self;
     coors_mlp := coors_mlp self;
     rel_coors_norm := rel_coors_norm self;
     init_eps := init_eps self |}.

(** The configuration with another value of [valid_neighbor_radius]. *)
Definition cfg_with_valid_neighbor_radius (r : T) (cfg : Config T) : Config T :=
  {| cfg_dim := cfg_dim cfg;
     cfg_dim_head := cfg_dim_head cfg;
     cfg_heads := cfg_heads cfg;
     cfg_edge_dim := cfg_edge_dim cfg;
     cfg_m_dim := cfg_m_dim cfg;
     cfg_fourier_features := cfg_fourier_features cfg;
     cfg_norm_rel_coors := cfg_norm_rel_coors cfg;
     cfg_norm_coor_weights := cfg_norm_coor_weights cfg;
     cfg_num_nearest_neighbors := cfg_num_nearest_neighbors cfg;
     cfg_only_sparse_neighbors := cfg_only_sparse_neighbors cfg;
     cfg_valid_neighbor_radius := r;
     cfg_init_eps := cfg_init_eps cfg |}.

(** What a block built from [cfg] and [p] returns on an input; the
    error of the constructor when it cannot be built. *)
Definition construct_and_forward (cfg : Config T) (p : Params T)
  (feats coors : list (list (list T)))
  (edges : option (list (list (list (list T)))))
  (mask : option (list (list bool)))
  (adj_mat : option (list (list (list bool)))) :=
  self <- EquivariantAttention_init cfg p ;;
  forward self feats coors edges mask adj_mat.

(** The block with another neighbour count, and with the "only sparse
    neighbors" mode switched. *)
Definition with_num_nearest_neighbors (k : nat) (self : EquivariantAttention T)
  : EquivariantAttention T :=
  {| fourier_features := fourier_features self;
     num_nearest_neighbors := k;
     only_sparse_neighbors := only_sparse_neighbors self;
     valid_neighbor_radius := valid_neighbor_radius self;
     heads := heads self;
     to_qkv := to_qkv self;
     to_out := to_out self;
     to_pos_emb := to_pos_emb self;
     edge_mlp := edge_mlp self;
     to_attn_mlp := to_attn_mlp self;
     coors_mlp := coors_mlp self;
     rel_coors_norm := rel_coors_norm self;
     init_eps := init_eps self |}.

Definition with_only_sparse_neighbors (s : bool) (self : EquivariantAttention T)
  : EquivariantAttention T :=
  {| fourier_features := fourier_features self;
     num_nearest_neighbors := num_nearest_neighbors self;
     only_sparse_neighbors := s;
     valid_neighbor_radius := valid_neighbor_radius self;
     heads := heads self;
     to_qkv := to_qkv self;
     to_out := to_out self;
     to_pos_emb := to_pos_emb self;
     edge_mlp := edge_mlp self;
     to_attn_mlp := to_attn_mlp self;
     coors_mlp := coors_mlp self;
     rel_coors_norm := rel_coors_norm self;
     init_eps := init_eps self |}.

(** The node that slot [j] of the neighbourhood of node [i] refers to:
    the selected index in sparse mode, [j] itself in dense mode. *)
Definition neighbor (self : EquivariantAttention T) (coors : list (list T))
  (mask : option (list bool)) (i j : nat) : nat :=
  match Fwd.nbhd_indices self coors mask with
  | Some ix => nth j (nth i ix []) 0%nat
  | None => j
  end.

(** A pair with an end point that the mask marks invalid. *)
Definition invalid_pair (self : EquivariantAttention T) (coors : list (list T))
  (m : list bool) (i j : nat) : Prop :=
  nth i m false = false \/ nth (neighbor self coors (Some m) i j) m false = false.

(** The reading of the masking property under which every pair with an
    invalid end point has attention weight 0. *)
Definition masked_attention_is_zero (self : EquivariantAttention T)
  (feats coors : list (list T)) (edges : option (list (list (list T))))
  (m : list bool) : Prop :=
  forall hh i j,
    (hh < Fwd.h self)%nat -> (i < Fwd.n feats)%nat ->
    (j < Fwd.j_size self feats coors (Some m))%nat ->
    invalid_pair self coors m i j ->
    Fwd.attn self feats coors edges (Some m) hh i j = zero.

(** The reading of the "only sparse neighbors" mode under which a pair
    that the adjacency matrix excludes gets no attention weight and no
    coordinate weight. *)
Definition adjacency_restricts (self : EquivariantAttention T)
  (feats coors : list (list T)) (edges : option (list (list (list T))))
  (mask : option (list bool)) (adj : list (list bool)) : Prop :=
  forall hh i j,
    (hh < Fwd.h self)%nat -> (i < Fwd.n feats)%nat -> (j < Fwd.n feats)%nat ->
    nth j (nth i adj []) true = false ->
    Fwd.attn self feats coors edges mask hh i j = zero /\
    Fwd.coor_weights self feats coors edges mask i j = zero.

End Statements.

(** ** Concrete blocks and inputs over the reals *)

Section Examples.
Local Open Scope R_scope.

(** A linear layer with zero weights and the bias [b] on every output. *)
Definition const_layer (in_features out_features : nat) (b : R) : Linear R :=
  {| weight := repeat (repeat 0 in_features) out_features;
     bias := Some (repeat b out_features) |}.

(** [dim = 1, dim_head = 1, heads = 1, m_dim = 1, fourier_features = 0],
    with the neighbour count [k] and the sparse mode [s]. *)
Definition cfg0 (k : nat) (s : bool) : Config R :=
  {| cfg_dim := 1; cfg_dim_head := 1; cfg_heads := 1; cfg_edge_dim := 0;
     cfg_m_dim := 1; cfg_fourier_features := 0;
     cfg_norm_rel_coors := false; cfg_norm_coor_weights := false;
     cfg_num_nearest_neighbors := k; cfg_only_sparse_neighbors := s;
     cfg_valid_neighbor_radius := 1; cfg_init_eps := 1 / 1000 |}.

Definition params0 : Params R :=
  {| p_to_qkv := {| weight := [[0]; [0]; [0]]; bias := None |};
     p_to_out := const_layer 1 1 0;
     p_to_pos_emb := (const_layer 1 2 0, const_layer 2 1 0);
     p_edge_mlp := (const_layer 1 2 0, const_layer 2 1 0);
     p_to_attn_mlp := (const_layer 1 4 0, const_layer 4 1 0);
     p_coors_mlp := (const_layer 1 4 0, const_layer 4 1 1);
     p_coors_norm := {| ln_weight := [1]; ln_bias := [0] |} |}.

Definition block0 (k : nat) (s : bool) : EquivariantAttention R :=
  {| fourier_features := 0;
     num_nearest_neighbors := k;
     only_sparse_neighbors := s;
     valid_neighbor_radius := 1;
     heads := 1;
     to_qkv := p_to_qkv params0;
     to_out := p_to_out params0;
     to_pos_emb := p_to_pos_emb params0;
     edge_mlp := p_edge_mlp params0;
     to_attn_mlp := p_to_attn_mlp params0;
     coors_mlp := (p_coors_mlp params0, Identity);
     rel_coors_norm := None;
     init_eps := 1 / 1000 |}.

(** Two nodes, one unit apart. *)
Definition feats2 : list (list R) := [[0]; [0]].
Definition coors2 : list (list R) := [[0; 0; 0]; [1; 0; 0]].

End Examples.


(** ** Rigid motions of the coordinates *)

Section Motions.
Local Open Scope R_scope.

(** [coors + t], the vector [t] broadcast over the batch and the nodes. *)
Definition translate (t : list R) (coors : list (list (list R))) : list (list (list R)) :=
  map (map (fun c => vadd c t)) coors.

(** [coors @ M.T] on one vector: component [a] is the dot product of row
    [a] of [M] with the vector. *)
Definition rot (M : list (list R)) (c : list R) : list R := map (fun row => dot row c) M.

Definition rotate (M : list (list R)) (coors : list (list (list R))) : list (list (list R)) :=
  map (map (rot M)) coors.

(** A 3x3 rotation matrix: orthogonal, with determinant 1. *)
Definition is_rotation (M : list (list R)) : Prop :=
  exists a b c d e f g h i,
    M = [[a; b; c]; [d; e; f]; [g; h; i]] /\
    a * a + d * d + g * g = 1 /\ b * b + e * e + h * h = 1 /\ c * c + f * f + i * i = 1 /\
    a * b + d * e + g * h = 0 /\ a * c + d * f + g * i = 0 /\ b * c + e * f + h * i = 0 /\
    a * (e * i - f * h) - b * (d * i - f * g) + c * (d * h - e * g) = 1.

(** Coordinates of shape [batch, nodes, dim] next to features of shape
    [batch, nodes, _]. *)
Definition coors_shape (dim : nat) (feats coors : list (list (list R))) : Prop :=
  length coors = length feats /\
  (forall b, length (nth b coors []) = length (nth b feats [])) /\
  Forall (Forall (fun c => length c = dim)) coors.

End Motions.

(** The result of [forward] with [f] applied to [coordinate_delta]. *)
Definition on_coordinate_delta {A B : Type} (f : B -> B) (r : result (A * B))
  : result (A * B) :=
  match r with
  | Ok (o, c) => Ok (o, f c)
  | Raise e => Raise e
  end.

(** ** Neighbour selection under a mask *)

Section Selection.
Local Open Scope R_scope.

(** The nodes that the mask marks valid, among [nc] nodes. *)
Definition valid_nodes (m : list bool) (nc : nat) : list nat :=
  filter (fun j => nth j m false) (seq 0 nc).

(** The reading of the selection property under which a valid node with
    at least [k] valid nodes to choose from selects valid nodes only,
    whatever the distances. *)
Definition topk_selects_valid_nodes (self : EquivariantAttention R)
  (coors : list (list R)) (m : list bool) : Prop :=
  forall ix i j,
    Fwd.nbhd_indices self coors (Some m) = Some ix ->
    (i < Fwd.n_coors coors)%nat ->
    nth i m false = true ->
    (num_nearest_neighbors self <= length (valid_nodes m (Fwd.n_coors coors)))%nat ->
    In j (nth i ix []) ->
    nth j m false = true.

(** Three nodes: the second one is 200000 away from the first, the third
    one is padding. *)
Definition coors_far : list (list R) := [[0; 0; 0]; [200000; 0; 0]; [0; 0; 0]].
Definition mask_far : list bool := [true; true; false].

End Selection.

(** Features and coordinates of [N] nodes in every element of the batch. *)
Definition nodes_shape (N : nat) (feats coors : list (list (list R))) : Prop :=
  length coors = length feats /\
  Forall (fun f => length f = N) feats /\
  Forall (fun c => length c = N) coors.

(** ** Inputs of the worked instances *)

Section Instances.
Local Open Scope R_scope.

(** The quarter turn about the third axis. *)
Definition quarter_turn : list (list R) := [[0; -1; 0]; [1; 0; 0]; [0; 0; 1]].

(** A configuration that asks for normalized coordinate weights. *)
Definition cfg_norm_weights : Config R :=
  {| cfg_dim := 1; cfg_dim_head := 1; cfg_heads := 1; cfg_edge_dim := 0;
     cfg_m_dim := 1; cfg_fourier_features := 0;
     cfg_norm_rel_coors := false; cfg_norm_coor_weights := true;
     cfg_num_nearest_neighbors := 0; cfg_only_sparse_neighbors := false;
     cfg_valid_neighbor_radius := 1; cfg_init_eps := 1 / 1000 |}.

(** Three nodes, the third one padding at the place of the first. *)
Definition coors_near : list (list R) := [[0; 0; 0]; [1; 0; 0]; [0; 0; 0]].

(** The neighbour indices that [k = 2] selects on [coors_near] under
    [mask_far]. *)
Definition ix_near : list (list nat) :=
  tab 3 (fun i => topk 2 (tab 3 (Fwd.nbhd_ranking coors_near (Some mask_far) i))).

End Instances.

(** ** Notions of the proofs *)

Section ProofNotions.
Local Open Scope R_scope.

(** [rot] on the vectors of the model: the empty vector that an index
    out of range reads stays empty. *)
Definition rotz (M : list (list R)) (u : list R) : list R :=
  match u with
  | [] => []
  | _ => rot M u
  end.

(** A displacement vector of the model: empty, or of length 3. *)
Definition vec3 (u : list R) : Prop := u = [] \/ length u = 3%nat.

(** The order of the ranking entries, on pairs of an index and an entry. *)
Definition le_snd (x y : nat * R) : Prop := snd x <= snd y.

End ProofNotions.

(** * The layer stack

    [PreNorm], [Residual], [GEGLU], [FeedForward] and [EnTransformer].
    A wrapped module is the function it computes; the keyword arguments
    that [Residual] and [PreNorm] pass on are part of that function. *)

Section Stack.
Context {T : Type} `{Scalar T}.

(** The second component that a wrapped module returns: the coordinate
    update of the attention block, or the integer [0] of the feed-forward
    block. *)
Inductive CoorsDelta : Type :=
  | DeltaTensor (c : list (list (list T)))
  | DeltaInt (z : Z).

(** [feats + feats_out]. *)
Definition tensor_add (x y : list (list (list T))) : list (list (list T)) :=
  zip_with (zip_with vadd) x y.

(** [coors + coors_delta]; an integer is added to every entry. *)
Definition add_delta (coors : list (list (list T))) (d : CoorsDelta)
  : list (list (list T)) :=
  match d with
  | DeltaTensor c => tensor_add coors c
  | DeltaInt z => map (map (map (fun x => sadd x (of_Z z)))) coors
  end.

(** The type of [fn(feats, coors, **kwargs)]. *)
Definition wrapped : Type :=
  list (list (list T)) -> list (list (list T)) ->
  result (list (list (list T)) * CoorsDelta).

(** [PreNorm.forward]. *)
Definition PreNorm_forward (norm : LayerNorm T) (fn : wrapped) : wrapped :=
  fun feats coors =>
    let feats := map (map (layer_norm norm)) feats in
    fn feats coors.

(** [Residual.forward]. *)
Definition Residual_forward (fn : wrapped)
  (feats coors : list (list (list T)))
  : result (list (list (list T)) * list (list (list T))) :=
  r <- fn feats coors ;;
  Ok (tensor_add feats (fst r), add_delta coors (snd r)).

(** [GEGLU.forward] on one vector: [x, gates = x.chunk(2, dim = -1)]. *)
Definition GEGLU_forward (x : list T) : list T :=
  zip_with smul (chunk 2 0 x) (map gelu (chunk 2 1 x)).

(** [FeedForward], with the dropout probability [0.] that the stack
    builds it with: [nn.Dropout(0.)] returns its input. *)
Record FeedForward := {
  ff_in : Linear T;
  ff_out : Linear T
}.

Definition FeedForward_net (ff : FeedForward) (x : list T) : list T :=
  linear (ff_out ff) (GEGLU_forward (linear (ff_in ff) x)).

(** [FeedForward.forward]: [return self.net(feats), 0]. *)
Definition FeedForward_forward (ff : FeedForward) : wrapped :=
  fun feats coors => Ok (map (map (FeedForward_net ff)) feats, DeltaInt 0).

(** [EquivariantAttention.forward] under the wrappers, with the keyword
    arguments of the stack. *)
Definition attention_wrapped (a : EquivariantAttention T)
  (edges : option (list (list (list (list T)))))
  (mask : option (list (list bool)))
  (adj_mat : option (list (list (list bool)))) : wrapped :=
  fun feats coors =>
    r <- forward a feats coors edges mask adj_mat ;;
    Ok (fst r, DeltaTensor (snd r)).

(** One entry of [self.layers]:
    [Residual(PreNorm(dim, EquivariantAttention(...)))] and
    [Residual(PreNorm(dim, FeedForward(dim = dim)))]. *)
Record Layer := {
  attn_norm : LayerNorm T;
  attn_fn : EquivariantAttention T;
  ff_norm : LayerNorm T;
  ff_fn : FeedForward
}.

(** The body of the loop of [EnTransformer.forward]. *)
Definition Layer_forward (l : Layer)
  (edges : option (list (list (list (list T)))))
  (mask : option (list (list bool)))
  (adj_mat : option (list (list (list bool))))
  (feats coors : list (list (list T)))
  : result (list (list (list T)) * list (list (list T))) :=
  r <- Residual_forward
         (PreNorm_forward (attn_norm l) (attention_wrapped (attn_fn l) edges mask adj_mat))
         feats coors ;;
  Residual_forward (PreNorm_forward (ff_norm l) (FeedForward_forward (ff_fn l)))
    (fst r) (snd r).

(** The loop over [self.layers]. *)
Fixpoint layers_forward (layers : list Layer)
  (edges : option (list (list (list (list T)))))
  (mask : option (list (list bool)))
  (adj_mat : option (list (list (list bool))))
  (feats coors : list (list (list T)))
  : result (list (list (list T)) * list (list (list T))) :=
  match layers with
  | [] => Ok (feats, coors)
  | l :: rest =>
      r <- Layer_forward l edges mask adj_mat feats coors ;;
      layers_forward rest edges mask adj_mat (fst r) (snd r)
  end.

(** [EnTransformer]: [token_emb] is [None] without [num_tokens]. *)
Record EnTransformer := {
  token_emb : option (list (list T));
  layers : list Layer;
  et_num_nearest_neighbors : nat
}.

(** [nn.Embedding] on one token: the row of the weight, [IndexError]
    for a token that is no row index. *)
Inductive lookup (A : Type) : Type :=
  | Found (a : A)
  | IndexError (msg : string).

Arguments Found {A} a.
Arguments IndexError {A} msg.

Definition embedding_row (weight : list (list T)) (token : Z) : lookup (list T) :=
  if ((0 <=? token) && (token <? Z.of_nat (length weight)))%Z
  then Found (nth (Z.to_nat token) weight [])
  else IndexError "index out of range in self".

Fixpoint lookup_all {A B} (f : A -> lookup B) (l : list A) : lookup (list B) :=
  match l with
  | [] => Found []
  | a :: r =>
      match f a with
      | Found b =>
          match lookup_all f r with
          | Found bs => Found (b :: bs)
          | IndexError msg => IndexError msg
          end
      | IndexError msg => IndexError msg
      end
  end.

(** [self.token_emb(feats)] on a batch of token rows. *)
Definition embedding (weight : list (list T)) (tokens : list (list Z))
  : lookup (list (list (list T))) :=
  lookup_all (lookup_all (embedding_row weight)) tokens.

(** The type of the [feats] argument: token rows when the model has a
    token embedding, features when it has none. *)
Definition feats_input (emb : option (list (list T))) : Type :=
  match emb with
  | Some _ => list (list Z)
  | None => list (list (list T))
  end.

(** [if exists(self.token_emb): feats = self.token_emb(feats)]. *)
Definition embed (emb : option (list (list T)))
  : feats_input emb -> lookup (list (list (list T))) :=
  match emb with
  | Some weight => fun tokens => embedding weight tokens
  | None => fun feats => Found feats
  end.

(** [EnTransformer.forward]: the [IndexError] of the embedding, or the
    result of the layers. *)
Definition EnTransformer_forward (self : EnTransformer)
  (feats : feats_input (token_emb self)) (coors : list (list (list T)))
  (edges : option (list (list (list (list T)))))
  (mask : option (list (list bool)))
  (adj_mat : option (list (list (list bool))))
  : lookup (result (list (list (list T)) * list (list (list T)))) :=
  match embed (token_emb self) feats with
  | Found feats => Found (layers_forward (layers self) edges mask adj_mat feats coors)
  | IndexError msg => IndexError msg
  end.

(** The keyword arguments of [EnTransformer.__init__]: those it hands to
    every [EquivariantAttention], [depth] and [num_tokens]. *)
Record StackConfig := {
  st_depth : nat;
  st_num_tokens : option nat;
  st_block : Config T
}.

(** The values of the parameters of one entry of [self.layers]. *)
Record LayerParams := {
  lp_attn_norm : LayerNorm T;
  lp_attn : Params T;
  lp_ff_norm : LayerNorm T;
  lp_ff : FeedForward
}.

(** [EnTransformer.__init__]; [emb] gives the rows of the embedding and
    [p] the parameters of each layer. *)
Definition EnTransformer_init (cfg : StackConfig) (emb : nat -> list T)
  (p : nat -> LayerParams) : result EnTransformer :=
  let token_emb :=
    match st_num_tokens cfg with
    | Some num_tokens => Some (tab num_tokens emb)
    | None => None
    end in
  ls <- mapM (fun l =>
          a <- EquivariantAttention_init (st_block cfg) (lp_attn (p l)) ;;
          Ok {| attn_norm := lp_attn_norm (p l);
                attn_fn := a;
                ff_norm := lp_ff_norm (p l);
                ff_fn := lp_ff (p l) |})
        (seq 0 (st_depth cfg)) ;;
  Ok {| token_emb := token_emb;
        layers := ls;
        et_num_nearest_neighbors := cfg_num_nearest_neighbors (st_block cfg) |}.

End Stack.

Arguments Found {A} a.
Arguments IndexError {A} msg.
Arguments CoorsDelta T : clear implicits.
Arguments FeedForward T : clear implicits.
Arguments Layer T : clear implicits.
Arguments EnTransformer T : clear implicits.
Arguments StackConfig T : clear implicits.
Arguments LayerParams T : clear implicits.

(** [f] on the result of the layers, past the embedding lookup. *)
Definition lookup_map {A B : Type} (f : A -> B) (r : lookup A) : lookup B :=
  match r with
  | Found a => Found (f a)
  | IndexError msg => IndexError msg
  end.

(** A coordinate tensor whose vectors all have [w] entries. *)
Definition rows_of_width (w : nat) (coors : list (list (list R))) : Prop :=
  Forall (Forall (fun c => length c = w)) coors.

(** A token that is a row index of the embedding weight. *)
Definition token_in_range {T : Type} (weight : list (list T)) (token : Z) : Prop :=
  (0 <= token < Z.of_nat (length weight))%Z.

(** ** Inputs of the worked instances of the stack *)

Section StackInstances.
Local Open Scope R_scope.

Definition layer_norm0 : LayerNorm R := {| ln_weight := [1]; ln_bias := [0] |}.

(** A layer around [block0] with the neighbour count [k]. *)
Definition layer0 (k : nat) : Layer R :=
  {| attn_norm := layer_norm0;
     attn_fn := block0 k false;
     ff_norm := layer_norm0;
     ff_fn := {| ff_in := const_layer 1 8 0; ff_out := const_layer 4 1 0 |} |}.

(** A stack of two layers without token embedding. *)
Definition stack0 : EnTransformer R :=
  {| token_emb := None; layers := [layer0 0; layer0 2]; et_num_nearest_neighbors := 0 |}.

(** [CoorsNorm()] as the block builds it, the layer norm at its initial
    weight 1 and bias 0. *)
Definition coors_norm0 : CoorsNorm R :=
  {| eps := 1 / 100000000; fn_norm := layer_norm0 |}.


End StackInstances.

(** The features [f'] have the batch size and the node counts of [f]. *)
Definition same_nodes {T : Type} (f f' : list (list (list T))) : Prop :=
  length f' = length f /\ forall b, length (nth b f' []) = length (nth b f []).

(** * Scalars with the special values of float32

    The real numbers have no infinity and no NaN, and their exponential
    is never 0; the masking of the attention logits relies on all
    three.  [fnum] adds to the reals the special values of IEEE 754 with
    the arithmetic that torch applies to them: a result beyond the
    largest float32 overflows to an infinity, the undefined operations
    give NaN, the exponential of a number below the smallest float32
    underflows to 0.  Rounding and the sign of zero are not
    represented. *)

Section FloatArithmetic.
Local Open Scope R_scope.

Inductive fnum : Type :=
  | Fin (r : R)
  | PInf
  | NInf
  | NaN.

(** [torch.finfo(torch.float32).max]. *)
Definition flt_max : R := IZR 340282346638528859811704183484516925440.

(** [exp x] rounds to 0 in float32 for every [x] below [-104]: it is
    below [2^-150], half the smallest positive float32. *)
Definition exp_underflow : R := IZR (-104).

(** The float of a real result. *)
Definition fin (r : R) : fnum :=
  if Rlt_dec flt_max r then PInf
  else if Rlt_dec r (- flt_max) then NInf
  else Fin r.

Definition inf (positive : bool) : fnum := if positive then PInf else NInf.

Definition fopp (x : fnum) : fnum :=
  match x with
  | Fin r => Fin (- r)
  | PInf => NInf
  | NInf => PInf
  | NaN => NaN
  end.

Definition fadd (x y : fnum) : fnum :=
  match x, y with
  | NaN, _ | _, NaN => NaN
  | PInf, NInf | NInf, PInf => NaN
  | PInf, _ | _, PInf => PInf
  | NInf, _ | _, NInf => NInf
  | Fin a, Fin b => fin (a + b)
  end.

Definition fsub (x y : fnum) : fnum :=
  match x, y with
  | Fin a, Fin b => fin (a - b)
  | _, _ => fadd x (fopp y)
  end.

(** An infinity times [y]. *)
Definition inf_times (positive : bool) (y : fnum) : fnum :=
  match y with
  | NaN => NaN
  | PInf => inf positive
  | NInf => inf (negb positive)
  | Fin r =>
      if Rlt_dec 0 r then inf positive
      else if Rlt_dec r 0 then inf (negb positive)
      else NaN
  end.

Definition fmul (x y : fnum) : fnum :=
  match x, y with
  | Fin a, Fin b => fin (a * b)
  | NaN, _ | _, NaN => NaN
  | PInf, _ => inf_times true y
  | NInf, _ => inf_times false y
  | _, PInf => inf_times true x
  | _, NInf => inf_times false x
  end.

Definition fdiv (x y : fnum) : fnum :=
  match x, y with
  | NaN, _ | _, NaN => NaN
  | Fin a, Fin b =>
      if Req_dec_T b 0
      then (if Rlt_dec 0 a then PInf else if Rlt_dec a 0 then NInf else NaN)
      else fin (a / b)
  | Fin _, _ => Fin 0
  | PInf, Fin b => inf (negb (Rltb b 0))
  | NInf, Fin b => inf (Rltb b 0)
  | _, _ => NaN
  end.

Definition fsqrt (x : fnum) : fnum :=
  match x with
  | Fin r => if Rlt_dec r 0 then NaN else Fin (sqrt r)
  | PInf => PInf
  | _ => NaN
  end.

Definition fexp (x : fnum) : fnum :=
  match x with
  | Fin r => if Rlt_dec r exp_underflow then Fin 0 else fin (exp r)
  | PInf => PInf
  | NInf => Fin 0
  | NaN => NaN
  end.

Definition fsin (x : fnum) : fnum :=
  match x with
  | Fin r => Fin (sin r)
  | _ => NaN
  end.

Definition fcos (x : fnum) : fnum :=
  match x with
  | Fin r => Fin (cos r)
  | _ => NaN
  end.

Definition ftanh (x : fnum) : fnum :=
  match x with
  | Fin r => Fin (tanh r)
  | PInf => Fin 1
  | NInf => Fin (-1)
  | NaN => NaN
  end.

Definition ferf (x : fnum) : fnum :=
  match x with
  | Fin r => Fin (erf r)
  | PInf => Fin 1
  | NInf => Fin (-1)
  | NaN => NaN
  end.

(** The order in which torch takes a maximum, clamps and sorts: NaN
    comes after every number, so that [max] and [relu] propagate it. *)
Definition fltb (x y : fnum) : bool :=
  match x, y with
  | NaN, _ => false
  | _, NaN => true
  | PInf, _ => false
  | _, PInf => true
  | _, NInf => false
  | NInf, _ => true
  | Fin a, Fin b => Rltb a b
  end.

End FloatArithmetic.

#[export] Instance F_scalar : Scalar fnum := {|
  zero := Fin 0%R;
  one := Fin 1%R;
  of_Z := fun z => fin (IZR z);
  sadd := fadd;
  ssub := fsub;
  smul := fmul;
  sdiv := fdiv;
  sopp := fopp;
  ssqrt := fsqrt;
  sexp := fexp;
  ssin := fsin;
  scos := fcos;
  stanh := ftanh;
  serf := ferf;
  sltb := fltb
|}.

Section FloatNotions.
Local Open Scope R_scope.

Definition is_nan (x : fnum) : bool :=
  match x with
  | NaN => true
  | _ => false
  end.

(** The real number of a finite float. *)
Definition to_R (x : fnum) : R :=
  match x with
  | Fin r => r
  | _ => 0
  end.

(** [exp] with its underflow, on the reals. *)
Definition exp_flush (d : R) : R := if Rlt_dec d exp_underflow then 0 else exp d.

(** The softmax of a row of finite floats, on the reals. *)
Definition softmax_flush (l : list R) : list R :=
  let m := row_max l in
  let e := map (fun x => exp_flush (x - m)) l in
  let s := ssum e in
  map (fun a => a / s) e.

(** ** Blocks and inputs with float parameters *)

Definition float_linear (l : Linear R) : Linear fnum :=
  {| weight := map (map Fin) (weight l);
     bias := option_map (map Fin) (bias l) |}.

Definition float_mlp (p : Linear R * Linear R) : Linear fnum * Linear fnum :=
  (float_linear (fst p), float_linear (snd p)).

Definition float_coors_norm (cn : CoorsNorm R) : CoorsNorm fnum :=
  {| eps := Fin (eps cn);
     fn_norm := {| ln_weight := map Fin (ln_weight (fn_norm cn));
                   ln_bias := map Fin (ln_bias (fn_norm cn)) |} |}.

(** The block with the parameters of [b], taken as floats. *)
Definition float_block (b : EquivariantAttention R) : EquivariantAttention fnum :=
  {| fourier_features := fourier_features b;
     num_nearest_neighbors := num_nearest_neighbors b;
     only_sparse_neighbors := only_sparse_neighbors b;
     valid_neighbor_radius := Fin (valid_neighbor_radius b);
     heads := heads b;
     to_qkv := float_linear (to_qkv b);
     to_out := float_linear (to_out b);
     to_pos_emb := float_mlp (to_pos_emb b);
     edge_mlp := float_mlp (edge_mlp b);
     to_attn_mlp := float_mlp (to_attn_mlp b);
     coors_mlp := (float_mlp (fst (coors_mlp b)), snd (coors_mlp b));
     rel_coors_norm := option_map float_coors_norm (rel_coors_norm b);
     init_eps := Fin (init_eps b) |}.

Definition float_rows (x : list (list R)) : list (list fnum) := map (map Fin) x.

(** [block0] in dense mode, with the bias [b] on the attention logit. *)
Definition block_bias (b : R) : EquivariantAttention R :=
  {| fourier_features := 0;
     num_nearest_neighbors := 0;
     only_sparse_neighbors := false;
     valid_neighbor_radius := 1;
     heads := 1;
     to_qkv := p_to_qkv params0;
     to_out := p_to_out params0;
     to_pos_emb := p_to_pos_emb params0;
     edge_mlp := p_edge_mlp params0;
     to_attn_mlp := (const_layer 1 4 0, const_layer 4 1 b);
     coors_mlp := (p_coors_mlp params0, Identity);
     rel_coors_norm := None;
     init_eps := 1 / 1000 |}.

End FloatNotions.

(** * Lemmas and theorems *)

Section Basic.
Context {T : Type} `{Scalar T}.

Lemma mapM_ext {A B} (f g : A -> result B) (l : list A) :
  (forall a, In a l -> f a = g a) -> mapM f l = mapM g l.
Proof.
  induction l as [|a r IH]; intros Hfg; simpl; [reflexivity|].
  rewrite (Hfg a) by (left; reflexivity).
  rewrite IH by (intros; apply Hfg; right; assumption).
  reflexivity.
Qed.

Lemma forward_one_raises self feats coors edges mask e :
  Fwd.forward_one self feats coors edges mask = Raise e ->
  e = RuntimeError "selected index k out of range".
Proof.
  unfold Fwd.forward_one. destruct (_ && _); congruence.
Qed.

Lemma mapM_raises {A B} (f : A -> result B) (l : list A) e :
  mapM f l = Raise e -> exists a, In a l /\ f a = Raise e.
Proof.
  induction l as [|a r IH]; simpl; [discriminate|].
  destruct (f a) as [y|e'] eqn:Ha; simpl.
  - destruct (mapM f r) as [ys|e''] eqn:Hr; simpl; [discriminate|].
    intros E. injection E as ->. destruct (IH eq_refl) as [a' [Hin Ha']].
    exists a'. split; [right; assumption | assumption].
  - intros E. injection E as ->. exists a. split; [left; reflexivity | assumption].
Qed.

End Basic.

(** C8. In "only sparse neighbors" mode a call without adjacency matrix
    fails with the assertion error and returns no output; a call that
    passes an adjacency matrix never fails with an assertion error. *)
Theorem forward_adjacency_assertion {T : Type} `{Scalar T}
  (self : EquivariantAttention T) feats coors edges mask :
  (only_sparse_neighbors self = true ->
   forward self feats coors edges mask None =
   Raise (AssertionError
     "adjacency matrix must be passed in if only_sparse_neighbors is turned on"))
  /\ (forall adj_mat msg,
        forward self feats coors edges mask (Some adj_mat) <> Raise (AssertionError msg)).
Proof.
  split.
  - intros Hs. unfold forward. rewrite Hs. reflexivity.
  - intros adj_mat msg. unfold forward. simpl exists_. rewrite andb_false_r.
    destruct (mapM _ _) as [outs|e] eqn:E; simpl; [discriminate|].
    apply mapM_raises in E. destruct E as [b [_ Hb]].
    apply forward_one_raises in Hb. congruence.
Qed.

(** C10. [valid_neighbor_radius] is stored and never consulted: two
    blocks that differ in it alone return the same result on every
    input, and so do two configurations that differ in it alone. *)
Theorem valid_neighbor_radius_no_effect {T : Type} `{Scalar T}
  (r : T) (self : EquivariantAttention T) (cfg : Config T) (p : Params T)
  feats coors edges mask adj_mat :
  forward (with_valid_neighbor_radius r self) feats coors edges mask adj_mat =
  forward self feats coors edges mask adj_mat
  /\ construct_and_forward (cfg_with_valid_neighbor_radius r cfg) p
       feats coors edges mask adj_mat =
     construct_and_forward cfg p feats coors edges mask adj_mat.
Proof.
  split.
  - reflexivity.
  - unfold construct_and_forward, EquivariantAttention_init. simpl.
    destruct (cfg_norm_coor_weights cfg); reflexivity.
Qed.

(** C3. The constructor asks [torch.nn] for [TanH], a name it does not
    have: with "normalize coordinate weights" enabled no block is
    constructed. *)
Theorem init_norm_coor_weights_raises {T : Type} `{Scalar T}
  (cfg : Config T) (p : Params T) :
  cfg_norm_coor_weights cfg = true ->
  EquivariantAttention_init cfg p =
  Raise (AttributeError "module 'torch.nn' has no attribute 'TanH'").
Proof.
  intros Hn. unfold EquivariantAttention_init. rewrite Hn. reflexivity.
Qed.
Section SoftmaxR.
Local Open Scope R_scope.

Lemma Rltb_irrefl (x : R) : Rltb x x = false.
Proof. unfold Rltb. destruct (Rlt_dec x x); [lra | reflexivity]. Qed.

Lemma smax_Rmax (a b : R) : smax a b = Rmax a b.
Proof.
  unfold smax, Rmax. simpl. unfold Rltb.
  destruct (Rlt_dec a b), (Rle_dec a b); try reflexivity; lra.
Qed.

Lemma smax_idem (a : R) : smax a a = a.
Proof. unfold smax. simpl. rewrite Rltb_irrefl. reflexivity. Qed.

Lemma nth_tab {A} (n : nat) (f : nat -> A) (d : A) (i : nat) :
  (i < n)%nat -> nth i (tab n f) d = f i.
Proof.
  intros Hi. unfold tab.
  rewrite (nth_indep _ d (f 0%nat)) by (rewrite length_map, length_seq; exact Hi).
  rewrite map_nth, seq_nth by exact Hi. reflexivity.
Qed.

Lemma length_tab {A} (n : nat) (f : nat -> A) : length (tab n f) = n.
Proof. unfold tab. rewrite length_map, length_seq. reflexivity. Qed.

Lemma tab_ext {A} (n : nat) (f g : nat -> A) :
  (forall i, (i < n)%nat -> f i = g i) -> tab n f = tab n g.
Proof.
  intros Hfg. unfold tab. apply map_ext_in. intros i Hi.
  apply in_seq in Hi. apply Hfg. lia.
Qed.

Lemma tab_const {A} (n : nat) (c : A) : tab n (fun _ => c) = repeat c n.
Proof.
  unfold tab. generalize 0%nat. induction n as [|n IH]; intros s; simpl; [reflexivity|].
  rewrite IH. reflexivity.
Qed.

Lemma ssum_repeat (c : R) (n : nat) : ssum (repeat c n) = INR n * c.
Proof.
  induction n as [|n IH]; [simpl; lra|].
  rewrite S_INR. simpl repeat. unfold ssum in *. simpl fold_right. simpl in IH. simpl. rewrite IH. lra.
Qed.

Lemma row_max_repeat (c : R) (n : nat) : row_max (repeat c (S n)) = c.
Proof.
  simpl. induction n as [|n IH]; simpl; [reflexivity|].
  rewrite smax_idem. exact IH.
Qed.

Lemma softmax_repeat (c : R) (n : nat) :
  softmax (repeat c (S n)) = repeat (1 / INR (S n)) (S n).
Proof.
  unfold softmax. rewrite row_max_repeat.
  rewrite map_repeat. rewrite ssum_repeat. rewrite map_repeat.
  f_equal. cbn [sdiv sexp ssub R_scalar]. rewrite Rminus_diag, exp_0.
  assert (0 < INR (S n)) by (apply lt_0_INR; lia).
  field. lra.
Qed.

End SoftmaxR.

Ltac rsimpl :=
  cbn [zero one of_Z sadd ssub smul sdiv sopp ssqrt sexp ssin scos stanh serf sltb
       R_scalar] in *.

Section Masking.
Context {T : Type} `{Scalar T}.

Lemma pair_mask_neighbor (self : EquivariantAttention T) coors m i j :
  Fwd.pair_mask self coors (Some m) i j =
  Some (nth i m false && nth (neighbor self coors (Some m) i j) m false).
Proof.
  unfold Fwd.pair_mask, neighbor, batched_index_select.
  destruct (Fwd.nbhd_indices self coors (Some m)); reflexivity.
Qed.

Lemma pair_mask_invalid (self : EquivariantAttention T) coors m i j :
  invalid_pair self coors m i j ->
  Fwd.pair_mask self coors (Some m) i j = Some false.
Proof.
  intros [Hi | Hj]; rewrite pair_mask_neighbor.
  - rewrite Hi. reflexivity.
  - rewrite Hj. rewrite andb_false_r. reflexivity.
Qed.


Lemma sim_invalid (self : EquivariantAttention T) feats coors edges m hh i j :
  invalid_pair self coors m i j ->
  Fwd.sim self feats coors edges (Some m) hh i j = max_neg_value.
Proof.
  intros Hinv. unfold Fwd.sim. rewrite pair_mask_invalid by exact Hinv.
  reflexivity.
Qed.

End Masking.

Section MaskingR.
Local Open Scope R_scope.

Lemma nth_map_lt {A B} (f : A -> B) (l : list A) (d : A) (d' : B) (j : nat) :
  (j < length l)%nat -> nth j (map f l) d' = f (nth j l d).
Proof.
  revert j. induction l as [|a l IH]; intros j Hj; simpl in Hj; [lia|].
  destruct j as [|j]; simpl; [reflexivity | apply IH; lia].
Qed.

Lemma softmax_nth (l : list R) (j : nat) :
  (j < length l)%nat ->
  nth j (softmax l) 0 =
  exp (nth j l 0 - row_max l) / ssum (map (fun x => exp (x - row_max l)) l).
Proof.
  intros Hj. unfold softmax.
  set (m := row_max l).
  set (s := ssum _).
  rewrite (nth_map_lt _ _ 0) by (rewrite length_map; exact Hj).
  rewrite (nth_map_lt _ _ 0) by exact Hj. reflexivity.
Qed.

Lemma ssum_nonneg (l : list R) : Forall (fun x => 0 <= x) l -> 0 <= ssum l.
Proof.
  induction 1 as [|x l Hx Hl IH]; unfold ssum in *; simpl; rsimpl; lra.
Qed.

Lemma ssum_ge_nth (l : list R) (j : nat) :
  Forall (fun x => 0 <= x) l -> (j < length l)%nat -> nth j l 0 <= ssum l.
Proof.
  intros Hl. revert j. induction Hl as [|x l Hx Hl IH]; intros j Hj; simpl in Hj; [lia|].
  pose proof (ssum_nonneg l Hl) as Hs.
  unfold ssum in *. simpl fold_right. rsimpl.
  destruct j as [|j]; simpl nth.
  - lra.
  - specialize (IH j ltac:(lia)). lra.
Qed.

(** A softmax weight is bounded by the exponential of the difference
    between its logit and any other logit of the row. *)
Lemma softmax_bound (l : list R) (j j0 : nat) :
  (j < length l)%nat -> (j0 < length l)%nat ->
  nth j (softmax l) 0 <= exp (nth j l 0 - nth j0 l 0).
Proof.
  intros Hj Hj0. rewrite softmax_nth by exact Hj.
  set (m := row_max l).
  set (e := map (fun x => exp (x - m)) l).
  assert (He : Forall (fun x => 0 <= x) e).
  { apply Forall_forall. intros x Hx. apply in_map_iff in Hx.
    destruct Hx as [y [<- _]]. apply Rlt_le, exp_pos. }
  assert (Hs : exp (nth j0 l 0 - m) <= ssum e).
  { replace (exp (nth j0 l 0 - m)) with (nth j0 e 0).
    - apply ssum_ge_nth; [exact He | unfold e; rewrite length_map; exact Hj0].
    - unfold e. rewrite (nth_map_lt _ _ 0) by exact Hj0. reflexivity. }
  pose proof (exp_pos (nth j0 l 0 - m)) as Hp0.
  pose proof (exp_pos (nth j l 0 - m)) as Hp.
  replace (nth j l 0 - nth j0 l 0) with ((nth j l 0 - m) + - (nth j0 l 0 - m)) by lra.
  rewrite exp_plus, exp_Ropp.
  unfold Rdiv. apply Rmult_le_compat_l; [lra|].
  apply Rinv_le_contravar; assumption.
Qed.

Lemma nth_repeat_lt {A} (a d : A) (n j : nat) : (j < n)%nat -> nth j (repeat a n) d = a.
Proof.
  revert j. induction n as [|n IH]; intros j Hj; [lia|].
  destruct j as [|j]; simpl; [reflexivity | apply IH; lia].
Qed.

(** The softmax of a row of equal logits is uniform. *)
Lemma softmax_tab_const (f : nat -> R) (c : R) (n j : nat) :
  (forall j', (j' < n)%nat -> f j' = c) -> (j < n)%nat ->
  nth j (softmax (tab n f)) 0 = 1 / INR n.
Proof.
  intros Hf Hj.
  rewrite (tab_ext n f (fun _ => c)) by exact Hf.
  rewrite tab_const. destruct n as [|n]; [lia|].
  rewrite softmax_repeat. apply nth_repeat_lt. exact Hj.
Qed.

Lemma attn_invalid_row (self : EquivariantAttention R) feats coors edges m hh i j :
  nth i m false = false ->
  (j < Fwd.j_size self feats coors (Some m))%nat ->
  Fwd.attn self feats coors edges (Some m) hh i j =
  1 / INR (Fwd.j_size self feats coors (Some m)).
Proof.
  intros Hi Hj. unfold Fwd.attn.
  apply softmax_tab_const with (c := max_neg_value); [|exact Hj].
  intros j' _. apply sim_invalid. left. exact Hi.
Qed.

End MaskingR.


(** C5, counterexample. Two nodes, the second one invalid, dense mode:
    the attention weights of the invalid node are 1/2. *)
Lemma masked_attention_not_zero :
  ~ masked_attention_is_zero (block0 0 false) feats2 coors2 None [true; false].
Proof.
  intros Hc.
  specialize (Hc 0%nat 1%nat 0%nat).
  rewrite attn_invalid_row in Hc.
  - unfold Fwd.j_size, Fwd.nbhd_indices in Hc. simpl in Hc.
    assert (E : (1 / (1 + 1) = 0)%R).
    { apply Hc; try (unfold Fwd.h, Fwd.n; simpl; lia).
      left. reflexivity. }
    lra.
  - reflexivity.
  - unfold Fwd.j_size, Fwd.nbhd_indices. simpl. lia.
Qed.

Section ConstLayer.
Local Open Scope R_scope.

Lemma dot_zeros (k : nat) (x : list R) : dot (repeat 0 k) x = 0.
Proof.
  revert x. induction k as [|k IH]; intros x; [reflexivity|].
  destruct x as [|a x]; [reflexivity|].
  unfold dot in *. simpl zip_with. unfold ssum in *. simpl fold_right.
  rewrite IH. rsimpl. lra.
Qed.

Lemma linear_const_layer (in_features : nat) (b : R) (x : list R) :
  linear (const_layer in_features 1 b) x = [0 + b].
Proof.
  unfold linear, const_layer. simpl. rewrite dot_zeros. reflexivity.
Qed.

(** Without a mask, the attention logits of [block0] are 0 and its
    coordinate weights are 1. *)
Lemma block0_sim k s feats coors edges hh i j :
  Fwd.sim (block0 k s) feats coors edges None hh i j = 0 + 0.
Proof.
  unfold Fwd.sim, Fwd.pair_mask, Fwd.sim_raw, to_attn_mlp_fn.
  simpl snd. rewrite linear_const_layer. reflexivity.
Qed.

Lemma block0_coor_weights k s feats coors edges i j :
  Fwd.coor_weights (block0 k s) feats coors edges None i j = 0 + 1.
Proof.
  unfold Fwd.coor_weights, Fwd.pair_mask, Fwd.coor_weights_raw, coors_mlp_fn.
  simpl snd. simpl fst. rewrite linear_const_layer. reflexivity.
Qed.

End ConstLayer.

Example block0_attention :
  Fwd.attn (block0 0 true) feats2 coors2 None None 0 0 1 = (1 / 2)%R.
Proof.
  unfold Fwd.attn.
  rewrite (softmax_tab_const _ (0 + 0)%R).
  - unfold Fwd.j_size, Fwd.nbhd_indices. simpl. lra.
  - intros j' _. apply block0_sim.
  - unfold Fwd.j_size, Fwd.nbhd_indices. simpl. lia.
Qed.

(** C4, amended. The adjacency matrix is only asked to be present: with
    an adjacency matrix passed, the block returns what the block with
    the "only sparse neighbors" mode off returns without one, whatever
    the entries of the matrix. *)
Theorem adjacency_not_consulted {T : Type} `{Scalar T}
  (self : EquivariantAttention T) feats coors edges mask adj_mat :
  forward self feats coors edges mask (Some adj_mat) =
  forward (with_only_sparse_neighbors false self) feats coors edges mask None.
Proof.
  unfold forward. simpl exists_. rewrite andb_false_r. reflexivity.
Qed.

(** C4, counterexample. "Only sparse neighbors" mode, [k = 0], two
    nodes, an adjacency matrix without the pair (0, 1): the pair has the
    attention weight 1/2 and the coordinate weight 1. *)
Lemma adjacency_does_not_restrict :
  only_sparse_neighbors (block0 0 true) = true /\
  num_nearest_neighbors (block0 0 true) = 0%nat /\
  Fwd.attn (block0 0 true) feats2 coors2 None None 0 0 1 = (1 / 2)%R /\
  Fwd.coor_weights (block0 0 true) feats2 coors2 None None 0 1 = 1%R /\
  ~ adjacency_restricts (block0 0 true) feats2 coors2 None None
      [[true; false]; [false; true]].
Proof.
  split; [reflexivity|]. split; [reflexivity|].
  split; [apply block0_attention|].
  split; [rewrite block0_coor_weights; rsimpl; lra|].
  intros Hc.
  destruct (Hc 0%nat 0%nat 1%nat) as [_ Hw];
    [unfold Fwd.h; simpl; lia | unfold Fwd.n; simpl; lia | unfold Fwd.n; simpl; lia
    | reflexivity |].
  rewrite block0_coor_weights in Hw. rsimpl. lra.
Qed.



Ltac unfold_fwd :=
  unfold Fwd.forward_one, Fwd.out, Fwd.out_head, Fwd.attn, Fwd.sim, Fwd.sim_raw,
    Fwd.coors_out, Fwd.coors_term, Fwd.rel_coors_normed, Fwd.coor_weights,
    Fwd.coor_weights_raw, Fwd.coor_mlp_input, Fwd.m_ij, Fwd.edge_input, Fwd.pair_mask,
    Fwd.v_pos, Fwd.rel_dist_pos_emb, Fwd.rel_coors_nb, Fwd.rel_dist_nb, Fwd.v_nb,
    Fwd.k_nb, Fwd.j_size, Fwd.rel_dist_enc, Fwd.nbhd_indices, Fwd.nbhd_ranking,
    Fwd.rel_dist.

Section Translation.
Local Open Scope R_scope.

Lemma zip_with_nil_r {A B C} (f : A -> B -> C) (l : list A) : zip_with f l [] = [].
Proof. destruct l; reflexivity. Qed.

Lemma length_zip_with {A B C} (f : A -> B -> C) (l : list A) (r : list B) :
  length (zip_with f l r) = Nat.min (length l) (length r).
Proof.
  revert r. induction l as [|a l IH]; intros [|b r]; simpl; try reflexivity.
  rewrite IH. reflexivity.
Qed.

Lemma vsub_vadd_cancel (a b t : list R) :
  length a = length t -> length b = length t ->
  vsub (vadd a t) (vadd b t) = vsub a b.
Proof.
  revert b t. induction a as [|x a IH]; intros [|y b] [|z t] Ha Hb;
    simpl in *; try discriminate; try reflexivity.
  unfold vsub, vadd in *. simpl. rewrite IH by lia. f_equal. rsimpl. lra.
Qed.

Lemma nth_map_nil {A B} (f : list A -> list B) (l : list (list A)) (i : nat) :
  f [] = [] -> nth i (map f l) [] = f (nth i l []).
Proof.
  intros Hf. rewrite <- Hf at 1. apply map_nth.
Qed.

Variable t : list R.
Variable coors : list (list R).
Hypothesis Hshape : Forall (fun c => length c = length t) coors.

Let coors' := map (fun c => vadd c t) coors.

Lemma nth_coors_length (i : nat) :
  nth i coors [] = [] \/ length (nth i coors []) = length t.
Proof.
  destruct (Nat.lt_ge_cases i (length coors)) as [Hi | Hi].
  - right. rewrite Forall_forall in Hshape. apply Hshape. apply nth_In. exact Hi.
  - left. apply nth_overflow. exact Hi.
Qed.

Lemma rel_coors_translate : Fwd.rel_coors coors' = Fwd.rel_coors coors.
Proof.
  extensionality i. extensionality j. unfold Fwd.rel_coors, coors'.
  rewrite !(nth_map_nil (fun c => vadd c t)) by reflexivity.
  destruct (nth_coors_length i) as [-> | Hi]; [reflexivity|].
  destruct (nth_coors_length j) as [-> | Hj].
  - unfold vsub, vadd. simpl. rewrite !zip_with_nil_r. reflexivity.
  - apply vsub_vadd_cancel; assumption.
Qed.

Lemma n_coors_translate : Fwd.n_coors coors' = Fwd.n_coors coors.
Proof. unfold Fwd.n_coors, coors'. apply length_map. Qed.

Lemma coor_dim_translate : Fwd.coor_dim coors' = Fwd.coor_dim coors.
Proof.
  unfold Fwd.coor_dim, coors'. destruct coors as [|c r]; [reflexivity|].
  simpl. unfold vadd. rewrite length_zip_with.
  inversion Hshape as [|? ? Hc _]; subst. lia.
Qed.

Lemma forward_one_translate (self : EquivariantAttention R) feats edges mask :
  Fwd.forward_one self feats coors' edges mask =
  Fwd.forward_one self feats coors edges mask.
Proof.
  unfold_fwd.
  rewrite rel_coors_translate, n_coors_translate, coor_dim_translate.
  reflexivity.
Qed.

End Translation.

(** C2. Adding a vector [t] to all input coordinates changes neither
    [feature_delta] nor [coordinate_delta]: the block returns the same
    result. *)
Theorem translation_invariance (self : EquivariantAttention R)
  (feats coors : list (list (list R))) edges mask adj_mat (t : list R) :
  Forall (Forall (fun c => length c = length t)) coors ->
  forward self feats (translate t coors) edges mask adj_mat =
  forward self feats coors edges mask adj_mat.
Proof.
  intros Hshape. unfold forward.
  destruct (only_sparse_neighbors self && negb (exists_ adj_mat)); [reflexivity|].
  f_equal. apply mapM_ext. intros b _.
  unfold translate. rewrite (nth_map_nil (map (fun c => vadd c t))) by reflexivity.
  apply forward_one_translate.
  destruct (Nat.lt_ge_cases b (length coors)) as [Hb | Hb].
  - rewrite Forall_forall in Hshape. apply Hshape. apply nth_In. exact Hb.
  - rewrite nth_overflow by exact Hb. constructor.
Qed.

Ltac unfold_fwd_dist :=
  unfold Fwd.out, Fwd.out_head, Fwd.attn, Fwd.sim, Fwd.sim_raw,
    Fwd.coor_weights, Fwd.coor_weights_raw, Fwd.coor_mlp_input, Fwd.m_ij,
    Fwd.edge_input, Fwd.pair_mask, Fwd.v_pos, Fwd.rel_dist_pos_emb, Fwd.rel_dist_nb,
    Fwd.v_nb, Fwd.k_nb, Fwd.j_size, Fwd.rel_dist_enc, Fwd.nbhd_indices,
    Fwd.nbhd_ranking.

Ltac list_ring := repeat (apply (f_equal2 (@cons R)); [ring|]); try reflexivity.

Section Rotation.
Local Open Scope R_scope.

Variable M : list (list R).
Hypothesis HM : is_rotation M.

Lemma vnorm_rotz (u : list R) : vec3 u -> vnorm (rotz M u) = vnorm u.
Proof.
  intros [-> | Hu]; [reflexivity|].
  destruct u as [|x [|y [|z [|]]]]; simpl in Hu; try discriminate.
  destruct HM as (a & b & c & d & e & f & g & h & i & -> & H1 & H2 & H3 & H4 & H5 & H6 & _).
  unfold rotz, rot, vnorm, dot, ssum. simpl. f_equal.
  transitivity ((a * a + d * d + g * g) * x * x + (b * b + e * e + h * h) * y * y
                + (c * c + f * f + i * i) * z * z
                + 2 * (a * b + d * e + g * h) * x * y
                + 2 * (a * c + d * f + g * i) * x * z
                + 2 * (b * c + e * f + h * i) * y * z); [ring|].
  rewrite H1, H2, H3, H4, H5, H6. ring.
Qed.

Lemma vsub_rot (u w : list R) :
  length u = 3%nat -> length w = 3%nat ->
  vsub (rot M u) (rot M w) = rot M (vsub u w).
Proof.
  intros Hu Hw.
  destruct u as [|x [|y [|z [|]]]]; simpl in Hu; try discriminate.
  destruct w as [|x' [|y' [|z' [|]]]]; simpl in Hw; try discriminate.
  destruct HM as (a & b & c & d & e & f & g & h & i & -> & _).
  unfold rot, vsub, dot, ssum. simpl. list_ring.
Qed.

Lemma length_rot (u : list R) : length (rot M u) = 3%nat.
Proof.
  destruct HM as (a & b & c & d & e & f & g & h & i & -> & _). reflexivity.
Qed.

Lemma vec3_rotz (u : list R) : vec3 u -> vec3 (rotz M u).
Proof.
  intros [-> | Hu]; [left; reflexivity|]. right.
  destruct u; [discriminate|]. apply length_rot.
Qed.

(** A component of the rotated vector, by the components of the vector. *)
Lemma nth_rotz (u : list R) (c : nat) :
  vec3 u ->
  nth c (rotz M u) 0 =
  nth 0 (nth c M []) 0 * nth 0 u 0 + nth 1 (nth c M []) 0 * nth 1 u 0
  + nth 2 (nth c M []) 0 * nth 2 u 0.
Proof.
  intros Hu.
  destruct HM as (a & b & cc & d & e & f & g & h & i & -> & _).
  destruct Hu as [-> | Hu].
  - simpl. destruct c as [|[|[|[|c]]]]; simpl; ring.
  - destruct u as [|x [|y [|z [|]]]]; simpl in Hu; try discriminate.
    unfold rotz, rot, dot, ssum. simpl.
    destruct c as [|[|[|[|c]]]]; simpl; ring.
Qed.

Lemma rot_nth (u : list R) :
  length u = 3%nat ->
  rot M u = tab 3 (fun c =>
    nth 0 (nth c M []) 0 * nth 0 u 0 + nth 1 (nth c M []) 0 * nth 1 u 0
    + nth 2 (nth c M []) 0 * nth 2 u 0).
Proof.
  intros Hu.
  destruct HM as (a & b & cc & d & e & f & g & h & i & -> & _).
  destruct u as [|x [|y [|z [|]]]]; simpl in Hu; try discriminate.
  unfold rot, dot, ssum, tab. simpl. list_ring.
Qed.

Variable coors : list (list R).
Hypothesis Hshape : Forall (fun c => length c = 3%nat) coors.

Let coors' := map (rot M) coors.

Lemma nth_coors3 (i : nat) :
  (nth i coors [] = [] /\ nth i coors' [] = []) \/
  (length (nth i coors []) = 3%nat /\ nth i coors' [] = rot M (nth i coors [])).
Proof.
  destruct (Nat.lt_ge_cases i (length coors)) as [Hi | Hi].
  - right. split.
    + rewrite Forall_forall in Hshape. apply Hshape. apply nth_In. exact Hi.
    + unfold coors'. apply nth_map_lt. exact Hi.
  - left. split; apply nth_overflow; [exact Hi|].
    unfold coors'. rewrite length_map. exact Hi.
Qed.

Lemma rel_coors_vec3 (i j : nat) : vec3 (Fwd.rel_coors coors i j).
Proof.
  unfold Fwd.rel_coors, vec3.
  destruct (nth_coors3 i) as [[-> _] | [Hi _]]; [left; reflexivity|].
  destruct (nth_coors3 j) as [[-> _] | [Hj _]].
  - left. apply zip_with_nil_r.
  - right. unfold vsub. rewrite length_zip_with. lia.
Qed.

Lemma rel_coors_rotate :
  Fwd.rel_coors coors' = fun i j => rotz M (Fwd.rel_coors coors i j).
Proof.
  extensionality i. extensionality j. unfold Fwd.rel_coors.
  destruct (nth_coors3 i) as [[-> ->] | [Hi ->]]; [reflexivity|].
  destruct (nth_coors3 j) as [[-> ->] | [Hj ->]].
  - unfold vsub. rewrite !zip_with_nil_r. reflexivity.
  - rewrite vsub_rot by assumption.
    assert (Hl : length (vsub (nth i coors []) (nth j coors [])) = 3%nat)
      by (unfold vsub; rewrite length_zip_with; lia).
    destruct (vsub (nth i coors []) (nth j coors [])); [discriminate | reflexivity].
Qed.

Lemma rel_dist_rotate : Fwd.rel_dist coors' = Fwd.rel_dist coors.
Proof.
  extensionality i. extensionality j. unfold Fwd.rel_dist.
  rewrite rel_coors_rotate. apply vnorm_rotz, rel_coors_vec3.
Qed.

Lemma n_coors_rotate : Fwd.n_coors coors' = Fwd.n_coors coors.
Proof. unfold Fwd.n_coors, coors'. apply length_map. Qed.

Variable self : EquivariantAttention R.
Variable feats : list (list R).
Variable edges : option (list (list (list R))).
Variable mask : option (list bool).

Lemma nbhd_indices_rotate :
  Fwd.nbhd_indices self coors' mask = Fwd.nbhd_indices self coors mask.
Proof.
  unfold Fwd.nbhd_indices, Fwd.nbhd_ranking.
  rewrite rel_dist_rotate, n_coors_rotate. reflexivity.
Qed.

Lemma j_size_rotate :
  Fwd.j_size self feats coors' mask = Fwd.j_size self feats coors mask.
Proof. unfold Fwd.j_size. rewrite nbhd_indices_rotate. reflexivity. Qed.

Lemma out_rotate :
  Fwd.out self feats coors' edges mask = Fwd.out self feats coors edges mask.
Proof.
  unfold_fwd_dist. rewrite rel_dist_rotate, n_coors_rotate. reflexivity.
Qed.

Lemma coor_weights_rotate :
  Fwd.coor_weights self feats coors' edges mask =
  Fwd.coor_weights self feats coors edges mask.
Proof.
  unfold_fwd_dist. rewrite rel_dist_rotate, n_coors_rotate. reflexivity.
Qed.

Lemma rel_coors_nb_rotate (i j : nat) :
  Fwd.rel_coors_nb self coors' mask i j = rotz M (Fwd.rel_coors_nb self coors mask i j).
Proof.
  unfold Fwd.rel_coors_nb. rewrite nbhd_indices_rotate, rel_coors_rotate.
  destruct (Fwd.nbhd_indices self coors mask); reflexivity.
Qed.

Lemma rel_coors_nb_vec3 (i j : nat) : vec3 (Fwd.rel_coors_nb self coors mask i j).
Proof.
  unfold Fwd.rel_coors_nb, batched_index_select.
  destruct (Fwd.nbhd_indices self coors mask); apply rel_coors_vec3.
Qed.

Lemma CoorsNorm_forward_rotz (cn : CoorsNorm R) (u : list R) :
  vec3 u -> CoorsNorm_forward cn (rotz M u) = rotz M (CoorsNorm_forward cn u).
Proof.
  intros Hu. unfold CoorsNorm_forward. rewrite vnorm_rotz by exact Hu.
  generalize (hd zero (map gelu (layer_norm (fn_norm cn) [vnorm u]))) as p.
  generalize (clamp_min (eps cn) (vnorm u)) as cl. intros cl p.
  destruct Hu as [-> | Hu]; [reflexivity|].
  destruct u as [|x [|y [|z [|]]]]; simpl in Hu; try discriminate.
  destruct HM as (a & b & c & d & e & f & g & h & i & -> & _).
  unfold rotz, rot, dot, ssum. simpl. unfold Rdiv. list_ring.
Qed.

Lemma CoorsNorm_forward_vec3 (cn : CoorsNorm R) (u : list R) :
  vec3 u -> vec3 (CoorsNorm_forward cn u).
Proof.
  intros [-> | Hu]; [left; reflexivity|]. right.
  unfold CoorsNorm_forward. rewrite !length_map. exact Hu.
Qed.

Lemma rel_coors_normed_rotate (i j : nat) :
  Fwd.rel_coors_normed self coors' mask i j =
  rotz M (Fwd.rel_coors_normed self coors mask i j).
Proof.
  unfold Fwd.rel_coors_normed. rewrite rel_coors_nb_rotate.
  destruct (rel_coors_norm self) as [cn|]; simpl; [|reflexivity].
  apply CoorsNorm_forward_rotz, rel_coors_nb_vec3.
Qed.

Lemma rel_coors_normed_vec3 (i j : nat) : vec3 (Fwd.rel_coors_normed self coors mask i j).
Proof.
  unfold Fwd.rel_coors_normed.
  destruct (rel_coors_norm self) as [cn|]; simpl.
  - apply CoorsNorm_forward_vec3, rel_coors_nb_vec3.
  - apply rel_coors_nb_vec3.
Qed.

(** The weighted sum over the neighbours is linear. *)
Lemma ssum_lin3 (w a b c : nat -> R) (x y z : R) (l : list nat) :
  ssum (map (fun j => w j * (x * a j + y * b j + z * c j)) l) =
  x * ssum (map (fun j => w j * a j) l) + y * ssum (map (fun j => w j * b j) l)
  + z * ssum (map (fun j => w j * c j) l).
Proof.
  induction l as [|j l IH]; unfold ssum in *; simpl; rsimpl; [ring|].
  rewrite IH. ring.
Qed.

Lemma coors_out_rotate (i : nat) :
  coors <> [] ->
  Fwd.coors_out self feats coors' edges mask i =
  rot M (Fwd.coors_out self feats coors edges mask i).
Proof.
  intros Hne.
  assert (Hd : Fwd.coor_dim coors = 3%nat).
  { unfold Fwd.coor_dim. destruct coors as [|c0 r]; [congruence|].
    inversion Hshape; subst. assumption. }
  assert (Hd' : Fwd.coor_dim coors' = 3%nat).
  { unfold Fwd.coor_dim, coors'. destruct coors as [|c0 r]; [congruence|].
    apply length_rot. }
  unfold Fwd.coors_out. rewrite Hd, Hd', j_size_rotate.
  rewrite rot_nth by apply length_tab.
  apply tab_ext. intros c Hc.
  rewrite !nth_tab by lia.
  unfold tab.
  set (w := fun j => Fwd.coor_weights self feats coors edges mask i j).
  set (u := fun k j => nth k (Fwd.rel_coors_normed self coors mask i j) 0).
  transitivity (ssum (map (fun j => w j * (nth 0 (nth c M []) 0 * u 0%nat j
                                           + nth 1 (nth c M []) 0 * u 1%nat j
                                           + nth 2 (nth c M []) 0 * u 2%nat j))
                          (seq 0 (Fwd.j_size self feats coors mask)))).
  - f_equal. apply map_ext. intros j.
    unfold Fwd.coors_term. rewrite coor_weights_rotate, rel_coors_normed_rotate.
    rewrite nth_rotz by apply rel_coors_normed_vec3. reflexivity.
  - apply (ssum_lin3 w (u 0%nat) (u 1%nat) (u 2%nat)).
Qed.

Lemma map_tab {A B} (f : A -> B) (n : nat) (g : nat -> A) :
  map f (tab n g) = tab n (fun i => f (g i)).
Proof. unfold tab. apply map_map. Qed.

Lemma forward_one_rotate :
  length coors = length feats ->
  Fwd.forward_one self feats coors' edges mask =
  on_coordinate_delta (map (rot M)) (Fwd.forward_one self feats coors edges mask).
Proof.
  intros Hlen. unfold Fwd.forward_one. rewrite n_coors_rotate.
  destruct (_ && _); [reflexivity|]. simpl. f_equal. f_equal.
  - rewrite out_rotate. reflexivity.
  - rewrite map_tab. apply tab_ext. intros i Hi.
    apply coors_out_rotate. unfold Fwd.n in Hi. intros ->. simpl in Hlen. lia.
Qed.

End Rotation.

Lemma mapM_on_coordinate_delta {X A B} (g : B -> B) (f f' : X -> result (A * B))
  (l : list X) :
  (forall x, In x l -> f' x = on_coordinate_delta g (f x)) ->
  (outs <- mapM f' l ;; Ok (map fst outs, map snd outs)) =
  on_coordinate_delta (map g) (outs <- mapM f l ;; Ok (map fst outs, map snd outs)).
Proof.
  induction l as [|x l IH]; intros Hf; [reflexivity|].
  simpl mapM. rewrite (Hf x) by (left; reflexivity).
  assert (IH' := IH (fun y Hy => Hf y (or_intror Hy))). clear IH.
  destruct (f x) as [[o c]|e]; simpl; [|reflexivity].
  destruct (mapM f' l) as [outs'|e']; destruct (mapM f l) as [outs|e'']; simpl in *;
    try discriminate; try congruence.
Qed.

(** C1. Applying a rotation matrix to all input coordinates applies it to
    [coordinate_delta] and leaves [feature_delta] unchanged, for every
    configuration of the block, with or without [norm_rel_coors], in
    dense and in sparse mode, with or without edges and mask. *)
Theorem rotation_equivariance (self : EquivariantAttention R)
  (feats coors : list (list (list R))) edges mask adj_mat (M : list (list R)) :
  is_rotation M ->
  coors_shape 3 feats coors ->
  forward self feats (rotate M coors) edges mask adj_mat =
  on_coordinate_delta (rotate M) (forward self feats coors edges mask adj_mat).
Proof.
  intros HM (Hb & Hn & H3). unfold forward.
  destruct (only_sparse_neighbors self && negb (exists_ adj_mat)); [reflexivity|].
  apply mapM_on_coordinate_delta. intros b Hb'.
  unfold rotate. rewrite (nth_map_nil (map (rot M))) by reflexivity.
  apply forward_one_rotate; [exact HM | | apply Hn].
  destruct (Nat.lt_ge_cases b (length coors)) as [Hlt | Hge].
  - rewrite Forall_forall in H3. apply H3. apply nth_In. exact Hlt.
  - rewrite nth_overflow by exact Hge. constructor.
Qed.


Section TopK.
Context {T : Type} `{Scalar T}.

Lemma insert_by_perm (x : nat * T) (l : list (nat * T)) :
  Permutation (insert_by x l) (x :: l).
Proof.
  induction l as [|y r IH]; simpl; [apply Permutation_refl|].
  destruct (sltb (snd y) (snd x)).
  - apply perm_trans with (y :: x :: r); [apply perm_skip, IH | apply perm_swap].
  - apply Permutation_refl.
Qed.

Lemma sort_by_perm (l : list (nat * T)) : Permutation (sort_by l) l.
Proof.
  induction l as [|x l IH]; simpl; [constructor|].
  apply perm_trans with (x :: sort_by l); [apply insert_by_perm | apply perm_skip, IH].
Qed.

Lemma map_fst_combine_seq (row : list T) (s : nat) :
  map fst (combine (seq s (length row)) row) = seq s (length row).
Proof.
  revert s. induction row as [|a row IH]; intros s; simpl; [reflexivity|].
  rewrite IH. reflexivity.
Qed.

Lemma in_combine_seq (row : list T) (s i : nat) (a d : T) :
  In (i, a) (combine (seq s (length row)) row) ->
  (s <= i < s + length row)%nat /\ a = nth (i - s) row d.
Proof.
  revert s. induction row as [|b row IH]; intros s; simpl; [tauto|].
  intros [E | Hin].
  - injection E as <- <-. rewrite Nat.sub_diag. split; [lia | reflexivity].
  - apply IH in Hin. destruct Hin as [Hr ->]. split; [lia|].
    replace (i - s)%nat with (S (i - S s)) by lia. reflexivity.
Qed.

(** The sorted indices are the indices of the row, in another order. *)
Lemma argsort_perm (row : list T) : Permutation (argsort row) (seq 0 (length row)).
Proof.
  unfold argsort. rewrite <- (map_fst_combine_seq row 0) at 2.
  apply Permutation_map, sort_by_perm.
Qed.

Lemma length_argsort (row : list T) : length (argsort row) = length row.
Proof.
  rewrite (Permutation_length (argsort_perm row)). apply length_seq.
Qed.

Lemma topk_all (row : list T) : topk (length row) row = argsort row.
Proof.
  unfold topk. rewrite <- (length_argsort row). apply firstn_all.
Qed.

Lemma length_topk (k : nat) (row : list T) :
  (k <= length row)%nat -> length (topk k row) = k.
Proof.
  intros Hk. unfold topk. rewrite length_firstn, length_argsort. lia.
Qed.

Lemma topk_lt (k : nat) (row : list T) (j : nat) :
  In j (topk k row) -> (j < length row)%nat.
Proof.
  intros Hin. unfold topk in Hin.
  assert (Hin' : In j (argsort row)).
  { rewrite <- (firstn_skipn k (argsort row)). apply in_or_app. left. exact Hin. }
  apply (Permutation_in _ (argsort_perm row)) in Hin'. apply in_seq in Hin'. lia.
Qed.

End TopK.

Section TopKR.
Local Open Scope R_scope.

Lemma Rltb_true (x y : R) : x < y -> Rltb x y = true.
Proof. intros Hxy. unfold Rltb. destruct (Rlt_dec x y); [reflexivity | lra]. Qed.

Lemma Rltb_false (x y : R) : y <= x -> Rltb x y = false.
Proof. intros Hxy. unfold Rltb. destruct (Rlt_dec x y); [lra | reflexivity]. Qed.

Lemma insert_by_sorted (x : nat * R) (l : list (nat * R)) :
  Sorted le_snd l -> Sorted le_snd (insert_by x l).
Proof.
  induction 1 as [|y r Hr IH Hhd]; simpl; [repeat constructor|].
  rsimpl. unfold Rltb. destruct (Rlt_dec (snd y) (snd x)) as [Hlt | Hge].
  - constructor; [exact IH|].
    destruct r as [|z r]; simpl.
    + constructor. unfold le_snd. lra.
    + rsimpl. unfold Rltb. destruct (Rlt_dec (snd z) (snd x)).
      * constructor. inversion Hhd; subst. assumption.
      * constructor. unfold le_snd. lra.
  - constructor; [constructor; assumption|].
    constructor. unfold le_snd. lra.
Qed.

Lemma sort_by_sorted (l : list (nat * R)) : StronglySorted le_snd (sort_by l).
Proof.
  apply Sorted_StronglySorted.
  - intros x y z. unfold le_snd. lra.
  - induction l as [|x l IH]; simpl; [constructor | apply insert_by_sorted, IH].
Qed.

Lemma StronglySorted_app {A} (R : A -> A -> Prop) (l1 l2 : list A) (x y : A) :
  StronglySorted R (l1 ++ l2) -> In x l1 -> In y l2 -> R x y.
Proof.
  induction l1 as [|a l1 IH]; simpl; intros Hs Hx Hy; [tauto|].
  inversion Hs as [|? ? Hs' Hall]; subst.
  destruct Hx as [-> | Hx].
  - rewrite Forall_forall in Hall. apply Hall. apply in_or_app. right. exact Hy.
  - apply IH; assumption.
Qed.

(** An index that [topk] selects has an entry that is at most the entry
    of every index that it leaves out. *)
Lemma topk_smallest (k : nat) (row : list R) (a b : nat) :
  In a (topk k row) -> (b < length row)%nat -> ~ In b (topk k row) ->
  nth a row 0 <= nth b row 0.
Proof.
  intros Ha Hb Hnb. unfold topk, argsort in *.
  set (s := sort_by (combine (seq 0 (length row)) row)) in *.
  rewrite firstn_map in Ha, Hnb.
  apply in_map_iff in Ha. destruct Ha as [[a' va] [Ea Ha]]. simpl in Ea. subst a'.
  assert (Hb' : In b (map fst s)).
  { apply (Permutation_in _ (Permutation_sym (argsort_perm row))). apply in_seq. lia. }
  apply in_map_iff in Hb'. destruct Hb' as [[b' vb] [Eb Hb']]. simpl in Eb. subst b'.
  assert (Hb2 : In (b, vb) (skipn k s)).
  { rewrite <- (firstn_skipn k s) in Hb'. apply in_app_or in Hb'.
    destruct Hb' as [Hb' | Hb']; [|exact Hb'].
    exfalso. apply Hnb. apply in_map_iff. exists (b, vb). split; [reflexivity | exact Hb']. }
  assert (Hle : le_snd (a, va) (b, vb)).
  { apply (StronglySorted_app le_snd (firstn k s) (skipn k s)); try assumption.
    rewrite firstn_skipn. apply sort_by_sorted. }
  assert (Hina : In (a, va) s).
  { rewrite <- (firstn_skipn k s). apply in_or_app. left. exact Ha. }
  apply (Permutation_in _ (sort_by_perm _)) in Hina.
  apply (Permutation_in _ (sort_by_perm _)) in Hb'.
  apply (in_combine_seq row 0 a va 0) in Hina. apply (in_combine_seq row 0 b vb 0) in Hb'.
  destruct Hina as [_ Hva]. destruct Hb' as [_ Hvb].
  rewrite Nat.sub_0_r in Hva, Hvb. subst va vb. exact Hle.
Qed.

Lemma topk_NoDup (k : nat) (row : list R) : NoDup (topk k row).
Proof.
  unfold topk.
  assert (Hnd : NoDup (argsort row)).
  { apply (Permutation_NoDup (Permutation_sym (argsort_perm row))). apply seq_NoDup. }
  rewrite <- (firstn_skipn k (argsort row)) in Hnd.
  apply NoDup_app_remove_r in Hnd. exact Hnd.
Qed.

End TopKR.

Section SelectionR.
Local Open Scope R_scope.

Lemma nbhd_ranking_invalid (coors : list (list R)) (m : list bool) (i j : nat) :
  nth i m false = false \/ nth j m false = false ->
  Fwd.nbhd_ranking coors (Some m) i j = ranking_sentinel.
Proof.
  intros Hinv. unfold Fwd.nbhd_ranking.
  destruct Hinv as [-> | ->]; [|rewrite andb_false_r]; reflexivity.
Qed.

Lemma nbhd_ranking_valid (coors : list (list R)) (m : list bool) (i j : nat) :
  nth i m false = true -> nth j m false = true ->
  Fwd.nbhd_ranking coors (Some m) i j = Fwd.rel_dist coors i j.
Proof.
  intros Hi Hj. unfold Fwd.nbhd_ranking. rewrite Hi, Hj. reflexivity.
Qed.

Lemma nbhd_indices_some (self : EquivariantAttention R) coors mask ix :
  Fwd.nbhd_indices self coors mask = Some ix ->
  (0 < num_nearest_neighbors self)%nat /\
  forall i, (i < Fwd.n_coors coors)%nat ->
    nth i ix [] = topk (num_nearest_neighbors self)
                    (tab (Fwd.n_coors coors) (Fwd.nbhd_ranking coors mask i)).
Proof.
  unfold Fwd.nbhd_indices.
  destruct (0 <? num_nearest_neighbors self)%nat eqn:Hk; [|discriminate].
  intros E. injection E as <-. split; [apply Nat.ltb_lt; exact Hk|].
  intros i Hi. rewrite nth_tab by exact Hi. reflexivity.
Qed.

Lemma valid_nodes_spec (m : list bool) (nc b : nat) :
  In b (valid_nodes m nc) <-> (b < nc)%nat /\ nth b m false = true.
Proof.
  unfold valid_nodes. rewrite filter_In, in_seq. intuition lia.
Qed.

Lemma valid_nodes_NoDup (m : list bool) (nc : nat) : NoDup (valid_nodes m nc).
Proof. unfold valid_nodes. apply NoDup_filter, seq_NoDup. Qed.

End SelectionR.

(** The range in which the selection does what the comment on the
    sentinel asks for: with [k > 0] and a mask, every pair with an
    invalid end point is ranked with the sentinel [1e5]; for a valid
    node that has at least [k] valid nodes to choose from, itself
    included, whose distances to it are all below the sentinel, the [k]
    selected neighbour indices are distinct and refer to valid nodes. *)
Lemma topk_selects_valid (self : EquivariantAttention R)
  (coors : list (list R)) (m : list bool) (ix : list (list nat)) (i : nat) :
  Fwd.nbhd_indices self coors (Some m) = Some ix ->
  (i < Fwd.n_coors coors)%nat ->
  nth i m false = true ->
  (num_nearest_neighbors self <= length (valid_nodes m (Fwd.n_coors coors)))%nat ->
  (forall j, (j < Fwd.n_coors coors)%nat -> nth j m false = true ->
     (Fwd.rel_dist coors i j < ranking_sentinel)%R) ->
  (forall i' j', nth i' m false = false \/ nth j' m false = false ->
     Fwd.nbhd_ranking coors (Some m) i' j' = ranking_sentinel) /\
  length (nth i ix []) = num_nearest_neighbors self /\
  NoDup (nth i ix []) /\
  (forall j, In j (nth i ix []) -> nth j m false = true).
Proof.
  intros Hix Hi Hmi Hk Hdist.
  split; [intros i' j'; apply nbhd_ranking_invalid|].
  destruct (nbhd_indices_some self coors (Some m) ix Hix) as [Hk0 Hsel].
  rewrite (Hsel i Hi).
  set (nc := Fwd.n_coors coors) in *.
  set (row := tab nc (Fwd.nbhd_ranking coors (Some m) i)).
  set (k := num_nearest_neighbors self) in *.
  assert (Hlen : length row = nc) by apply length_tab.
  assert (Hvl : (length (valid_nodes m nc) <= nc)%nat).
  { unfold valid_nodes.
    pose proof (filter_length_le (fun j => nth j m false) (seq 0 nc)) as Hf.
    rewrite length_seq in Hf. exact Hf. }
  split; [apply length_topk; lia|].
  split; [apply topk_NoDup|].
  intros j Hj.
  destruct (nth j m false) eqn:Hmj; [reflexivity | exfalso].
  assert (Hjn : (j < nc)%nat) by (apply topk_lt in Hj; lia).
  destruct (Forall_Exists_dec (fun b => In b (topk k row))
              (fun b => in_dec Nat.eq_dec b (topk k row)) (valid_nodes m nc))
    as [Hall | Hex].
  - assert (Hincl : incl (j :: valid_nodes m nc) (topk k row)).
    { intros b [<- | Hb]; [exact Hj|]. rewrite Forall_forall in Hall. apply Hall, Hb. }
    assert (Hnd : NoDup (j :: valid_nodes m nc)).
    { constructor; [|apply valid_nodes_NoDup].
      rewrite valid_nodes_spec. intros [_ Hv]. congruence. }
    pose proof (NoDup_incl_length Hnd Hincl) as Hl. simpl in Hl.
    assert (length (topk k row) <= k)%nat by (unfold topk; apply firstn_le_length).
    lia.
  - apply Exists_exists in Hex. destruct Hex as [b [Hb Hnb]].
    apply valid_nodes_spec in Hb. destruct Hb as [Hbn Hmb].
    assert (Hle : (nth j row 0 <= nth b row 0)%R)
      by (apply (topk_smallest k); [exact Hj | lia | exact Hnb]).
    unfold row in Hle. rewrite !nth_tab in Hle by assumption.
    rewrite nbhd_ranking_invalid in Hle by (right; exact Hmj).
    rewrite nbhd_ranking_valid in Hle by assumption.
    specialize (Hdist b Hbn Hmb). lra.
Qed.

Section FarR.
Local Open Scope R_scope.

Lemma ranking_far_row :
  tab 3 (Fwd.nbhd_ranking coors_far (Some mask_far) 0) = [0; 200000; 100000].
Proof.
  unfold tab, Fwd.nbhd_ranking, Fwd.rel_dist, Fwd.rel_coors, vnorm, vsub, ssum,
    ranking_sentinel.
  simpl.
  replace ((0 - 0) * (0 - 0) + ((0 - 0) * (0 - 0) + ((0 - 0) * (0 - 0) + 0))) with 0
    by ring.
  replace ((0 - 200000) * (0 - 200000) + ((0 - 0) * (0 - 0) + ((0 - 0) * (0 - 0) + 0)))
    with (200000 * 200000) by ring.
  rewrite sqrt_0, sqrt_square by lra. reflexivity.
Qed.

Lemma topk_far_row : topk 2 [0; 200000; 100000] = [0%nat; 2%nat].
Proof.
  unfold topk, argsort, sort_by. simpl. rsimpl.
  repeat (first [rewrite Rltb_true by lra | rewrite Rltb_false by lra]; simpl).
  reflexivity.
Qed.

End FarR.

(** The selection on [coors_far] under [mask_far] with [k = 2]: the first
    node selects itself and the padding node. *)
Example nbhd_indices_far (ix : list (list nat)) :
  Fwd.nbhd_indices (block0 2 false) coors_far (Some mask_far) = Some ix ->
  nth 0 ix [] = [0%nat; 2%nat].
Proof.
  intros Hix. destruct (nbhd_indices_some _ _ _ _ Hix) as [_ Hsel].
  rewrite Hsel by (unfold Fwd.n_coors; simpl; lia).
  change (Fwd.n_coors coors_far) with 3%nat. simpl num_nearest_neighbors.
  rewrite ranking_far_row. apply topk_far_row.
Qed.

(** C7. The code does not keep padding out of the neighbourhoods, as the
    comment on the sentinel (line 189) says it does.  [k = 2], three
    nodes of which the third is padding, the two valid nodes 200000
    apart: the first node has two valid nodes to choose from, itself and
    the second node, and yet the padding node, ranked at [1e5], is
    selected as its neighbour before the valid second node, ranked at
    its distance 200000. *)
Lemma topk_selects_padding :
  ~ topk_selects_valid_nodes (block0 2 false) coors_far mask_far.
Proof.
  intros Hc.
  destruct (Fwd.nbhd_indices (block0 2 false) coors_far (Some mask_far)) as [ix|] eqn:Hix;
    [|discriminate].
  assert (Hsel : nth 0 ix [] = [0%nat; 2%nat]).
  { destruct (nbhd_indices_some _ _ _ _ Hix) as [_ Hsel].
    rewrite Hsel by (unfold Fwd.n_coors; simpl; lia).
    change (Fwd.n_coors coors_far) with 3%nat. simpl num_nearest_neighbors.
    rewrite ranking_far_row. apply topk_far_row. }
  specialize (Hc ix 0%nat 2%nat Hix).
  assert (E : nth 2 mask_far false = true).
  { apply Hc.
    - unfold Fwd.n_coors. simpl. lia.
    - reflexivity.
    - simpl. lia.
    - rewrite Hsel. right. left. reflexivity. }
  discriminate E.
Qed.

Section Reorder.
Local Open Scope R_scope.

Lemma ssum_perm (l l' : list R) : Permutation l l' -> ssum l = ssum l'.
Proof.
  induction 1 as [| x l l' _ IH | x y l | l l' l'' _ IH1 _ IH2];
    unfold ssum in *; simpl; rsimpl; lra.
Qed.

Lemma fold_smax_spec (r : list R) (a : R) :
  (fold_left smax r a = a \/ In (fold_left smax r a) r) /\
  a <= fold_left smax r a /\
  (forall x, In x r -> x <= fold_left smax r a).
Proof.
  revert a. induction r as [|b r IH]; intros a; simpl.
  - split; [left; reflexivity|]. split; [lra | tauto].
  - destruct (IH (smax a b)) as (Hin & Hge & Hall).
    assert (Hab : (smax a b = a /\ b <= a) \/ (smax a b = b /\ a <= b)).
    { rewrite smax_Rmax. unfold Rmax. destruct (Rle_dec a b); [right | left]; lra. }
    destruct Hab as [[E Hle] | [E Hle]]; rewrite E in *.
    + split; [|split].
      * destruct Hin as [Hin | Hin]; [left; exact Hin | right; right; exact Hin].
      * exact Hge.
      * intros x [<- | Hx]; [lra | apply Hall, Hx].
    + split; [|split].
      * destruct Hin as [Hin | Hin]; [right; left; symmetry; exact Hin
                                     | right; right; exact Hin].
      * lra.
      * intros x [<- | Hx]; [exact Hge | apply Hall, Hx].
Qed.

Lemma row_max_spec (l : list R) :
  l <> [] -> In (row_max l) l /\ forall x, In x l -> x <= row_max l.
Proof.
  destruct l as [|a r]; [congruence|]. intros _. unfold row_max.
  destruct (fold_smax_spec r a) as (Hin & Hge & Hall). split.
  - destruct Hin as [-> | Hin]; [left; reflexivity | right; exact Hin].
  - intros x [<- | Hx]; [exact Hge | apply Hall, Hx].
Qed.

Lemma row_max_perm (l l' : list R) : Permutation l l' -> row_max l = row_max l'.
Proof.
  intros Hp. destruct l as [|a r].
  - apply Permutation_nil in Hp. subst. reflexivity.
  - assert (Hne : a :: r <> []) by congruence.
    assert (Hne' : l' <> []).
    { intros ->. apply Permutation_sym, Permutation_nil in Hp. congruence. }
    destruct (row_max_spec _ Hne) as [Hin Hall].
    destruct (row_max_spec _ Hne') as [Hin' Hall'].
    apply Rle_antisym.
    + apply Hall'. apply (Permutation_in _ Hp). exact Hin.
    + apply Hall. apply (Permutation_in _ (Permutation_sym Hp)). exact Hin'.
Qed.

Lemma tab_nth_map {A B} (F : A -> B) (l : list A) (d : A) :
  tab (length l) (fun j => F (nth j l d)) = map F l.
Proof.
  apply nth_ext with (d := F d) (d' := F d).
  - rewrite length_tab, length_map. reflexivity.
  - intros j Hj. rewrite length_tab in Hj.
    rewrite nth_tab by exact Hj. symmetry. apply nth_map_lt. exact Hj.
Qed.

(** A sum over the slots of a neighbourhood that lists every node once
    is the sum over the nodes. *)
Lemma ssum_tab_perm (F : nat -> R) (idx : list nat) (N : nat) :
  Permutation idx (seq 0 N) ->
  ssum (tab N (fun j => F (nth j idx 0%nat))) = ssum (tab N F).
Proof.
  intros Hp.
  assert (Hlen : length idx = N)
    by (rewrite (Permutation_length Hp); apply length_seq).
  rewrite <- Hlen at 1. rewrite tab_nth_map.
  apply ssum_perm. unfold tab. apply Permutation_map, Hp.
Qed.

(** The softmax weight of a slot is the softmax weight of its node. *)
Lemma softmax_tab_perm (g : nat -> R) (idx : list nat) (N j : nat) :
  Permutation idx (seq 0 N) -> (j < N)%nat ->
  nth j (softmax (tab N (fun j' => g (nth j' idx 0%nat)))) 0 =
  nth (nth j idx 0%nat) (softmax (tab N g)) 0.
Proof.
  intros Hp Hj.
  assert (Hlen : length idx = N)
    by (rewrite (Permutation_length Hp); apply length_seq).
  assert (Hpj : (nth j idx 0 < N)%nat).
  { assert (Hin : In (nth j idx 0%nat) idx) by (apply nth_In; lia).
    apply (Permutation_in _ Hp) in Hin. apply in_seq in Hin. lia. }
  assert (Hpm : Permutation (tab N (fun j' => g (nth j' idx 0%nat))) (tab N g)).
  { rewrite <- Hlen at 1. rewrite tab_nth_map. unfold tab. apply Permutation_map, Hp. }
  rewrite !softmax_nth by (rewrite length_tab; assumption).
  rewrite !nth_tab by assumption.
  rewrite (row_max_perm _ _ Hpm).
  f_equal. apply ssum_perm. apply Permutation_map, Hpm.
Qed.

End Reorder.

Ltac unfold_fwd_slot :=
  unfold Fwd.sim, Fwd.sim_raw, Fwd.coors_term, Fwd.rel_coors_normed, Fwd.coor_weights,
    Fwd.coor_weights_raw, Fwd.coor_mlp_input, Fwd.m_ij, Fwd.edge_input, Fwd.pair_mask,
    Fwd.v_pos, Fwd.rel_dist_pos_emb, Fwd.rel_coors_nb, Fwd.rel_dist_nb, Fwd.v_nb,
    Fwd.k_nb, batched_index_select.

Section DenseSparse.
Local Open Scope R_scope.

Variable self : EquivariantAttention R.
Variable feats : list (list R).
Variable coors : list (list R).
Variable edges : option (list (list (list R))).
Variable N : nat.
Hypothesis HN : (0 < N)%nat.
Hypothesis Hfeats : length feats = N.
Hypothesis Hcoors : length coors = N.

Let S := with_num_nearest_neighbors N self.
Let D := with_num_nearest_neighbors 0 self.

(** The selected indices, and the node of slot [j] of node [i]. *)
Let ix := tab N (fun i => topk N (tab N (Fwd.nbhd_ranking coors None i))).
Let p (i j : nat) : nat := nth j (nth i ix []) 0%nat.

Lemma sparse_indices : Fwd.nbhd_indices S coors None = Some ix.
Proof.
  unfold Fwd.nbhd_indices, Fwd.n_coors. simpl num_nearest_neighbors.
  rewrite Hcoors. destruct (Nat.ltb_spec 0 N); [reflexivity | lia].
Qed.

Lemma dense_indices : Fwd.nbhd_indices D coors None = None.
Proof. reflexivity. Qed.

Lemma sparse_row_perm (i : nat) : (i < N)%nat -> Permutation (nth i ix []) (seq 0 N).
Proof.
  intros Hi. unfold ix. rewrite nth_tab by exact Hi.
  set (row := tab N (Fwd.nbhd_ranking coors None i)).
  assert (Hlen : length row = N) by apply length_tab.
  rewrite <- Hlen. rewrite topk_all. apply argsort_perm.
Qed.

Lemma sparse_j_size : Fwd.j_size S feats coors None = N.
Proof.
  unfold Fwd.j_size. rewrite sparse_indices.
  replace (hd [] ix) with (nth 0 ix []) by (destruct ix; reflexivity).
  rewrite (Permutation_length (sparse_row_perm 0 HN)). apply length_seq.
Qed.

Lemma dense_j_size : Fwd.j_size D feats coors None = N.
Proof. unfold Fwd.j_size. rewrite dense_indices. exact Hfeats. Qed.

Lemma sim_slot (hh i j : nat) :
  Fwd.sim S feats coors edges None hh i j = Fwd.sim D feats coors edges None hh i (p i j).
Proof. unfold_fwd_slot. rewrite sparse_indices, dense_indices. reflexivity. Qed.

Lemma coors_term_slot (i c j : nat) :
  Fwd.coors_term S feats coors edges None i c j =
  Fwd.coors_term D feats coors edges None i c (p i j).
Proof. unfold_fwd_slot. rewrite sparse_indices, dense_indices. reflexivity. Qed.

Lemma v_pos_slot (hh i j : nat) :
  Fwd.v_pos S feats coors None hh i j = Fwd.v_pos D feats coors None hh i (p i j).
Proof. unfold_fwd_slot. rewrite sparse_indices, dense_indices. reflexivity. Qed.

Lemma attn_slot (hh i j : nat) :
  (i < N)%nat -> (j < N)%nat ->
  Fwd.attn S feats coors edges None hh i j =
  Fwd.attn D feats coors edges None hh i (p i j).
Proof.
  intros Hi Hj. unfold Fwd.attn. rewrite sparse_j_size, dense_j_size.
  rewrite (tab_ext N (Fwd.sim S feats coors edges None hh i)
             (fun j' => Fwd.sim D feats coors edges None hh i (nth j' (nth i ix []) 0%nat)))
    by (intros j' _; apply sim_slot).
  apply softmax_tab_perm; [apply sparse_row_perm; exact Hi | exact Hj].
Qed.

Lemma coors_out_sparse (i : nat) :
  (i < N)%nat ->
  Fwd.coors_out S feats coors edges None i = Fwd.coors_out D feats coors edges None i.
Proof.
  intros Hi. unfold Fwd.coors_out. rewrite sparse_j_size, dense_j_size.
  apply tab_ext. intros c _.
  rewrite (tab_ext N (Fwd.coors_term S feats coors edges None i c)
             (fun j => Fwd.coors_term D feats coors edges None i c (nth j (nth i ix []) 0%nat)))
    by (intros j _; apply coors_term_slot).
  apply ssum_tab_perm, sparse_row_perm, Hi.
Qed.

Lemma out_head_sparse (hh i : nat) :
  (i < N)%nat ->
  Fwd.out_head S feats coors edges None hh i = Fwd.out_head D feats coors edges None hh i.
Proof.
  intros Hi. unfold Fwd.out_head. rewrite sparse_j_size, dense_j_size.
  change (Fwd.dim_head S) with (Fwd.dim_head D).
  apply tab_ext. intros d _.
  rewrite (tab_ext N
             (fun j => smul (Fwd.attn S feats coors edges None hh i j)
                            (nth d (Fwd.v_pos S feats coors None hh i j) zero))
             (fun j => (fun j' => smul (Fwd.attn D feats coors edges None hh i j')
                                       (nth d (Fwd.v_pos D feats coors None hh i j') zero))
                         (nth j (nth i ix []) 0%nat))).
  - apply (ssum_tab_perm
             (fun j' => smul (Fwd.attn D feats coors edges None hh i j')
                             (nth d (Fwd.v_pos D feats coors None hh i j') zero))).
    apply sparse_row_perm, Hi.
  - intros j Hj. rewrite attn_slot, v_pos_slot by assumption. reflexivity.
Qed.

Lemma forward_one_sparse :
  Fwd.forward_one S feats coors edges None = Fwd.forward_one D feats coors edges None.
Proof.
  unfold Fwd.forward_one, Fwd.n_coors, Fwd.n. simpl num_nearest_neighbors.
  rewrite Hcoors, Hfeats, Nat.ltb_irrefl, andb_false_r. simpl.
  f_equal. f_equal.
  - apply tab_ext. intros i Hi. unfold Fwd.out. f_equal. f_equal.
    change (Fwd.h S) with (Fwd.h D). apply tab_ext. intros hh _.
    apply out_head_sparse, Hi.
  - apply tab_ext. intros i Hi. apply coors_out_sparse, Hi.
Qed.

End DenseSparse.

(** C9. Without a mask, on an input with [N] nodes, the block with
    [num_nearest_neighbors = N] returns what the block with
    [num_nearest_neighbors = 0] returns. *)
Theorem dense_sparse_equivalence (self : EquivariantAttention R)
  (feats coors : list (list (list R))) edges adj_mat (N : nat) :
  nodes_shape N feats coors ->
  forward (with_num_nearest_neighbors N self) feats coors edges None adj_mat =
  forward (with_num_nearest_neighbors 0 self) feats coors edges None adj_mat.
Proof.
  intros (Hb & Hf & Hc).
  destruct N as [|N]; [reflexivity|].
  unfold forward. simpl only_sparse_neighbors.
  destruct (only_sparse_neighbors self && negb (exists_ adj_mat)); [reflexivity|].
  f_equal. apply mapM_ext. intros b Hin. apply in_seq in Hin.
  simpl option_map.
  rewrite Forall_forall in Hf, Hc.
  apply forward_one_sparse; [lia | apply Hf, nth_In; lia | apply Hc, nth_In; lia].
Qed.

(** ** The bound of the hyperbolic tangent

    A block whose coordinate weight network ends in [Tanh] has its
    coordinate weights in [[-1, 1]]; the constructor builds no such
    block (C3). *)

Section TanhBound.
Local Open Scope R_scope.

Lemma tanh_bounds (x : R) : -1 < tanh x < 1.
Proof.
  unfold tanh, sinh, cosh.
  pose proof (exp_pos x) as Ha. pose proof (exp_pos (- x)) as Hb.
  set (a := exp x) in *. set (b := exp (- x)) in *.
  replace ((a - b) / 2 / ((a + b) / 2)) with ((a - b) / (a + b)) by (field; lra).
  split.
  - apply Rmult_lt_reg_r with (a + b); [lra|].
    replace ((a - b) / (a + b) * (a + b)) with (a - b) by (field; lra). lra.
  - apply Rmult_lt_reg_r with (a + b); [lra|].
    replace ((a - b) / (a + b) * (a + b)) with (a - b) by (field; lra). lra.
Qed.

Lemma coor_weights_tanh_bounded (self : EquivariantAttention R) feats coors edges mask i j :
  snd (coors_mlp self) = Tanh ->
  -1 <= Fwd.coor_weights self feats coors edges mask i j <= 1.
Proof.
  intros Hact. unfold Fwd.coor_weights, Fwd.coor_weights_raw, coors_mlp_fn.
  rewrite Hact. simpl activation.
  match goal with |- context [tanh ?x] => pose proof (tanh_bounds x) as Ht end.
  destruct (Fwd.pair_mask self coors mask i j) as [[|]|]; simpl; rsimpl; lra.
Qed.

End TanhBound.

(** * Worked instances *)

Section Witnesses.
Local Open Scope R_scope.

Lemma quarter_turn_rotation : is_rotation quarter_turn.
Proof.
  unfold is_rotation, quarter_turn.
  exists 0, (-1), 0, 1, 0, 0, 0, 0, 1.
  repeat split; lra.
Defined.

Lemma rotation_equivariance_witness :
  is_rotation quarter_turn /\
  coors_shape 3 [feats2] [coors2] /\
  forward (block0 2 false) [feats2] (rotate quarter_turn [coors2]) None None None =
  on_coordinate_delta (rotate quarter_turn)
    (forward (block0 2 false) [feats2] [coors2] None None None).
Proof.
  assert (Hs : coors_shape 3 [feats2] [coors2]).
  { unfold coors_shape. split; [reflexivity|]. split.
    - intros [|[|b]]; reflexivity.
    - repeat constructor. }
  split; [exact quarter_turn_rotation|]. split; [exact Hs|].
  apply (rotation_equivariance (block0 2 false) [feats2] [coors2] None None None
           quarter_turn quarter_turn_rotation Hs).
Defined.

Lemma translation_invariance_witness :
  forward (block0 2 false) [feats2] (translate [1; 2; 3] [coors2]) None None None =
  forward (block0 2 false) [feats2] [coors2] None None None.
Proof.
  apply (translation_invariance (block0 2 false) [feats2] [coors2] None None None
           [1; 2; 3]).
  repeat constructor.
Defined.

Lemma init_norm_coor_weights_raises_witness :
  cfg_norm_coor_weights cfg_norm_weights = true /\
  EquivariantAttention_init cfg_norm_weights params0 =
  Raise (AttributeError "module 'torch.nn' has no attribute 'TanH'").
Proof.
  split; [reflexivity|].
  apply (init_norm_coor_weights_raises cfg_norm_weights params0). reflexivity.
Defined.



Lemma forward_adjacency_assertion_witness :
  forward (block0 0 true) [feats2] [coors2] None None None =
  Raise (AssertionError
    "adjacency matrix must be passed in if only_sparse_neighbors is turned on").
Proof.
  apply (forward_adjacency_assertion (block0 0 true) [feats2] [coors2] None None).
  reflexivity.
Defined.

Lemma dense_sparse_equivalence_witness :
  nodes_shape 2 [feats2] [coors2] /\
  forward (with_num_nearest_neighbors 2 (block0 0 false)) [feats2] [coors2] None None None =
  forward (with_num_nearest_neighbors 0 (block0 0 false)) [feats2] [coors2] None None None.
Proof.
  assert (Hs : nodes_shape 2 [feats2] [coors2]) by (repeat constructor).
  split; [exact Hs|].
  apply (dense_sparse_equivalence (block0 0 false) [feats2] [coors2] None None 2 Hs).
Defined.

Lemma rel_dist_near (j : nat) :
  (j < 3)%nat -> Fwd.rel_dist coors_near 0 j < ranking_sentinel.
Proof.
  intros Hj. unfold Fwd.rel_dist, Fwd.rel_coors, vnorm, vsub, ssum, ranking_sentinel.
  destruct j as [|[|[|j]]]; [| | | lia]; simpl.
  - replace ((0 - 0) * (0 - 0) + ((0 - 0) * (0 - 0) + ((0 - 0) * (0 - 0) + 0))) with 0
      by ring.
    rewrite sqrt_0. lra.
  - replace ((0 - 1) * (0 - 1) + ((0 - 0) * (0 - 0) + ((0 - 0) * (0 - 0) + 0))) with 1
      by ring.
    rewrite sqrt_1. lra.
  - replace ((0 - 0) * (0 - 0) + ((0 - 0) * (0 - 0) + ((0 - 0) * (0 - 0) + 0))) with 0
      by ring.
    rewrite sqrt_0. lra.
Defined.

Lemma topk_selects_valid_witness :
  Fwd.nbhd_indices (block0 2 false) coors_near (Some mask_far) = Some ix_near /\
  (forall i' j', nth i' mask_far false = false \/ nth j' mask_far false = false ->
     Fwd.nbhd_ranking coors_near (Some mask_far) i' j' = ranking_sentinel) /\
  length (nth 0 ix_near []) = 2%nat /\
  NoDup (nth 0 ix_near []) /\
  (forall j, In j (nth 0 ix_near []) -> nth j mask_far false = true).
Proof.
  assert (Hix : Fwd.nbhd_indices (block0 2 false) coors_near (Some mask_far) = Some ix_near)
    by reflexivity.
  split; [exact Hix|].
  apply (topk_selects_valid (block0 2 false) coors_near mask_far ix_near 0 Hix).
  - unfold Fwd.n_coors. simpl. lia.
  - reflexivity.
  - simpl. lia.
  - intros j Hj _. apply rel_dist_near. exact Hj.
Defined.

End Witnesses.

Section Evaluation.
Local Open Scope R_scope.

(** [block0] is what the constructor builds from [cfg0] and [params0]. *)
Example block0_constructed (k : nat) (s : bool) :
  EquivariantAttention_init (cfg0 k s) params0 = Ok (block0 k s).
Proof. reflexivity. Qed.

(** The block at work: in dense mode, without mask, [block0] moves the
    two nodes of [coors2] apart by one unit each and leaves the
    features. *)
Example forward_block0 :
  forward (block0 0 false) [feats2] [coors2] None None None =
  Ok ([[[0]; [0]]], [[[-1; 0; 0]; [1; 0; 0]]]).
Proof.
  unfold forward. simpl. unfold Fwd.forward_one. simpl.
  unfold Fwd.n, Fwd.out, Fwd.coors_out, Fwd.coor_dim, Fwd.j_size, Fwd.nbhd_indices.
  simpl. unfold tab. simpl map.
  rewrite !linear_const_layer.
  unfold Fwd.coors_term. rewrite !block0_coor_weights.
  unfold Fwd.rel_coors_normed, Fwd.rel_coors_nb, Fwd.nbhd_indices, Fwd.rel_coors, vsub, ssum.
  simpl.
  repeat f_equal; lra.
Qed.

End Evaluation.

(** * Attention masking with the special values of float32 *)

Section FloatSoftmax.
Local Open Scope R_scope.

Lemma flt_max_large : 104 < flt_max.
Proof. unfold flt_max. lra. Qed.

Lemma fin_Fin (r : R) : - flt_max <= r <= flt_max -> fin r = Fin r.
Proof.
  intros [Hl Hu]. unfold fin.
  destruct (Rlt_dec flt_max r); [lra|].
  destruct (Rlt_dec r (- flt_max)); [lra | reflexivity].
Qed.

Lemma max_neg_value_Fin : @max_neg_value fnum _ = Fin (- flt_max).
Proof.
  unfold max_neg_value. cbn [sopp of_Z F_scalar].
  fold flt_max. rewrite fin_Fin; [reflexivity|].
  pose proof flt_max_large. lra.
Qed.

Lemma smax_Fin (a b : R) : smax (Fin a) (Fin b) = Fin (smax a b).
Proof.
  unfold smax. cbn [sltb F_scalar R_scalar fltb]. destruct (Rltb a b); reflexivity.
Qed.

Lemma fold_smax_Fin (r : list R) (a : R) :
  fold_left smax (map Fin r) (Fin a) = Fin (fold_left smax r a).
Proof.
  revert a. induction r as [|b r IH]; intros a; simpl; [reflexivity|].
  rewrite smax_Fin. apply IH.
Qed.

Lemma row_max_Fin (l : list R) : row_max (map Fin l) = Fin (row_max l).
Proof. destruct l as [|a r]; [reflexivity | apply fold_smax_Fin]. Qed.

Lemma exp_flush_bounds (d : R) : d <= 0 -> 0 <= exp_flush d <= 1.
Proof.
  intros Hd. unfold exp_flush. destruct (Rlt_dec d exp_underflow); [lra|].
  pose proof (exp_pos d) as Hp.
  assert (exp d <= exp 0).
  { destruct (Req_dec d 0) as [-> | Hne]; [lra|].
    apply Rlt_le, exp_increasing. lra. }
  rewrite exp_0 in *. lra.
Qed.

Lemma exp_flush_0 : exp_flush 0 = 1.
Proof.
  unfold exp_flush, exp_underflow. destruct (Rlt_dec 0 (-104)); [lra | apply exp_0].
Qed.

Lemma exp_flush_below (d : R) : d < exp_underflow -> exp_flush d = 0.
Proof. intros Hd. unfold exp_flush. destruct (Rlt_dec d exp_underflow); [reflexivity | lra]. Qed.

(** The exponential of a logit minus the maximum of its row. *)
Lemma fexp_fsub_Fin (x m : R) :
  x <= m -> sexp (ssub (Fin x) (Fin m)) = Fin (exp_flush (x - m)).
Proof.
  intros Hx. cbn [sexp ssub F_scalar fsub]. pose proof flt_max_large as HM.
  unfold fin. destruct (Rlt_dec flt_max (x - m)); [lra|].
  destruct (Rlt_dec (x - m) (- flt_max)) as [Hlo | Hlo].
  - cbn [fexp]. rewrite exp_flush_below; [reflexivity | unfold exp_underflow; lra].
  - cbn [fexp]. unfold exp_flush.
    destruct (Rlt_dec (x - m) exp_underflow); [reflexivity|].
    apply fin_Fin. pose proof (exp_flush_bounds (x - m) ltac:(lra)) as Hb.
    unfold exp_flush in Hb. destruct (Rlt_dec (x - m) exp_underflow); lra.
Qed.

Lemma ssum_Fin (l : list R) :
  Forall (fun x => 0 <= x <= 1) l -> INR (length l) <= flt_max ->
  ssum (map Fin l) = Fin (ssum l) /\ 0 <= ssum l <= INR (length l).
Proof.
  induction 1 as [|x l Hx Hl IH]; intros Hlen.
  - split; [reflexivity | simpl; unfold ssum; simpl; rsimpl; lra].
  - change (length (x :: l)) with (S (length l)) in *. rewrite S_INR in *.
    destruct IH as [IH Hb]; [lra|].
    assert (E : ssum (x :: l) = x + ssum l) by reflexivity.
    rewrite E. split; [|lra].
    change (ssum (map Fin (x :: l))) with (sadd (Fin x) (ssum (map Fin l))).
    rewrite IH. cbn [sadd F_scalar fadd].
    apply fin_Fin. pose proof flt_max_large. lra.
Qed.

Lemma fdiv_Fin (a s : R) : 0 <= a <= s -> 0 < s -> sdiv (Fin a) (Fin s) = Fin (a / s).
Proof.
  intros Ha Hs. cbn [sdiv F_scalar fdiv].
  destruct (Req_dec_T s 0); [lra|].
  apply fin_Fin. pose proof flt_max_large.
  assert (0 <= a / s <= 1); [|lra].
  split.
  - apply Rmult_le_pos; [lra | apply Rlt_le, Rinv_0_lt_compat, Hs].
  - apply Rmult_le_reg_r with s; [exact Hs|]. unfold Rdiv.
    rewrite Rmult_assoc, Rinv_l by lra. lra.
Qed.

Lemma exp_flush_row (l : list R) :
  Forall (fun x => 0 <= x <= 1) (map (fun x => exp_flush (x - row_max l)) l).
Proof.
  apply Forall_forall. intros y Hy. apply in_map_iff in Hy.
  destruct Hy as [x [<- Hx]].
  assert (Hne : l <> []) by (intros ->; destruct Hx).
  apply exp_flush_bounds. destruct (row_max_spec l Hne) as [_ Hall].
  specialize (Hall x Hx). lra.
Qed.

Lemma exp_flush_row_sum (l : list R) :
  l <> [] -> 1 <= ssum (map (fun x => exp_flush (x - row_max l)) l).
Proof.
  intros Hne. destruct (row_max_spec l Hne) as [Hin _].
  destruct (In_nth l (row_max l) 0 Hin) as [j [Hj Ej]].
  pose proof (exp_flush_row l) as Hb.
  assert (Hnn : Forall (fun x => 0 <= x) (map (fun x => exp_flush (x - row_max l)) l)).
  { eapply Forall_impl; [|exact Hb]. simpl. intros; lra. }
  pose proof (ssum_ge_nth _ j Hnn ltac:(rewrite length_map; exact Hj)) as Hge.
  rewrite (nth_map_lt _ _ 0) in Hge by exact Hj.
  rewrite Ej, Rminus_diag, exp_flush_0 in Hge. exact Hge.
Qed.

(** The softmax of a row of finite floats consists of finite floats. *)
Lemma softmax_Fin (l : list R) :
  INR (length l) <= flt_max -> softmax (map Fin l) = map Fin (softmax_flush l).
Proof.
  intros Hlen. destruct l as [|a r]; [reflexivity|].
  set (l := a :: r) in *. assert (Hne : l <> []) by (unfold l; congruence).
  unfold softmax, softmax_flush. rewrite row_max_Fin.
  set (m := row_max l).
  assert (He : map (fun x => sexp (ssub x (Fin m))) (map Fin l) =
               map Fin (map (fun x => exp_flush (x - m)) l)).
  { rewrite !map_map. apply map_ext_in. intros x Hx.
    apply fexp_fsub_Fin. apply (proj2 (row_max_spec l Hne)), Hx. }
  rewrite He.
  pose proof (exp_flush_row l) as Hb. fold m in Hb.
  pose proof (exp_flush_row_sum l Hne) as Hs. fold m in Hs.
  set (e := map (fun x => exp_flush (x - m)) l) in *.
  destruct (ssum_Fin e Hb) as [Hsum Hsb].
  { unfold e. rewrite length_map. exact Hlen. }
  rewrite Hsum. rewrite !map_map. apply map_ext_in. intros y Hy.
  apply fdiv_Fin; [|lra].
  rewrite Forall_forall in Hb. split; [apply Hb, Hy|].
  destruct (In_nth e y 0 Hy) as [j [Hj <-]].
  apply ssum_ge_nth; [|exact Hj].
  apply Forall_forall. intros z Hz. apply Hb, Hz.
Qed.

Lemma length_softmax_flush (l : list R) : length (softmax_flush l) = length l.
Proof. unfold softmax_flush. rewrite !length_map. reflexivity. Qed.

Lemma softmax_flush_nth (l : list R) (j : nat) :
  (j < length l)%nat ->
  nth j (softmax_flush l) 0 =
  exp_flush (nth j l 0 - row_max l) / ssum (map (fun x => exp_flush (x - row_max l)) l).
Proof.
  intros Hj. unfold softmax_flush.
  rewrite (nth_map_lt _ _ 0) by (rewrite length_map; exact Hj).
  rewrite (nth_map_lt _ _ 0) by exact Hj. reflexivity.
Qed.

Lemma softmax_flush_range (l : list R) (j : nat) :
  (j < length l)%nat -> 0 <= nth j (softmax_flush l) 0 <= 1.
Proof.
  intros Hj. rewrite softmax_flush_nth by exact Hj.
  assert (Hne : l <> []) by (intros ->; simpl in Hj; lia).
  pose proof (exp_flush_row l) as Hb.
  pose proof (exp_flush_row_sum l Hne) as Hs.
  set (e := map (fun x => exp_flush (x - row_max l)) l) in *.
  assert (Hnn : Forall (fun x => 0 <= x) e).
  { eapply Forall_impl; [|exact Hb]. simpl. intros; lra. }
  pose proof (ssum_ge_nth e j Hnn ltac:(unfold e; rewrite length_map; exact Hj)) as Hge.
  unfold e in Hge at 1. rewrite (nth_map_lt _ _ 0) in Hge by exact Hj.
  rewrite Forall_forall in Hnn.
  assert (H0 : 0 <= exp_flush (nth j l 0 - row_max l)).
  { apply Hnn. unfold e.
    apply (in_map (fun x => exp_flush (x - row_max l))). apply nth_In. exact Hj. }
  split.
  - apply Rmult_le_pos; [exact H0 | apply Rlt_le, Rinv_0_lt_compat; lra].
  - apply Rmult_le_reg_r with (ssum e); [lra|]. unfold Rdiv.
    rewrite Rmult_assoc, Rinv_l by lra. lra.
Qed.

(** A logit more than 104 below another logit of its row has the
    softmax weight 0. *)
Lemma softmax_flush_zero (l : list R) (j j0 : nat) :
  (j < length l)%nat -> (j0 < length l)%nat ->
  nth j l 0 - nth j0 l 0 < exp_underflow ->
  nth j (softmax_flush l) 0 = 0.
Proof.
  intros Hj Hj0 Hlt. rewrite softmax_flush_nth by exact Hj.
  assert (Hne : l <> []) by (intros ->; simpl in Hj; lia).
  destruct (row_max_spec l Hne) as [_ Hall].
  specialize (Hall (nth j0 l 0) (nth_In _ _ Hj0)).
  rewrite exp_flush_below by lra. unfold Rdiv. apply Rmult_0_l.
Qed.

(** The softmax of a row of equal logits is uniform. *)
Lemma softmax_flush_const (c : R) (n j : nat) :
  (j < n)%nat -> nth j (softmax_flush (repeat c n)) 0 = 1 / INR n.
Proof.
  intros Hj. rewrite softmax_flush_nth by (rewrite repeat_length; exact Hj).
  destruct n as [|n]; [lia|].
  rewrite row_max_repeat. rewrite nth_repeat_lt by exact Hj.
  rewrite Rminus_diag, exp_flush_0.
  rewrite (map_ext_in _ (fun _ => 1)).
  - rewrite map_const, repeat_length. rewrite ssum_repeat. rewrite Rmult_1_r. reflexivity.
  - intros x Hx. apply repeat_spec in Hx. subst. rewrite Rminus_diag. apply exp_flush_0.
Qed.

End FloatSoftmax.

Section FloatLayers.
Local Open Scope R_scope.

Lemma fin_0 : fin 0 = Fin 0.
Proof. apply fin_Fin. pose proof flt_max_large. lra. Qed.

Lemma fsub_diag (x : R) : ssub (Fin x) (Fin x) = Fin 0.
Proof. cbn [ssub F_scalar fsub]. rewrite Rminus_diag. apply fin_0. Qed.

Lemma fmul_0_l (x : R) : smul (Fin 0) (Fin x) = Fin 0.
Proof. cbn [smul F_scalar fmul]. rewrite Rmult_0_l. apply fin_0. Qed.

Lemma fadd_0_l (x : R) : - flt_max <= x <= flt_max -> sadd (Fin 0) (Fin x) = Fin x.
Proof. intros Hx. cbn [sadd F_scalar fadd]. rewrite Rplus_0_l. apply fin_Fin, Hx. Qed.

Lemma relu_Fin (x : R) : relu (Fin x) = Fin (relu x).
Proof. unfold relu. apply (smax_Fin 0 x). Qed.

Lemma fdot_zeros (n : nat) (xs : list R) : dot (map Fin (repeat 0 n)) (map Fin xs) = Fin 0.
Proof.
  revert xs. induction n as [|n IH]; intros xs; [reflexivity|].
  destruct xs as [|x xs]; [reflexivity|].
  specialize (IH xs). unfold dot, ssum in *. cbn [repeat map zip_with fold_right].
  rewrite IH, fmul_0_l. apply fadd_0_l. pose proof flt_max_large. lra.
Qed.

Lemma vadd_zeros_Fin (b : R) (k : nat) :
  - flt_max <= b <= flt_max ->
  vadd (repeat (Fin 0) k) (map Fin (repeat b k)) = map Fin (repeat b k).
Proof.
  intros Hb. induction k as [|k IH]; [reflexivity|].
  unfold vadd in *. cbn [repeat map zip_with]. rewrite IH, (fadd_0_l b Hb). reflexivity.
Qed.

Lemma map_dot_zeros (n k : nat) (xs : list R) :
  map (fun row => dot row (map Fin xs)) (map (map Fin) (repeat (repeat 0 n) k)) =
  repeat (Fin 0) k.
Proof.
  induction k as [|k IH]; [reflexivity|].
  cbn [repeat map]. rewrite IH, fdot_zeros. reflexivity.
Qed.

(** A layer with zero weights gives its bias on every finite input. *)
Lemma linear_float_const (n k : nat) (b : R) (xs : list R) :
  - flt_max <= b <= flt_max ->
  linear (float_linear (const_layer n k b)) (map Fin xs) = map Fin (repeat b k).
Proof.
  intros Hb. unfold linear, float_linear, const_layer. cbn [weight bias option_map].
  rewrite map_dot_zeros. apply vadd_zeros_Fin, Hb.
Qed.

Lemma map_relu_Fin (l : list R) : map relu (map Fin l) = map Fin (map relu l).
Proof. rewrite !map_map. apply map_ext. intros x. apply relu_Fin. Qed.

End FloatLayers.

Section FloatBlock.
Local Open Scope R_scope.

Lemma ssum_repeat_Fin_0 (n : nat) : ssum (repeat (Fin 0) n) = Fin 0.
Proof.
  induction n as [|n IH]; [reflexivity|].
  unfold ssum in *. cbn [repeat fold_right]. rewrite IH.
  apply fadd_0_l. pose proof flt_max_large. lra.
Qed.

(** The distance of a point to itself. *)
Lemma vnorm_vsub_diag (a : list R) : vnorm (vsub (map Fin a) (map Fin a)) = Fin 0.
Proof.
  assert (E : map (fun x => smul x x) (vsub (map Fin a) (map Fin a)) =
              repeat (Fin 0) (length a)).
  { induction a as [|x a IH]; [reflexivity|].
    unfold vsub in *. cbn [map zip_with length repeat].
    rewrite IH, fsub_diag, fmul_0_l. reflexivity. }
  unfold vnorm. rewrite E, ssum_repeat_Fin_0.
  cbn [ssqrt F_scalar fsqrt]. destruct (Rlt_dec 0 0); [lra|]. rewrite sqrt_0. reflexivity.
Qed.

(** The logit of the pair of the first node with itself is the bias. *)
Lemma sim_raw_block_bias (b : R) (mask : option (list bool)) :
  - flt_max <= b <= flt_max ->
  Fwd.sim_raw (float_block (block_bias b)) (float_rows feats2) (float_rows coors2)
    None mask 0 0 0 = Fin b.
Proof.
  intros Hb.
  assert (H0 : - flt_max <= 0 <= flt_max) by (pose proof flt_max_large; lra).
  unfold Fwd.sim_raw, Fwd.m_ij, Fwd.edge_input, Fwd.rel_dist_pos_emb, Fwd.rel_dist_nb,
    Fwd.k_nb, Fwd.q, Fwd.k, Fwd.qkv, Fwd.rel_dist_enc, Fwd.rel_dist, Fwd.rel_coors,
    Fwd.nbhd_indices, Fwd.h.
  unfold to_attn_mlp_fn, edge_mlp_fn, to_pos_emb_fn.
  cbn [float_block block_bias params0 float_mlp fst snd to_attn_mlp edge_mlp to_pos_emb to_qkv
       p_to_attn_mlp p_edge_mlp p_to_pos_emb p_to_qkv num_nearest_neighbors fourier_features
       heads Nat.ltb Nat.leb].
  change (nth 0 (float_rows coors2) []) with (map Fin [0; 0; 0]).
  change (nth 0 (float_rows feats2) []) with (map Fin [0]).
  rewrite vnorm_vsub_diag.
  change [Fin 0] with (map Fin [0]).
  rewrite (linear_float_const 1 2 0 [0] H0), map_relu_Fin.
  rewrite (linear_float_const 2 1 0 _ H0).
  assert (Eqkv : linear (float_linear {| weight := [[0]; [0]; [0]]; bias := None |})
                   (map Fin [0]) = repeat (Fin 0) 3).
  { unfold linear, float_linear. cbn [weight bias option_map].
    apply (map_dot_zeros 1 3 [0]). }
  rewrite Eqkv.
  change (split_head 1 0 (chunk 3 0 (repeat (Fin 0) 3))) with (map Fin [0]).
  change (split_head 1 0 (chunk 3 1 (repeat (Fin 0) 3))) with (map Fin [0]).
  change (vsub (map Fin [0]) (map Fin [0])) with [ssub (Fin 0) (Fin 0)].
  rewrite fsub_diag.
  change (vadd [Fin 0] (map Fin (repeat 0 1))) with [sadd (Fin 0) (Fin 0)].
  rewrite (fadd_0_l 0 H0).
  change [Fin 0] with (map Fin [0]).
  rewrite (linear_float_const 1 2 0 [0] H0), map_relu_Fin.
  rewrite (linear_float_const 2 1 0 _ H0), map_relu_Fin.
  rewrite (linear_float_const 1 4 0 _ H0), map_relu_Fin.
  rewrite (linear_float_const 4 1 b _ Hb).
  reflexivity.
Qed.

End FloatBlock.

Section FloatAttention.
Local Open Scope R_scope.
Variable self : EquivariantAttention fnum.
Variables feats coors : list (list fnum).
Variable edges : option (list (list (list fnum))).
Variable m : list bool.
Variables hh i : nat.

Let J := Fwd.j_size self feats coors (Some m).
Let row := tab J (fun j => to_R (Fwd.sim self feats coors edges (Some m) hh i j)).

Hypothesis J_bound : INR J <= flt_max.
Hypothesis raw_finite : forall j, (j < J)%nat ->
  Fwd.pair_mask self coors (Some m) i j = Some true ->
  exists s, Fwd.sim_raw self feats coors edges (Some m) hh i j = Fin s.

Lemma sim_finite (j : nat) :
  (j < J)%nat -> exists s, Fwd.sim self feats coors edges (Some m) hh i j = Fin s.
Proof.
  intros Hj. unfold Fwd.sim.
  destruct (Fwd.pair_mask self coors (Some m) i j) as [[|]|] eqn:E; simpl.
  - apply raw_finite; assumption.
  - exists (- flt_max). apply max_neg_value_Fin.
  - rewrite pair_mask_neighbor in E. discriminate.
Qed.

Lemma sim_row : tab J (Fwd.sim self feats coors edges (Some m) hh i) = map Fin row.
Proof.
  unfold row, tab. rewrite map_map. apply map_ext_in. intros j Hj.
  apply in_seq in Hj. destruct (sim_finite j ltac:(lia)) as [s ->]. reflexivity.
Qed.

(** The attention weights of the row are the finite floats of
    [softmax_flush]. *)
Lemma attn_row (j : nat) :
  (j < J)%nat ->
  Fwd.attn self feats coors edges (Some m) hh i j = Fin (nth j (softmax_flush row) 0).
Proof.
  intros Hj. unfold Fwd.attn. fold J. rewrite sim_row.
  rewrite softmax_Fin by (unfold row; rewrite length_tab; exact J_bound).
  rewrite (nth_map_lt _ _ 0); [reflexivity|].
  rewrite length_softmax_flush. unfold row. rewrite length_tab. exact Hj.
Qed.

Lemma attn_finite (j : nat) :
  (j < J)%nat ->
  exists w, Fwd.attn self feats coors edges (Some m) hh i j = Fin w /\ 0 <= w <= 1.
Proof.
  intros Hj. exists (nth j (softmax_flush row) 0). split.
  - apply attn_row, Hj.
  - apply softmax_flush_range. unfold row. rewrite length_tab. exact Hj.
Qed.

Lemma attn_underflow (j j0 : nat) (s : R) :
  (j < J)%nat -> (j0 < J)%nat ->
  invalid_pair self coors m i j ->
  Fwd.sim self feats coors edges (Some m) hh i j0 = Fin s ->
  - flt_max - exp_underflow < s ->
  Fwd.attn self feats coors edges (Some m) hh i j = Fin 0.
Proof.
  intros Hj Hj0 Hinv Es Hs. rewrite attn_row by exact Hj.
  assert (Hlen : length row = J) by apply length_tab.
  rewrite (softmax_flush_zero row j j0); [reflexivity | lia | lia |].
  pose proof (sim_invalid self feats coors edges m hh i j Hinv) as Ej.
  rewrite max_neg_value_Fin in Ej.
  unfold row. rewrite !nth_tab by assumption. rewrite Ej, Es. simpl. lra.
Qed.

End FloatAttention.

(** The attention weights of a node that the mask marks invalid are
    uniform, whatever the unmasked logits. *)
Lemma attn_invalid_row_float (self : EquivariantAttention fnum)
  (feats coors : list (list fnum)) (edges : option (list (list (list fnum))))
  (m : list bool) (hh i j : nat) :
  (INR (Fwd.j_size self feats coors (Some m)) <= flt_max)%R ->
  nth i m false = false ->
  (j < Fwd.j_size self feats coors (Some m))%nat ->
  Fwd.attn self feats coors edges (Some m) hh i j =
  Fin (1 / INR (Fwd.j_size self feats coors (Some m))).
Proof.
  intros HJ Hi Hj.
  rewrite (attn_row self feats coors edges m hh i HJ); [|  | exact Hj].
  - f_equal.
    set (J := Fwd.j_size self feats coors (Some m)) in *.
    rewrite (tab_ext J _ (fun _ => (- flt_max)%R)).
    + rewrite tab_const. apply softmax_flush_const. exact Hj.
    + intros j' Hj'.
      rewrite (sim_invalid self feats coors edges m hh i j') by (left; exact Hi).
      rewrite max_neg_value_Fin. reflexivity.
  - intros j' _ E. rewrite pair_mask_neighbor, Hi in E. discriminate.
Qed.

(** C5, amended. With the special values of float32: when the unmasked
    logits of the row of node [i] and head [hh] are finite, every pair
    of the row with an invalid end point has its logit forced to
    [-finfo.max]; every attention weight of the row is a finite number
    between 0 and 1, not NaN; a pair with an invalid end point has the
    attention weight exactly 0 as soon as one logit of the row lies more
    than 104 above [-finfo.max], where the exponential underflows; and
    in the row of an invalid node every attention weight is
    [1 / j_size], not 0. *)
Theorem attention_masked_float (self : EquivariantAttention fnum)
  (feats coors : list (list fnum)) (edges : option (list (list (list fnum))))
  (m : list bool) (hh i : nat) :
  (INR (Fwd.j_size self feats coors (Some m)) <= flt_max)%R ->
  (forall j, (j < Fwd.j_size self feats coors (Some m))%nat ->
     Fwd.pair_mask self coors (Some m) i j = Some true ->
     exists s, Fwd.sim_raw self feats coors edges (Some m) hh i j = Fin s) ->
  (forall j, (j < Fwd.j_size self feats coors (Some m))%nat ->
     invalid_pair self coors m i j ->
     Fwd.sim self feats coors edges (Some m) hh i j = max_neg_value) /\
  (forall j, (j < Fwd.j_size self feats coors (Some m))%nat ->
     exists w, Fwd.attn self feats coors edges (Some m) hh i j = Fin w /\
               (0 <= w <= 1)%R) /\
  (forall j j0 s,
     (j < Fwd.j_size self feats coors (Some m))%nat ->
     (j0 < Fwd.j_size self feats coors (Some m))%nat ->
     invalid_pair self coors m i j ->
     Fwd.sim self feats coors edges (Some m) hh i j0 = Fin s ->
     (- flt_max - exp_underflow < s)%R ->
     Fwd.attn self feats coors edges (Some m) hh i j = zero) /\
  (nth i m false = false ->
   forall j, (j < Fwd.j_size self feats coors (Some m))%nat ->
     Fwd.attn self feats coors edges (Some m) hh i j =
     Fin (1 / INR (Fwd.j_size self feats coors (Some m)))).
Proof.
  intros HJ Hfin. split; [|split; [|split]].
  - intros j _ Hinv. apply sim_invalid. exact Hinv.
  - intros j Hj. apply attn_finite; assumption.
  - intros j j0 s Hj Hj0 Hinv Es Hs.
    apply (attn_underflow self feats coors edges m hh i HJ Hfin j j0 s); assumption.
  - intros Hi j Hj. apply attn_invalid_row_float; assumption.
Qed.

Section FloatInstances.
Local Open Scope R_scope.

Lemma j_size_float2 (b : R) (mask : option (list bool)) :
  Fwd.j_size (float_block (block_bias b)) (float_rows feats2) (float_rows coors2) mask = 2%nat.
Proof. reflexivity. Qed.

Lemma two_le_flt_max : INR 2 <= flt_max.
Proof. pose proof flt_max_large. simpl. lra. Qed.

Lemma raw_finite_float2 (b : R) (j : nat) :
  - flt_max <= b <= flt_max ->
  Fwd.pair_mask (float_block (block_bias b)) (float_rows coors2) (Some [true; false]) 0 j
    = Some true ->
  exists s, Fwd.sim_raw (float_block (block_bias b)) (float_rows feats2) (float_rows coors2)
              None (Some [true; false]) 0 0 j = Fin s.
Proof.
  intros Hb E. destruct j as [|[|j]].
  - exists b. apply sim_raw_block_bias, Hb.
  - discriminate E.
  - unfold Fwd.pair_mask in E. simpl in E. destruct j; discriminate E.
Qed.

Lemma sim_float2 (b : R) :
  - flt_max <= b <= flt_max ->
  Fwd.sim (float_block (block_bias b)) (float_rows feats2) (float_rows coors2)
    None (Some [true; false]) 0 0 0 = Fin b.
Proof. intros Hb. unfold Fwd.sim. simpl. apply sim_raw_block_bias, Hb. Qed.

(** The attention weights of the two nodes of [coors2], the second one
    masked out, as floats: the valid node gives the weight 0 to the
    invalid one, the invalid node gives 1/2 to both. *)
Example float_attention_block0 :
  Fwd.attn (float_block (block0 0 false)) (float_rows feats2) (float_rows coors2)
    None (Some [true; false]) 0 0 1 = Fin 0 /\
  Fwd.attn (float_block (block0 0 false)) (float_rows feats2) (float_rows coors2)
    None (Some [true; false]) 0 1 0 = Fin (1 / 2) /\
  Fwd.attn (float_block (block0 0 false)) (float_rows feats2) (float_rows coors2)
    None (Some [true; false]) 0 1 1 = Fin (1 / 2).
Proof.
  assert (H0 : - flt_max <= 0 <= flt_max) by (pose proof flt_max_large; lra).
  change (block0 0 false) with (block_bias 0).
  split; [|split].
  - apply (attn_underflow (float_block (block_bias 0)) (float_rows feats2) (float_rows coors2)
             None [true; false] 0 0 two_le_flt_max
             (fun j _ => raw_finite_float2 0 j H0) 1 0 0).
    + rewrite j_size_float2. lia.
    + rewrite j_size_float2. lia.
    + right. reflexivity.
    + apply sim_float2, H0.
    + unfold exp_underflow. pose proof flt_max_large. lra.
  - rewrite attn_invalid_row_float; [|exact two_le_flt_max | reflexivity
                                     | rewrite j_size_float2; lia].
    rewrite j_size_float2. simpl. f_equal.
  - rewrite attn_invalid_row_float; [|exact two_le_flt_max | reflexivity
                                     | rewrite j_size_float2; lia].
    rewrite j_size_float2. simpl. f_equal.
Qed.

End FloatInstances.

Section FloatCounterexamples.
Local Open Scope R_scope.

(** The counterexample of C5 with float32's special values: the
    attention weights of the invalid node are 1/2, not 0. *)
Lemma masked_attention_not_zero_float :
  ~ masked_attention_is_zero (float_block (block0 0 false)) (float_rows feats2)
      (float_rows coors2) None [true; false].
Proof.
  intros Hc. specialize (Hc 0%nat 1%nat 0%nat).
  destruct float_attention_block0 as (_ & E & _). rewrite E in Hc.
  assert (E0 : Fin (1 / 2) = Fin 0).
  { apply Hc; [unfold Fwd.h; simpl; lia | unfold Fwd.n; simpl; lia
               | change (0 < 2)%nat; lia | left; reflexivity]. }
  injection E0 as E0. lra.
Qed.

(** The bound on the logit is needed: with the bias [-finfo.max] on the
    attention logit, the only unmasked logit of the valid node equals
    the fill value, and the invalid neighbour has the weight 1/2. *)
Example low_logit_attention :
  nth 0 [true; false] false = true /\
  invalid_pair (float_block (block_bias (- flt_max))) (float_rows coors2) [true; false] 0 1 /\
  Fwd.attn (float_block (block_bias (- flt_max))) (float_rows feats2) (float_rows coors2)
    None (Some [true; false]) 0 0 1 = Fin (1 / 2).
Proof.
  assert (Hb : - flt_max <= - flt_max <= flt_max) by (pose proof flt_max_large; lra).
  split; [reflexivity|]. split; [right; reflexivity|].
  rewrite (attn_row (float_block (block_bias (- flt_max))) (float_rows feats2)
             (float_rows coors2) None [true; false] 0 0 two_le_flt_max
             (fun j _ => raw_finite_float2 (- flt_max) j Hb) 1);
    [|rewrite j_size_float2; lia].
  rewrite j_size_float2. unfold tab. cbn [seq map].
  rewrite (sim_float2 (- flt_max) Hb).
  change (Fwd.sim (float_block (block_bias (- flt_max))) (float_rows feats2)
            (float_rows coors2) None (Some [true; false]) 0 0 1)
    with (@max_neg_value fnum _).
  rewrite max_neg_value_Fin. cbn [to_R].
  change [- flt_max; - flt_max] with (repeat (- flt_max) 2).
  rewrite (softmax_flush_const (- flt_max) 2 1) by lia. simpl. f_equal.
Qed.

(** The finiteness of the unmasked logits is needed: a NaN among the
    features of a valid node reaches every attention weight of the
    node, the weight of its invalid neighbour included. *)
Example nan_input_attention :
  Fwd.attn (float_block (block0 0 false)) [[NaN]; [Fin 0]] (float_rows coors2)
    None (Some [true; false]) 0 0 1 = NaN.
Proof.
  unfold Fwd.attn.
  change (Fwd.j_size (float_block (block0 0 false)) [[NaN]; [Fin 0]] (float_rows coors2)
            (Some [true; false])) with 2%nat.
  unfold tab. cbn [seq map].
  replace (Fwd.sim (float_block (block0 0 false)) [[NaN]; [Fin 0]] (float_rows coors2)
             None (Some [true; false]) 0 0 0) with NaN by (cbv; reflexivity).
  change (Fwd.sim (float_block (block0 0 false)) [[NaN]; [Fin 0]] (float_rows coors2)
            None (Some [true; false]) 0 0 1)
    with (@max_neg_value fnum _).
  rewrite max_neg_value_Fin. reflexivity.
Qed.

End FloatCounterexamples.

Lemma attention_masked_float_witness :
  (forall j, (j < Fwd.j_size (float_block (block0 0 false)) (float_rows feats2)
                    (float_rows coors2) (Some [true; false]))%nat ->
     invalid_pair (float_block (block0 0 false)) (float_rows coors2) [true; false] 0 j ->
     Fwd.sim (float_block (block0 0 false)) (float_rows feats2) (float_rows coors2) None
       (Some [true; false]) 0 0 j = max_neg_value) /\
  (forall j, (j < Fwd.j_size (float_block (block0 0 false)) (float_rows feats2)
                    (float_rows coors2) (Some [true; false]))%nat ->
     exists w, Fwd.attn (float_block (block0 0 false)) (float_rows feats2) (float_rows coors2)
                 None (Some [true; false]) 0 0 j = Fin w /\ (0 <= w <= 1)%R) /\
  (forall j j0 s,
     (j < Fwd.j_size (float_block (block0 0 false)) (float_rows feats2)
            (float_rows coors2) (Some [true; false]))%nat ->
     (j0 < Fwd.j_size (float_block (block0 0 false)) (float_rows feats2)
             (float_rows coors2) (Some [true; false]))%nat ->
     invalid_pair (float_block (block0 0 false)) (float_rows coors2) [true; false] 0 j ->
     Fwd.sim (float_block (block0 0 false)) (float_rows feats2) (float_rows coors2) None
       (Some [true; false]) 0 0 j0 = Fin s ->
     (- flt_max - exp_underflow < s)%R ->
     Fwd.attn (float_block (block0 0 false)) (float_rows feats2) (float_rows coors2) None
       (Some [true; false]) 0 0 j = zero) /\
  (nth 0 [true; false] false = false ->
   forall j, (j < Fwd.j_size (float_block (block0 0 false)) (float_rows feats2)
                    (float_rows coors2) (Some [true; false]))%nat ->
     Fwd.attn (float_block (block0 0 false)) (float_rows feats2) (float_rows coors2) None
       (Some [true; false]) 0 0 j =
     Fin (1 / INR (Fwd.j_size (float_block (block0 0 false)) (float_rows feats2)
                     (float_rows coors2) (Some [true; false])))).
Proof.
  apply (attention_masked_float (float_block (block0 0 false)) (float_rows feats2)
           (float_rows coors2) None [true; false] 0 0).
  - exact two_le_flt_max.
  - intros j _. apply (raw_finite_float2 0 j).
    unfold flt_max. lra.
Defined.

(** * Further properties of the block *)

Section EncodingShape.
Context {T : Type} `{Scalar T}.

Lemma length_fourier_encode_dist (x : T) (F : nat) :
  length (fourier_encode_dist x F) = (2 * F + 1)%nat.
Proof.
  unfold fourier_encode_dist. rewrite !length_app, !length_map, length_tab. simpl. lia.
Qed.

Lemma last_fourier_encode_dist (x : T) (F : nat) :
  last (fourier_encode_dist x F) zero = x.
Proof. unfold fourier_encode_dist. apply last_last. Qed.

End EncodingShape.

(** X1. The encoded distance of every pair has [2 * fourier_features + 1]
    entries, the input width [pos_dim] of [to_pos_emb], also for
    [fourier_features = 0], and its last entry is the distance itself. *)
Theorem rel_dist_enc_shape {T : Type} `{Scalar T}
  (self : EquivariantAttention T) (coors : list (list T)) (i j : nat) :
  length (Fwd.rel_dist_enc self coors i j) = (2 * fourier_features self + 1)%nat /\
  last (Fwd.rel_dist_enc self coors i j) zero = Fwd.rel_dist coors i j.
Proof.
  unfold Fwd.rel_dist_enc.
  destruct (Nat.ltb_spec 0 (fourier_features self)) as [Hf | Hf].
  - split; [apply length_fourier_encode_dist | apply last_fourier_encode_dist].
  - replace (fourier_features self) with 0%nat by lia. split; reflexivity.
Qed.

Section AttentionRows.
Local Open Scope R_scope.

Lemma ssum_map_div (e : list R) (s : R) : ssum (map (fun a => sdiv a s) e) = ssum e / s.
Proof.
  induction e as [|a e IH]; unfold ssum in *; simpl; rsimpl; [lra|].
  rewrite IH. lra.
Qed.

Lemma ssum_exp_pos (l : list R) (m : R) :
  l <> [] -> 0 < ssum (map (fun x => exp (x - m)) l).
Proof.
  destruct l as [|a l]; [congruence|]. intros _.
  assert (Hnn : Forall (fun x => 0 <= x) (map (fun x => exp (x - m)) l)).
  { apply Forall_forall. intros x Hx. apply in_map_iff in Hx.
    destruct Hx as [y [<- _]]. apply Rlt_le, exp_pos. }
  pose proof (ssum_nonneg _ Hnn) as Hs. pose proof (exp_pos (a - m)) as Ha.
  unfold ssum in *. simpl. rsimpl. lra.
Qed.

Lemma ssum_softmax (l : list R) : l <> [] -> ssum (softmax l) = 1.
Proof.
  intros Hl. unfold softmax. rewrite ssum_map_div.
  pose proof (ssum_exp_pos l (row_max l) Hl) as Hs.
  change (fun x => sexp (ssub x (row_max l))) with (fun x => exp (x - row_max l)).
  field. lra.
Qed.

Lemma softmax_pos (l : list R) (j : nat) :
  (j < length l)%nat -> 0 < nth j (softmax l) 0.
Proof.
  intros Hj. rewrite softmax_nth by exact Hj.
  apply Rdiv_lt_0_compat; [apply exp_pos|].
  apply ssum_exp_pos. destruct l; [simpl in Hj; lia | congruence].
Qed.

Lemma tab_nth_self {A} (l : list A) (d : A) : tab (length l) (fun j => nth j l d) = l.
Proof. rewrite (tab_nth_map (fun x => x) l d). apply map_id. Qed.

Lemma length_softmax (l : list R) : length (softmax l) = length l.
Proof. unfold softmax. rewrite !length_map. reflexivity. Qed.

End AttentionRows.

(** X2. For every head and node, with or without mask, in dense and in
    sparse mode, the attention weights over a non-empty neighbourhood
    lie between 0 and 1 and sum to 1. *)
Theorem attn_rows_sum_to_one (self : EquivariantAttention R)
  (feats coors : list (list R)) (edges : option (list (list (list R))))
  (mask : option (list bool)) (hh i : nat) :
  (0 < Fwd.j_size self feats coors mask)%nat ->
  ssum (tab (Fwd.j_size self feats coors mask)
          (Fwd.attn self feats coors edges mask hh i)) = 1%R /\
  (forall j, (j < Fwd.j_size self feats coors mask)%nat ->
     (0 <= Fwd.attn self feats coors edges mask hh i j <= 1)%R).
Proof.
  intros HJ. unfold Fwd.attn.
  set (J := Fwd.j_size self feats coors mask) in *.
  set (row := tab J (Fwd.sim self feats coors edges mask hh i)).
  assert (Hlen : length row = J) by apply length_tab.
  assert (Hne : row <> []).
  { intros E. rewrite E in Hlen. simpl in Hlen. lia. }
  assert (Hsum : ssum (softmax row) = 1%R) by (apply ssum_softmax, Hne).
  split.
  - rewrite <- Hlen at 1. rewrite <- (length_softmax row).
    rewrite tab_nth_self. exact Hsum.
  - intros j Hj.
    assert (Hnn : Forall (fun x => (0 <= x)%R) (softmax row)).
    { apply Forall_forall. intros x Hx.
      destruct (In_nth _ _ 0%R Hx) as [j' [Hj' <-]].
      rewrite length_softmax in Hj'. apply Rlt_le, softmax_pos, Hj'. }
    split.
    + apply Rlt_le, softmax_pos. lia.
    + rewrite <- Hsum. apply ssum_ge_nth; [exact Hnn|].
      rewrite length_softmax. lia.
Qed.

Section ForwardResult.
Context {T : Type} `{Scalar T}.

(** What [forward_one] returns when [topk] does not fail. *)
Lemma forward_one_ok (self : EquivariantAttention T) feats coors edges mask y :
  Fwd.forward_one self feats coors edges mask = Ok y ->
  y = (tab (Fwd.n feats) (Fwd.out self feats coors edges mask),
       tab (Fwd.n feats) (Fwd.coors_out self feats coors edges mask)).
Proof.
  unfold Fwd.forward_one. destruct (_ && _); [discriminate|].
  intros E. injection E as <-. reflexivity.
Qed.

Lemma forward_one_cases (self : EquivariantAttention T) feats coors edges mask :
  ((0 < num_nearest_neighbors self)%nat /\
   (length coors < num_nearest_neighbors self)%nat /\
   Fwd.forward_one self feats coors edges mask =
   Raise (RuntimeError "selected index k out of range")) \/
  ((num_nearest_neighbors self = 0%nat \/ (num_nearest_neighbors self <= length coors)%nat) /\
   exists y, Fwd.forward_one self feats coors edges mask = Ok y).
Proof.
  unfold Fwd.forward_one, Fwd.n_coors.
  destruct (Nat.ltb_spec 0 (num_nearest_neighbors self)) as [H0 | H0];
    destruct (Nat.ltb_spec (length coors) (num_nearest_neighbors self)) as [H1 | H1];
    simpl.
  - left. auto.
  - right. split; [right; exact H1 | eexists; reflexivity].
  - right. split; [left; lia | eexists; reflexivity].
  - right. split; [left; lia | eexists; reflexivity].
Qed.

Lemma mapM_ok {A B} (f : A -> result B) (l : list A) (ys : list B) :
  mapM f l = Ok ys -> Forall2 (fun a y => f a = Ok y) l ys.
Proof.
  revert ys. induction l as [|a l IH]; intros ys; simpl.
  - intros E. injection E as <-. constructor.
  - destruct (f a) as [y|e] eqn:Ha; simpl; [|discriminate].
    destruct (mapM f l) as [ys'|e] eqn:Hl; simpl; [|discriminate].
    intros E. injection E as <-. constructor; [exact Ha | apply IH; reflexivity].
Qed.

Lemma mapM_all_ok {A B} (f : A -> result B) (l : list A) :
  (forall a, In a l -> exists y, f a = Ok y) -> exists ys, mapM f l = Ok ys.
Proof.
  induction l as [|a l IH]; intros Hf; simpl; [eexists; reflexivity|].
  destruct (Hf a (or_introl eq_refl)) as [y ->].
  destruct (IH (fun a' Ha' => Hf a' (or_intror Ha'))) as [ys ->].
  simpl. eexists. reflexivity.
Qed.

Lemma mapM_first_raise {A B} (f : A -> result B) (l : list A) (e : exception) :
  (forall a, In a l -> f a = Raise e \/ exists y, f a = Ok y) ->
  (exists a, In a l /\ f a = Raise e) ->
  mapM f l = Raise e.
Proof.
  induction l as [|a l IH]; intros Hf [a' [Hin Ha']]; [destruct Hin|].
  simpl. destruct (Hf a (or_introl eq_refl)) as [-> | [y Hy]]; [reflexivity|].
  rewrite Hy. simpl.
  rewrite IH; [reflexivity | intros; apply Hf; right; assumption |].
  destruct Hin as [-> | Hin]; [congruence|]. exists a'. split; assumption.
Qed.

Lemma Forall2_seq_nth {B} (P : nat -> B -> Prop) (s n : nat) (ys : list B) (d : B) :
  Forall2 P (seq s n) ys ->
  length ys = n /\ forall b, (b < n)%nat -> P (s + b)%nat (nth b ys d).
Proof.
  revert s ys. induction n as [|n IH]; intros s ys Hf; simpl in Hf;
    inversion Hf as [|x y l l' Hx Hrest]; subst.
  - split; [reflexivity | intros; lia].
  - apply IH in Hrest. destruct Hrest as [Hl Hr].
    split; [simpl; lia|].
    intros b Hb. destruct b as [|b]; simpl.
    + rewrite Nat.add_0_r. assumption.
    + replace (s + S b)%nat with (S s + b)%nat by lia. apply Hr. lia.
Qed.

Lemma nth_map_fst {A B} (l : list (A * B)) (b : nat) (da : A) (db : B) :
  nth b (map fst l) da = fst (nth b l (da, db)).
Proof. apply (map_nth fst l (da, db)). Qed.

Lemma nth_map_snd {A B} (l : list (A * B)) (b : nat) (da : A) (db : B) :
  nth b (map snd l) db = snd (nth b l (da, db)).
Proof. apply (map_nth snd l (da, db)). Qed.

(** The result of [forward], batch element by batch element. *)
Lemma forward_ok (self : EquivariantAttention T) feats coors edges mask adj_mat o c :
  forward self feats coors edges mask adj_mat = Ok (o, c) ->
  length o = length feats /\ length c = length feats /\
  forall b, (b < length feats)%nat ->
    nth b o [] =
      tab (length (nth b feats []))
        (Fwd.out self (nth b feats []) (nth b coors [])
           (option_map (fun e => nth b e []) edges)
           (option_map (fun m => nth b m []) mask)) /\
    nth b c [] =
      tab (length (nth b feats []))
        (Fwd.coors_out self (nth b feats []) (nth b coors [])
           (option_map (fun e => nth b e []) edges)
           (option_map (fun m => nth b m []) mask)).
Proof.
  unfold forward. destruct (_ && _); [discriminate|].
  destruct (mapM _ _) as [outs|e] eqn:E; simpl; [|discriminate].
  intros Eo. injection Eo as <- <-.
  apply mapM_ok in E. apply (Forall2_seq_nth _ 0 _ _ ([], [])) in E.
  destruct E as [Hl Hb]. rewrite !length_map.
  split; [exact Hl|]. split; [exact Hl|].
  intros b Hlt. specialize (Hb b Hlt). simpl in Hb.
  apply forward_one_ok in Hb.
  rewrite (nth_map_fst outs b [] []), (nth_map_snd outs b [] []), Hb.
  split; reflexivity.
Qed.

End ForwardResult.

(** X3. When [forward] returns, [feature_delta] and [coordinate_delta] have
    one element per element of the batch and one row per node of the
    features, and every row of [coordinate_delta] has the width of the
    coordinates. *)
Theorem forward_output_shape {T : Type} `{Scalar T}
  (self : EquivariantAttention T) feats coors edges mask adj_mat o c :
  forward self feats coors edges mask adj_mat = Ok (o, c) ->
  length o = length feats /\ length c = length feats /\
  forall b, (b < length feats)%nat ->
    length (nth b o []) = length (nth b feats []) /\
    length (nth b c []) = length (nth b feats []) /\
    Forall (fun r => length r = length (hd [] (nth b coors []))) (nth b c []).
Proof.
  intros Hf. apply forward_ok in Hf. destruct Hf as (Ho & Hc & Hb).
  split; [exact Ho|]. split; [exact Hc|].
  intros b Hlt. destruct (Hb b Hlt) as [-> ->]. rewrite !length_tab.
  split; [reflexivity|]. split; [reflexivity|].
  apply Forall_forall. intros r Hr. unfold tab in Hr. apply in_map_iff in Hr.
  destruct Hr as [i [<- _]]. unfold Fwd.coors_out. apply length_tab.
Qed.

(** X4. The neighbour count cannot exceed the number of nodes: past the
    adjacency assertion, on a batch that is not empty, of [N] nodes per
    element, with a mask, when one is given, of the same shape,
    [forward] raises the [RuntimeError] of [topk] when [N] is below the
    neighbour count. *)
Theorem forward_topk_range {T : Type} `{Scalar T}
  (self : EquivariantAttention T) feats coors edges mask adj_mat (N : nat) :
  only_sparse_neighbors self && negb (exists_ adj_mat) = false ->
  (0 < length feats)%nat ->
  length coors = length feats ->
  (forall b, (b < length coors)%nat -> length (nth b coors []) = N) ->
  (forall m, mask = Some m ->
     length m = length coors /\
     forall b, (b < length m)%nat -> length (nth b m []) = N) ->
  (N < num_nearest_neighbors self)%nat ->
  forward self feats coors edges mask adj_mat =
  Raise (RuntimeError "selected index k out of range").
Proof.
  intros Ha Hb Hlen HN _ Hk. unfold forward. rewrite Ha.
  rewrite (mapM_first_raise _ _ (RuntimeError "selected index k out of range"));
    [reflexivity | |].
  - intros b' _.
    destruct (forward_one_cases self (nth b' feats []) (nth b' coors [])
                (option_map (fun e => nth b' e []) edges)
                (option_map (fun m => nth b' m []) mask))
      as [(_ & _ & E) | [_ E]]; [left | right]; exact E.
  - exists 0%nat. split; [apply in_seq; lia|].
    destruct (forward_one_cases self (nth 0 feats []) (nth 0 coors [])
                (option_map (fun e => nth 0 e []) edges)
                (option_map (fun m => nth 0 m []) mask))
      as [(_ & _ & E) | [[Hz | Hle] _]]; [exact E | lia |].
    rewrite (HN 0%nat) in Hle by lia. lia.
Qed.

Section Geometry.
Local Open Scope R_scope.

Lemma sq_vsub_sym (a b : list R) :
  map (fun x => smul x x) (vsub a b) = map (fun x => smul x x) (vsub b a).
Proof.
  unfold vsub. revert b. induction a as [|x a IH]; intros [|y b]; simpl; try reflexivity.
  rewrite IH. f_equal. rsimpl. ring.
Qed.

Lemma ssum_sq_nonneg (v : list R) : 0 <= ssum (map (fun x => smul x x) v).
Proof.
  apply ssum_nonneg. apply Forall_forall. intros y Hy. apply in_map_iff in Hy.
  destruct Hy as [x [<- _]]. rsimpl. nra.
Qed.

Lemma vsub_diag_nth (a : list R) (c : nat) : nth c (vsub a a) 0 = 0.
Proof.
  unfold vsub. revert c. induction a as [|x a IH]; intros [|c]; simpl; try reflexivity.
  - rsimpl. lra.
  - apply IH.
Qed.

Lemma ssum_sq_vsub_diag (a : list R) : ssum (map (fun x => smul x x) (vsub a a)) = 0.
Proof.
  unfold vsub, ssum. induction a as [|x a IH]; simpl; [reflexivity|].
  rsimpl. simpl in IH. rewrite IH. ring.
Qed.

End Geometry.

(** X5. The pairwise distance is symmetric, non-negative, and 0 between a
    node and itself. *)
Theorem rel_dist_metric (coors : list (list R)) (i j : nat) :
  Fwd.rel_dist coors i j = Fwd.rel_dist coors j i /\
  (0 <= Fwd.rel_dist coors i j)%R /\
  Fwd.rel_dist coors i i = 0%R.
Proof.
  unfold Fwd.rel_dist, Fwd.rel_coors, vnorm. split; [|split].
  - rewrite sq_vsub_sym. reflexivity.
  - apply sqrt_pos.
  - rewrite ssum_sq_vsub_diag. apply sqrt_0.
Qed.

Section Coincident.
Local Open Scope R_scope.

Lemma rel_coors_nb_neighbor (self : EquivariantAttention R) coors mask i j :
  Fwd.rel_coors_nb self coors mask i j =
  Fwd.rel_coors coors i (neighbor self coors mask i j).
Proof.
  unfold Fwd.rel_coors_nb, neighbor, batched_index_select.
  destruct (Fwd.nbhd_indices self coors mask); reflexivity.
Qed.

Lemma nth_rel_coors_norm_fn_zero (m : option (CoorsNorm R)) (u : list R) (c : nat) :
  (forall c', nth c' u 0 = 0) -> nth c (rel_coors_norm_fn m u) 0 = 0.
Proof.
  intros Hu. destruct m as [cn|]; simpl; [|apply Hu].
  unfold CoorsNorm_forward.
  destruct (Nat.lt_ge_cases c (length u)) as [Hc | Hc].
  - rewrite (nth_map_lt _ _ 0) by (rewrite length_map; exact Hc).
    rewrite (nth_map_lt _ _ 0) by exact Hc.
    rewrite Hu. rsimpl. unfold Rdiv. ring.
  - apply nth_overflow. rewrite !length_map. exact Hc.
Qed.

End Coincident.

(** X6. A neighbour at the place of the node (the node itself in dense
    mode, or a coincident node) adds nothing to [coordinate_delta]: its
    term in every component is 0, with or without [norm_rel_coors]. *)
Theorem coincident_neighbor_no_update (self : EquivariantAttention R)
  (feats coors : list (list R)) (edges : option (list (list (list R))))
  (mask : option (list bool)) (i j c : nat) :
  nth (neighbor self coors mask i j) coors [] = nth i coors [] ->
  Fwd.coors_term self feats coors edges mask i c j = 0%R.
Proof.
  intros Hsame. unfold Fwd.coors_term, Fwd.rel_coors_normed.
  rewrite nth_rel_coors_norm_fn_zero; [rsimpl; apply Rmult_0_r|].
  intros c'. rewrite rel_coors_nb_neighbor. unfold Fwd.rel_coors.
  rewrite Hsame. apply vsub_diag_nth.
Qed.


Section CoorsNormR.
Local Open Scope R_scope.

(** Layer normalization over an axis of size one returns the bias. *)
Lemma layer_norm_single (ln : LayerNorm R) (w b x : R) :
  ln_weight ln = [w] -> ln_bias ln = [b] -> layer_norm ln [x] = [b].
Proof.
  intros Hw Hb. unfold layer_norm, mean, ssum, of_nat, vadd. rewrite Hw, Hb.
  simpl. rsimpl. f_equal. unfold Rdiv. rewrite Rinv_1. ring.
Qed.

Lemma vnorm_scale (s : R) (v : list R) :
  vnorm (map (fun x => s * x) v) = Rabs s * vnorm v.
Proof.
  unfold vnorm.
  assert (E : ssum (map (fun x => smul x x) (map (fun x => s * x) v)) =
              s * s * ssum (map (fun x => smul x x) v)).
  { unfold ssum. induction v as [|x v IH]; simpl; rsimpl; [ring|].
    simpl in IH. rsimpl. rewrite IH. ring. }
  rewrite E. rsimpl. rewrite sqrt_mult by (try apply ssum_sq_nonneg; nra).
  f_equal. rewrite <- sqrt_Rsqr_abs. reflexivity.
Qed.

Lemma clamp_min_ge (lo x : R) : lo <= clamp_min lo x /\ x <= clamp_min lo x.
Proof.
  unfold clamp_min. rsimpl. unfold Rltb. destruct (Rlt_dec x lo); lra.
Qed.

Lemma clamp_min_id (lo x : R) : lo <= x -> clamp_min lo x = x.
Proof.
  intros Hx. unfold clamp_min. rsimpl. rewrite Rltb_false by exact Hx. reflexivity.
Qed.

Lemma CoorsNorm_forward_scale (cn : CoorsNorm R) (w b : R) (v : list R) :
  ln_weight (fn_norm cn) = [w] -> ln_bias (fn_norm cn) = [b] ->
  CoorsNorm_forward cn v =
  map (fun x => (gelu b / clamp_min (eps cn) (vnorm v)) * x) v.
Proof.
  intros Hw Hb. unfold CoorsNorm_forward.
  rewrite (layer_norm_single _ w b) by assumption. cbn [map hd].
  generalize (gelu b) as g. intros g.
  rewrite map_map. apply map_ext. intros x. rsimpl. unfold Rdiv. ring.
Qed.

Lemma gelu_0 : gelu 0 = 0.
Proof. unfold gelu. rsimpl. ring. Qed.

End CoorsNormR.

(** X8. [CoorsNorm] with its [LayerNorm(1)]: the layer norm of the single
    norm entry is the bias [b], so the phase is [gelu b] whatever the
    vector, and the output is the vector scaled by
    [gelu b / max(norm, eps)]; with the bias 0 the output is 0 in every
    component. *)
Theorem CoorsNorm_phase_constant (cn : CoorsNorm R) (w b : R) (v : list R) :
  ln_weight (fn_norm cn) = [w] -> ln_bias (fn_norm cn) = [b] ->
  CoorsNorm_forward cn v =
    map (fun x => (gelu b / clamp_min (eps cn) (vnorm v)) * x)%R v /\
  (b = 0%R -> CoorsNorm_forward cn v = repeat 0%R (length v)).
Proof.
  intros Hw Hb. pose proof (CoorsNorm_forward_scale cn w b v Hw Hb) as E.
  split; [exact E|].
  intros ->. rewrite E, gelu_0.
  generalize (clamp_min (eps cn) (vnorm v)) as cl. intros cl. clear.
  induction v as [|x v IH]; simpl; [reflexivity|].
  f_equal; [unfold Rdiv; ring | exact IH].
Qed.

(** X9. The output of [CoorsNorm] has the norm [|gelu b|] for every
    vector of norm at least [eps], and a smaller or equal norm below. *)
Theorem CoorsNorm_output_norm (cn : CoorsNorm R) (w b : R) (v : list R) :
  ln_weight (fn_norm cn) = [w] -> ln_bias (fn_norm cn) = [b] ->
  (0 < eps cn)%R ->
  (vnorm (CoorsNorm_forward cn v) <= Rabs (gelu b))%R /\
  ((eps cn <= vnorm v)%R -> vnorm (CoorsNorm_forward cn v) = Rabs (gelu b)).
Proof.
  intros Hw Hb Heps.
  rewrite (CoorsNorm_forward_scale cn w b v Hw Hb), vnorm_scale.
  destruct (clamp_min_ge (eps cn) (vnorm v)) as [Hlo Hx].
  set (cl := clamp_min (eps cn) (vnorm v)) in *.
  assert (Hn : (0 <= vnorm v)%R) by (unfold vnorm; apply sqrt_pos).
  assert (Hcl : (0 < cl)%R) by lra.
  unfold Rdiv. rewrite Rabs_mult, (Rabs_pos_eq (/ cl))
    by (apply Rlt_le, Rinv_0_lt_compat; exact Hcl).
  pose proof (Rabs_pos (gelu b)) as Hg.
  split.
  - rewrite Rmult_assoc.
    rewrite <- (Rmult_1_r (Rabs (gelu b))) at 2.
    apply Rmult_le_compat_l; [exact Hg|].
    apply Rmult_le_reg_l with cl; [exact Hcl|].
    rewrite <- Rmult_assoc, Rinv_r by lra. lra.
  - intros Hge. unfold cl. rewrite clamp_min_id by exact Hge.
    rewrite Rmult_assoc, Rinv_l by lra. ring.
Qed.

(** X10. In sparse mode every node gets [k] distinct neighbour indices
    within the nodes, and they are nearest in the ranking: no node left
    out ranks strictly before a selected one. *)
Theorem nbhd_indices_nearest (self : EquivariantAttention R)
  (coors : list (list R)) (mask : option (list bool))
  (ix : list (list nat)) (i : nat) :
  Fwd.nbhd_indices self coors mask = Some ix ->
  (i < Fwd.n_coors coors)%nat ->
  (num_nearest_neighbors self <= Fwd.n_coors coors)%nat ->
  length ix = Fwd.n_coors coors /\
  length (nth i ix []) = num_nearest_neighbors self /\
  NoDup (nth i ix []) /\
  (forall j, In j (nth i ix []) -> (j < Fwd.n_coors coors)%nat) /\
  (forall j j', In j (nth i ix []) -> (j' < Fwd.n_coors coors)%nat ->
     ~ In j' (nth i ix []) ->
     (Fwd.nbhd_ranking coors mask i j <= Fwd.nbhd_ranking coors mask i j')%R).
Proof.
  intros Hix Hi Hk.
  destruct (nbhd_indices_some self coors mask ix Hix) as [_ Hsel].
  assert (Hlen : length ix = Fwd.n_coors coors).
  { unfold Fwd.nbhd_indices in Hix.
    destruct (0 <? num_nearest_neighbors self)%nat; [|discriminate].
    injection Hix as <-. apply length_tab. }
  split; [exact Hlen|]. rewrite (Hsel i Hi).
  set (nc := Fwd.n_coors coors) in *.
  set (row := tab nc (Fwd.nbhd_ranking coors mask i)).
  assert (Hrow : length row = nc) by apply length_tab.
  split; [apply length_topk; lia|].
  split; [apply topk_NoDup|].
  split.
  - intros j Hj. apply topk_lt in Hj. lia.
  - intros j j' Hj Hj' Hnj.
    assert (Hjn : (j < nc)%nat) by (apply topk_lt in Hj; lia).
    pose proof (topk_smallest _ row j j' Hj ltac:(lia) Hnj) as Hle.
    unfold row in Hle. rewrite !nth_tab in Hle by assumption. exact Hle.
Qed.

(** * The layer stack *)

Section StackLemmas.
Local Open Scope R_scope.

Lemma zip_with_map_l {A B} (f : A -> B -> A) (g : A -> A) (l : list A) (r : list B) :
  (forall x y, In x l -> In y r -> f (g x) y = g (f x y)) ->
  zip_with f (map g l) r = map g (zip_with f l r).
Proof.
  revert r. induction l as [|x l IH]; intros [|y r] Hf; simpl; try reflexivity.
  rewrite Hf by (left; reflexivity).
  rewrite IH by (intros; apply Hf; right; assumption). reflexivity.
Qed.

Lemma zip_with_map_both {A} (f : A -> A -> A) (g : A -> A) (l r : list A) :
  (forall x y, In x l -> In y r -> f (g x) (g y) = g (f x y)) ->
  zip_with f (map g l) (map g r) = map g (zip_with f l r).
Proof.
  revert r. induction l as [|x l IH]; intros [|y r] Hf; simpl; try reflexivity.
  rewrite Hf by (left; reflexivity).
  rewrite IH by (intros; apply Hf; right; assumption). reflexivity.
Qed.

Lemma Forall_zip_with {A B C} (f : A -> B -> C) (P : C -> Prop) (l : list A) (r : list B) :
  (forall x y, In x l -> In y r -> P (f x y)) -> Forall P (zip_with f l r).
Proof.
  revert r. induction l as [|x l IH]; intros [|y r] Hf; simpl; constructor.
  - apply Hf; left; reflexivity.
  - apply IH. intros; apply Hf; right; assumption.
Qed.

Lemma nth_zip_with {A B C} (f : A -> B -> C) (l : list A) (r : list B)
  (da : A) (db : B) (dc : C) (b : nat) :
  (b < length l)%nat -> (b < length r)%nat ->
  nth b (zip_with f l r) dc = f (nth b l da) (nth b r db).
Proof.
  revert r b. induction l as [|x l IH]; intros [|y r] b Hl Hr; simpl in *; try lia.
  destruct b as [|b]; [reflexivity | apply IH; lia].
Qed.

Lemma vadd_swap (x t d : list R) : vadd (vadd x t) d = vadd (vadd x d) t.
Proof.
  unfold vadd. revert t d. induction x as [|a x IH]; intros [|b t] [|c d]; simpl;
    try reflexivity.
  f_equal; [ring | apply IH].
Qed.

Lemma tensor_add_translate (t : list R) (coors c : list (list (list R))) :
  tensor_add (translate t coors) c = translate t (tensor_add coors c).
Proof.
  unfold tensor_add, translate. apply zip_with_map_l. intros x y _ _.
  apply zip_with_map_l. intros u d _ _. apply vadd_swap.
Qed.

(** Adding the integer 0 of the feed-forward block leaves a tensor. *)
Lemma add_delta_zero (coors : list (list (list R))) : add_delta coors (DeltaInt 0) = coors.
Proof.
  unfold add_delta.
  rewrite <- (map_id coors) at 2. apply map_ext. intros x.
  rewrite <- (map_id x) at 2. apply map_ext. intros u.
  rewrite <- (map_id u) at 2. apply map_ext. intros a. rsimpl. ring.
Qed.

Lemma ff_sublayer (norm : LayerNorm R) (ff : FeedForward R)
  (feats coors : list (list (list R))) :
  Residual_forward (PreNorm_forward norm (FeedForward_forward ff)) feats coors =
  Ok (tensor_add feats
        (map (map (fun x => FeedForward_net ff (layer_norm norm x))) feats),
      coors).
Proof.
  unfold Residual_forward, PreNorm_forward, FeedForward_forward. cbn [bind fst snd].
  rewrite add_delta_zero. f_equal. f_equal. f_equal.
  rewrite map_map. apply map_ext. intros x. apply map_map.
Qed.

(** The block on translated coordinates, as a step of the stack. *)
Lemma forward_translate (self : EquivariantAttention R)
  (feats coors : list (list (list R))) edges mask adj_mat (t : list R) :
  Forall (Forall (fun c => length c = length t)) coors ->
  forward self feats (translate t coors) edges mask adj_mat =
  forward self feats coors edges mask adj_mat.
Proof.
  intros Hshape. unfold forward.
  destruct (only_sparse_neighbors self && negb (exists_ adj_mat)); [reflexivity|].
  f_equal. apply mapM_ext. intros b _.
  unfold translate. rewrite (nth_map_nil (map (fun c => vadd c t))) by reflexivity.
  apply forward_one_translate.
  destruct (Nat.lt_ge_cases b (length coors)) as [Hb | Hb].
  - rewrite Forall_forall in Hshape. apply Hshape. apply nth_In. exact Hb.
  - rewrite nth_overflow by exact Hb. constructor.
Qed.

(** The rows of [coordinate_delta] are as wide as the coordinates. *)
Lemma forward_delta_rows (self : EquivariantAttention R)
  (feats coors : list (list (list R))) edges mask adj_mat o c (w : nat) :
  forward self feats coors edges mask adj_mat = Ok (o, c) ->
  Forall (Forall (fun u => length u = w)) coors ->
  (forall b, (b < length feats)%nat ->
     length (nth b feats []) = 0%nat \/ nth b coors [] <> []) ->
  Forall (Forall (fun d => length d = w)) c.
Proof.
  intros Hf Hw Hne. apply forward_ok in Hf. destruct Hf as (_ & Hc & Hb).
  apply Forall_forall. intros cb Hcb.
  destruct (In_nth _ _ [] Hcb) as [b [Hlt <-]]. rewrite Hc in Hlt.
  destruct (Hb b Hlt) as [_ ->].
  apply Forall_forall. intros d Hd. unfold tab in Hd. apply in_map_iff in Hd.
  destruct Hd as [i [<- Hi]]. apply in_seq in Hi.
  unfold Fwd.coors_out. rewrite length_tab. unfold Fwd.coor_dim.
  destruct (Hne b Hlt) as [H0 | Hn]; [lia|].
  destruct (nth b coors []) as [|u us] eqn:E; [congruence|]. simpl.
  assert (Hin : In (u :: us) coors).
  { rewrite <- E. apply nth_In.
    destruct (Nat.lt_ge_cases b (length coors)) as [Hl | Hl]; [exact Hl|].
    rewrite nth_overflow in E by exact Hl. discriminate. }
  rewrite Forall_forall in Hw. specialize (Hw _ Hin).
  inversion Hw; subst. reflexivity.
Qed.

End StackLemmas.

Section StackTranslation.
Local Open Scope R_scope.

Lemma Forall_zip_with_nth {A B C} (f : A -> B -> C) (P : C -> Prop)
  (l : list A) (r : list B) (da : A) (db : B) :
  (forall b, (b < length l)%nat -> (b < length r)%nat -> P (f (nth b l da) (nth b r db))) ->
  Forall P (zip_with f l r).
Proof.
  revert r. induction l as [|x l IH]; intros [|y r] Hf; simpl; constructor.
  - apply (Hf 0%nat); simpl; lia.
  - apply IH. intros b Hl Hr. apply (Hf (S b)); simpl; lia.
Qed.

(** The coordinates after the attention sublayer keep their width. *)
Lemma tensor_add_delta_rows (self : EquivariantAttention R)
  (feats coors : list (list (list R))) edges mask adj_mat o c (w : nat) :
  forward self feats coors edges mask adj_mat = Ok (o, c) ->
  rows_of_width w coors ->
  rows_of_width w (tensor_add coors c).
Proof.
  unfold rows_of_width.
  intros Hf Hw. apply forward_ok in Hf. destruct Hf as (_ & Hc & Hb).
  unfold tensor_add. apply (Forall_zip_with_nth _ _ _ _ [] []).
  intros b Hlc Hlt. rewrite Hc in Hlt. destruct (Hb b Hlt) as [_ ->].
  assert (Hx : Forall (fun u => length u = w) (nth b coors [])).
  { rewrite Forall_forall in Hw. apply Hw. apply nth_In. exact Hlc. }
  apply Forall_zip_with. intros u d Hu Hd.
  unfold tab in Hd. apply in_map_iff in Hd. destruct Hd as [i [<- _]].
  unfold vadd. rewrite length_zip_with. unfold Fwd.coors_out. rewrite length_tab.
  unfold Fwd.coor_dim.
  rewrite Forall_forall in Hx. rewrite (Hx u Hu).
  destruct (nth b coors []) as [|u0 us]; [destruct Hu|].
  simpl. rewrite (Hx u0 (or_introl eq_refl)). lia.
Qed.

Lemma attn_sublayer (norm : LayerNorm R) (a : EquivariantAttention R) edges mask adj_mat
  (feats coors : list (list (list R))) :
  Residual_forward (PreNorm_forward norm (attention_wrapped a edges mask adj_mat))
    feats coors =
  match forward a (map (map (layer_norm norm)) feats) coors edges mask adj_mat with
  | Ok (o, c) => Ok (tensor_add feats o, tensor_add coors c)
  | Raise e => Raise e
  end.
Proof.
  unfold Residual_forward, PreNorm_forward, attention_wrapped.
  destruct (forward a _ coors edges mask adj_mat) as [[o c]|e]; reflexivity.
Qed.

Variable t : list R.

Lemma Layer_forward_translate (l : Layer R) edges mask adj_mat
  (feats coors : list (list (list R))) :
  rows_of_width (length t) coors ->
  Layer_forward l edges mask adj_mat feats (translate t coors) =
    on_coordinate_delta (translate t) (Layer_forward l edges mask adj_mat feats coors) /\
  (forall f' c', Layer_forward l edges mask adj_mat feats coors = Ok (f', c') ->
     rows_of_width (length t) c').
Proof.
  intros Hs. unfold Layer_forward. rewrite !attn_sublayer.
  rewrite forward_translate by exact Hs.
  destruct (forward (attn_fn l) (map (map (layer_norm (attn_norm l))) feats) coors
              edges mask adj_mat) as [[o c]|e] eqn:Hf; cbn [bind fst snd].
  - rewrite !ff_sublayer. cbn [on_coordinate_delta].
    rewrite tensor_add_translate. split; [reflexivity|].
    intros f' c' E. injection E as _ <-.
    apply (tensor_add_delta_rows _ _ _ _ _ _ _ _ _ Hf Hs).
  - split; [reflexivity | discriminate].
Qed.

Lemma layers_forward_translate (ls : list (Layer R)) edges mask adj_mat
  (feats coors : list (list (list R))) :
  rows_of_width (length t) coors ->
  layers_forward ls edges mask adj_mat feats (translate t coors) =
  on_coordinate_delta (translate t) (layers_forward ls edges mask adj_mat feats coors).
Proof.
  revert feats coors. induction ls as [|l ls IH]; intros feats coors Hs; [reflexivity|].
  simpl layers_forward.
  destruct (Layer_forward_translate l edges mask adj_mat feats coors Hs) as [-> Hshape].
  destruct (Layer_forward l edges mask adj_mat feats coors) as [[f' c']|e];
    cbn [on_coordinate_delta bind fst snd]; [|reflexivity].
  apply IH. apply (Hshape f' c'). reflexivity.
Qed.

End StackTranslation.

(** X12. The whole stack is translation equivariant: adding a vector [t]
    to all input coordinates adds [t] to all output coordinates and
    leaves the output features, and the errors, as they are. *)
Theorem EnTransformer_translation_equivariance (self : EnTransformer R)
  (feats : feats_input (token_emb self)) (coors : list (list (list R)))
  edges mask adj_mat (t : list R) :
  rows_of_width (length t) coors ->
  EnTransformer_forward self feats (translate t coors) edges mask adj_mat =
  lookup_map (on_coordinate_delta (translate t))
    (EnTransformer_forward self feats coors edges mask adj_mat).
Proof.
  intros Hs. unfold EnTransformer_forward.
  destruct (embed (token_emb self) feats) as [f|msg]; [|reflexivity].
  cbn [lookup_map]. f_equal. apply layers_forward_translate. exact Hs.
Qed.

Section StackRotation.
Local Open Scope R_scope.

Variable M : list (list R).
Hypothesis HM : is_rotation M.

Lemma forward_rotate (self : EquivariantAttention R)
  (feats coors : list (list (list R))) edges mask adj_mat :
  coors_shape 3 feats coors ->
  forward self feats (rotate M coors) edges mask adj_mat =
  on_coordinate_delta (rotate M) (forward self feats coors edges mask adj_mat).
Proof.
  intros (Hb & Hn & H3). unfold forward.
  destruct (only_sparse_neighbors self && negb (exists_ adj_mat)); [reflexivity|].
  apply mapM_on_coordinate_delta. intros b Hb'.
  unfold rotate. rewrite (nth_map_nil (map (rot M))) by reflexivity.
  apply forward_one_rotate; [exact HM | | apply Hn].
  destruct (Nat.lt_ge_cases b (length coors)) as [Hlt | Hge].
  - rewrite Forall_forall in H3. apply H3. apply nth_In. exact Hlt.
  - rewrite nth_overflow by exact Hge. constructor.
Qed.

Lemma vadd_rot (u d : list R) :
  length u = 3%nat -> length d = 3%nat ->
  vadd (rot M u) (rot M d) = rot M (vadd u d).
Proof.
  intros Hu Hd.
  destruct u as [|x [|y [|z [|]]]]; simpl in Hu; try discriminate.
  destruct d as [|x' [|y' [|z' [|]]]]; simpl in Hd; try discriminate.
  destruct HM as (a & b & c & d & e & f & g & h & i & -> & _).
  unfold rot, vadd, dot, ssum. simpl. list_ring.
Qed.

Lemma tensor_add_rotate (coors c : list (list (list R))) :
  rows_of_width 3 coors -> rows_of_width 3 c ->
  tensor_add (rotate M coors) (rotate M c) = rotate M (tensor_add coors c).
Proof.
  unfold rows_of_width. intros Hc Hd. unfold tensor_add, rotate.
  rewrite Forall_forall in Hc, Hd.
  apply zip_with_map_both. intros x y Hx Hy.
  apply zip_with_map_both. intros u d Hu Hud.
  specialize (Hc x Hx). specialize (Hd y Hy). rewrite Forall_forall in Hc, Hd.
  apply vadd_rot; [apply Hc, Hu | apply Hd, Hud].
Qed.

Lemma length_nth_tensor_add (x y : list (list (list R))) (b : nat) :
  length (nth b (tensor_add x y) []) =
  Nat.min (length (nth b x [])) (length (nth b y [])).
Proof.
  unfold tensor_add.
  destruct (Nat.lt_ge_cases b (length x)) as [Hx | Hx];
    destruct (Nat.lt_ge_cases b (length y)) as [Hy | Hy].
  - rewrite (nth_zip_with _ _ _ [] []) by assumption. apply length_zip_with.
  - rewrite (nth_overflow y) by exact Hy.
    rewrite nth_overflow by (rewrite length_zip_with; lia). simpl. lia.
  - rewrite (nth_overflow x) by exact Hx.
    rewrite nth_overflow by (rewrite length_zip_with; lia). reflexivity.
  - rewrite (nth_overflow x) by exact Hx.
    rewrite nth_overflow by (rewrite length_zip_with; lia). reflexivity.
Qed.

Lemma coors_shape_norm (norm : LayerNorm R) (feats coors : list (list (list R))) :
  coors_shape 3 feats coors ->
  coors_shape 3 (map (map (layer_norm norm)) feats) coors.
Proof.
  intros (Hb & Hn & H3). split; [rewrite length_map; exact Hb|]. split; [|exact H3].
  intros b. rewrite (nth_map_nil (map (layer_norm norm))) by reflexivity.
  rewrite length_map. apply Hn.
Qed.

Lemma forward_lengths (self : EquivariantAttention R)
  (feats coors : list (list (list R))) edges mask adj_mat o c :
  forward self feats coors edges mask adj_mat = Ok (o, c) ->
  length o = length feats /\ length c = length feats /\
  forall b, length (nth b o []) = length (nth b feats []) /\
            length (nth b c []) = length (nth b feats []).
Proof.
  intros Hf. apply forward_ok in Hf. destruct Hf as (Ho & Hc & Hb).
  split; [exact Ho|]. split; [exact Hc|]. intros b.
  destruct (Nat.lt_ge_cases b (length feats)) as [Hlt | Hge].
  - destruct (Hb b Hlt) as [-> ->]. rewrite !length_tab. split; reflexivity.
  - rewrite !nth_overflow by lia. split; reflexivity.
Qed.

(** The shape of features and coordinates is kept by the attention
    sublayer. *)
Lemma coors_shape_attn (self : EquivariantAttention R) (norm : LayerNorm R)
  (feats coors : list (list (list R))) edges mask adj_mat o c :
  coors_shape 3 feats coors ->
  forward self (map (map (layer_norm norm)) feats) coors edges mask adj_mat = Ok (o, c) ->
  rows_of_width 3 c /\
  coors_shape 3 (tensor_add feats o) (tensor_add coors c).
Proof.
  intros Hs Hf. pose proof (coors_shape_norm norm _ _ Hs) as Hs'.
  destruct Hs as (Hb & Hn & H3). destruct Hs' as (Hb' & Hn' & _).
  pose proof (forward_lengths _ _ _ _ _ _ _ _ Hf) as (Ho & Hc & Hl).
  rewrite length_map in Ho, Hc.
  split.
  - apply (forward_delta_rows _ _ _ _ _ _ _ _ 3%nat Hf H3).
    intros b _. specialize (Hn' b).
    destruct (nth b coors []) as [|u us]; [left; simpl in Hn'; lia | right; congruence].
  - split; [|split].
    + unfold tensor_add. rewrite !length_zip_with. lia.
    + intros b. rewrite !length_nth_tensor_add.
      destruct (Hl b) as [Hlo Hlc]. specialize (Hn b). specialize (Hn' b). lia.
    + apply (tensor_add_delta_rows _ _ _ _ _ _ _ _ _ Hf H3).
Qed.

Lemma coors_shape_ff (g : list R -> list R) (feats coors : list (list (list R))) :
  coors_shape 3 feats coors ->
  coors_shape 3 (tensor_add feats (map (map g) feats)) coors.
Proof.
  intros (Hb & Hn & H3). split; [|split; [|exact H3]].
  - unfold tensor_add. rewrite length_zip_with, length_map. lia.
  - intros b. rewrite length_nth_tensor_add.
    rewrite (nth_map_nil (map g)) by reflexivity. rewrite length_map.
    specialize (Hn b). lia.
Qed.

Lemma Layer_forward_rotate (l : Layer R) edges mask adj_mat
  (feats coors : list (list (list R))) :
  coors_shape 3 feats coors ->
  Layer_forward l edges mask adj_mat feats (rotate M coors) =
    on_coordinate_delta (rotate M) (Layer_forward l edges mask adj_mat feats coors) /\
  (forall f' c', Layer_forward l edges mask adj_mat feats coors = Ok (f', c') ->
     coors_shape 3 f' c').
Proof.
  intros Hs. unfold Layer_forward. rewrite !attn_sublayer.
  rewrite forward_rotate by (apply coors_shape_norm; exact Hs).
  destruct (forward (attn_fn l) (map (map (layer_norm (attn_norm l))) feats) coors
              edges mask adj_mat) as [[o c]|e] eqn:Hf;
    cbn [on_coordinate_delta bind fst snd].
  - destruct (coors_shape_attn _ _ _ _ _ _ _ _ _ Hs Hf) as [Hc Hs'].
    rewrite !ff_sublayer. cbn [on_coordinate_delta].
    destruct Hs as (_ & _ & H3).
    rewrite tensor_add_rotate by assumption. split; [reflexivity|].
    intros f' c' E. injection E as <- <-. apply coors_shape_ff. exact Hs'.
  - split; [reflexivity | discriminate].
Qed.

Lemma layers_forward_rotate (ls : list (Layer R)) edges mask adj_mat
  (feats coors : list (list (list R))) :
  coors_shape 3 feats coors ->
  layers_forward ls edges mask adj_mat feats (rotate M coors) =
  on_coordinate_delta (rotate M) (layers_forward ls edges mask adj_mat feats coors).
Proof.
  revert feats coors. induction ls as [|l ls IH]; intros feats coors Hs; [reflexivity|].
  simpl layers_forward.
  destruct (Layer_forward_rotate l edges mask adj_mat feats coors Hs) as [-> Hshape].
  destruct (Layer_forward l edges mask adj_mat feats coors) as [[f' c']|e];
    cbn [on_coordinate_delta bind fst snd]; [|reflexivity].
  apply IH. apply (Hshape f' c'). reflexivity.
Qed.

End StackRotation.

(** X13. The whole stack is rotation equivariant: applying a rotation
    matrix to all input coordinates applies it to all output coordinates
    and leaves the output features, and the errors, as they are. *)
Theorem EnTransformer_rotation_equivariance (self : EnTransformer R)
  (feats : feats_input (token_emb self)) (coors : list (list (list R)))
  edges mask adj_mat (M : list (list R)) :
  is_rotation M ->
  (forall f, embed (token_emb self) feats = Found f -> coors_shape 3 f coors) ->
  EnTransformer_forward self feats (rotate M coors) edges mask adj_mat =
  lookup_map (on_coordinate_delta (rotate M))
    (EnTransformer_forward self feats coors edges mask adj_mat).
Proof.
  intros HM Hs. unfold EnTransformer_forward.
  destruct (embed (token_emb self) feats) as [f|msg]; [|reflexivity].
  cbn [lookup_map]. f_equal. apply layers_forward_rotate; [exact HM|].
  apply Hs. reflexivity.
Qed.

(** X11. One layer of the stack: it fails exactly when its attention
    block fails on the pre-normalized features, with the same error;
    otherwise the new coordinates are the old ones plus the block's
    [coordinate_delta] (the feed-forward sublayer leaves them), and the
    new features are those after the attention residual plus the
    feed-forward network on their layer norm. *)
Theorem Layer_forward_spec (l : Layer R) edges mask adj_mat
  (feats coors : list (list (list R))) :
  Layer_forward l edges mask adj_mat feats coors =
  match forward (attn_fn l) (map (map (layer_norm (attn_norm l))) feats) coors
          edges mask adj_mat with
  | Ok (o, c) =>
      let feats1 := tensor_add feats o in
      Ok (tensor_add feats1
            (map (map (fun x => FeedForward_net (ff_fn l) (layer_norm (ff_norm l) x)))
               feats1),
          tensor_add coors c)
  | Raise e => Raise e
  end.
Proof.
  unfold Layer_forward. rewrite attn_sublayer.
  destruct (forward (attn_fn l) _ coors edges mask adj_mat) as [[o c]|e];
    cbn [bind fst snd]; [|reflexivity].
  apply ff_sublayer.
Qed.

Section Embedding.
Context {T : Type} `{Scalar T}.

Lemma embedding_row_found (weight : list (list T)) (token : Z) :
  token_in_range weight token ->
  embedding_row weight token = Found (nth (Z.to_nat token) weight []).
Proof.
  unfold token_in_range, embedding_row. intros [H0 H1].
  destruct (Z.leb_spec 0 token); [|lia]. destruct (Z.ltb_spec token (Z.of_nat (length weight)));
    [reflexivity | lia].
Qed.

Lemma embedding_row_error (weight : list (list T)) (token : Z) :
  ~ token_in_range weight token ->
  embedding_row weight token = IndexError "index out of range in self".
Proof.
  unfold token_in_range, embedding_row. intros Hn.
  destruct (Z.leb_spec 0 token); [|reflexivity].
  destruct (Z.ltb_spec token (Z.of_nat (length weight))); [lia | reflexivity].
Qed.

Lemma lookup_all_found {A B} (f : A -> lookup B) (g : A -> B) (l : list A) :
  (forall a, In a l -> f a = Found (g a)) -> lookup_all f l = Found (map g l).
Proof.
  induction l as [|a l IH]; intros Hf; simpl; [reflexivity|].
  rewrite (Hf a) by (left; reflexivity).
  rewrite IH by (intros; apply Hf; right; assumption). reflexivity.
Qed.

Lemma lookup_all_error {A B} (f : A -> lookup B) (l : list A) (msg : string) :
  (forall a, In a l -> f a = IndexError msg \/ exists b, f a = Found b) ->
  (exists a, In a l /\ f a = IndexError msg) ->
  lookup_all f l = IndexError msg.
Proof.
  induction l as [|a l IH]; intros Hf [a' [Hin Ha']]; [destruct Hin|].
  simpl. destruct (Hf a (or_introl eq_refl)) as [-> | [b Hb]]; [reflexivity|].
  rewrite Hb. rewrite IH; [reflexivity | intros; apply Hf; right; assumption |].
  destruct Hin as [-> | Hin]; [congruence|]. exists a'. split; assumption.
Qed.

Lemma lookup_all_cases {A B} (f : A -> lookup B) (l : list A) (msg : string) :
  (forall a, In a l -> f a = IndexError msg \/ exists b, f a = Found b) ->
  lookup_all f l = IndexError msg \/ exists bs, lookup_all f l = Found bs.
Proof.
  induction l as [|a l IH]; intros Hf; simpl; [right; eexists; reflexivity|].
  destruct (Hf a (or_introl eq_refl)) as [-> | [b ->]]; [left; reflexivity|].
  destruct (IH (fun a' Ha' => Hf a' (or_intror Ha'))) as [-> | [bs ->]];
    [left | right; eexists]; reflexivity.
Qed.

End Embedding.

(** X14. A model with a token embedding looks every token up before any
    layer runs: with all tokens among the row indices of the weight, the
    layers run on the rows of the tokens; a token outside, negative or
    too large, makes the call fail with [IndexError]. *)
Theorem EnTransformer_token_lookup {T : Type} `{Scalar T}
  (weight : list (list T)) (ls : list (Layer T)) (k : nat)
  (tokens : list (list Z)) (coors : list (list (list T))) edges mask adj_mat :
  ((forall row tok, In row tokens -> In tok row -> token_in_range weight tok) ->
   EnTransformer_forward
     {| token_emb := Some weight; layers := ls; et_num_nearest_neighbors := k |}
     tokens coors edges mask adj_mat =
   Found (layers_forward ls edges mask adj_mat
            (map (map (fun tok => nth (Z.to_nat tok) weight [])) tokens) coors)) /\
  ((exists row tok, In row tokens /\ In tok row /\ ~ token_in_range weight tok) ->
   EnTransformer_forward
     {| token_emb := Some weight; layers := ls; et_num_nearest_neighbors := k |}
     tokens coors edges mask adj_mat =
   IndexError "index out of range in self").
Proof.
  unfold EnTransformer_forward, embed, embedding. cbn [token_emb layers]. split.
  - intros Hall.
    rewrite (lookup_all_found _ (map (fun tok => nth (Z.to_nat tok) weight []))).
    + reflexivity.
    + intros row Hrow. apply lookup_all_found. intros tok Htok.
      apply embedding_row_found. apply (Hall row tok); assumption.
  - intros (row & tok & Hrow & Htok & Hout).
    assert (Hcase : forall tok', embedding_row weight tok' =
                      IndexError "index out of range in self" \/
                      exists b, embedding_row weight tok' = Found b).
    { intros tok'. unfold embedding_row. destruct (_ && _); [right; eexists | left];
        reflexivity. }
    rewrite (lookup_all_error _ _ "index out of range in self"); [reflexivity | |].
    + intros row' _. apply lookup_all_cases. intros tok' _. apply Hcase.
    + exists row. split; [exact Hrow|].
      apply lookup_all_error; [intros tok' _; apply Hcase|].
      exists tok. split; [exact Htok | apply embedding_row_error; exact Hout].
Qed.

Section StackInit.
Context {T : Type} `{Scalar T}.

Lemma mapM_map_ok {A B} (f : A -> result B) (g : A -> B) (l : list A) :
  (forall a, In a l -> f a = Ok (g a)) -> mapM f l = Ok (map g l).
Proof.
  induction l as [|a l IH]; intros Hf; simpl; [reflexivity|].
  rewrite (Hf a) by (left; reflexivity).
  rewrite IH by (intros; apply Hf; right; assumption). reflexivity.
Qed.

End StackInit.

(** X15. [EnTransformer.__init__] fails exactly when it has to build a
    block with normalized coordinate weights: with [depth >= 1] and
    [norm_coor_weights] it raises the [AttributeError] of the block; with
    [depth = 0] or without [norm_coor_weights] it returns a model with
    [depth] layers, each block configured as asked, and with a token
    embedding of [num_tokens] rows exactly when [num_tokens] is given. *)
Theorem EnTransformer_init_cases {T : Type} `{Scalar T}
  (cfg : StackConfig T) (emb : nat -> list T) (p : nat -> LayerParams T) :
  ((0 < st_depth cfg)%nat /\ cfg_norm_coor_weights (st_block cfg) = true ->
   EnTransformer_init cfg emb p =
   Raise (AttributeError "module 'torch.nn' has no attribute 'TanH'")) /\
  (st_depth cfg = 0%nat \/ cfg_norm_coor_weights (st_block cfg) = false ->
   exists self, EnTransformer_init cfg emb p = Ok self /\
     length (layers self) = st_depth cfg /\
     token_emb self = option_map (fun num_tokens => tab num_tokens emb) (st_num_tokens cfg) /\
     Forall (fun l =>
       num_nearest_neighbors (attn_fn l) = cfg_num_nearest_neighbors (st_block cfg) /\
       only_sparse_neighbors (attn_fn l) = cfg_only_sparse_neighbors (st_block cfg) /\
       heads (attn_fn l) = cfg_heads (st_block cfg)) (layers self)).
Proof.
  unfold EnTransformer_init. split.
  - intros [Hd Hn]. destruct (st_depth cfg) as [|d]; [lia|].
    simpl. unfold EquivariantAttention_init at 1. rewrite Hn. reflexivity.
  - intros [Hd | Hn].
    + rewrite Hd. simpl. eexists. split; [reflexivity|].
      split; [reflexivity|]. split; [destruct (st_num_tokens cfg); reflexivity|].
      constructor.
    + unfold EquivariantAttention_init. rewrite Hn. simpl.
      erewrite mapM_map_ok by (intros l _; reflexivity). simpl.
      eexists. split; [reflexivity|]. simpl.
      split; [rewrite length_map, length_seq; reflexivity|].
      split; [destruct (st_num_tokens cfg); reflexivity|].
      apply Forall_forall. intros l Hl. apply in_map_iff in Hl.
      destruct Hl as [i [<- _]]. simpl. repeat split.
Qed.

(** X16. The stack without layers returns the (embedded) features and the
    coordinates as they are, whatever the other arguments; a stack whose
    first block is in "only sparse neighbors" mode fails with the
    assertion error of the block when no adjacency matrix is passed. *)
Theorem EnTransformer_edge_cases {T : Type} `{Scalar T}
  (self : EnTransformer T) (feats : feats_input (token_emb self))
  (f coors : list (list (list T))) edges mask adj_mat :
  embed (token_emb self) feats = Found f ->
  (layers self = [] ->
   EnTransformer_forward self feats coors edges mask adj_mat = Found (Ok (f, coors))) /\
  (forall l ls, layers self = l :: ls -> only_sparse_neighbors (attn_fn l) = true ->
   EnTransformer_forward self feats coors edges mask None =
   Found (Raise (AssertionError
     "adjacency matrix must be passed in if only_sparse_neighbors is turned on"))).
Proof.
  intros He. unfold EnTransformer_forward. rewrite He. split.
  - intros ->. reflexivity.
  - intros l ls -> Hs. simpl. unfold Layer_forward, Residual_forward at 2,
      PreNorm_forward at 2, attention_wrapped, forward. rewrite Hs. reflexivity.
Qed.

Section MaskedIndependence.
Local Open Scope R_scope.

Variable self : EquivariantAttention R.
Variables feats feats' coors coors' : list (list R).
Variable edges : option (list (list (list R))).
Variable m : list bool.
Variable j0 : nat.

Hypothesis Hm : nth j0 m false = false.
Hypothesis Hfeats : forall i, i <> j0 -> nth i feats [] = nth i feats' [].
Hypothesis Hcoors : forall i, i <> j0 -> nth i coors [] = nth i coors' [].
Hypothesis Hlenf : length feats = length feats'.
Hypothesis Hlenc : length coors = length coors'.
Hypothesis Hdim : Fwd.coor_dim coors = Fwd.coor_dim coors'.










End MaskedIndependence.


Section StackShape.
Local Open Scope R_scope.

Lemma Layer_forward_shape (l : Layer R) edges mask adj_mat
  (feats coors f' c' : list (list (list R))) :
  coors_shape 3 feats coors ->
  Layer_forward l edges mask adj_mat feats coors = Ok (f', c') ->
  coors_shape 3 f' c' /\ same_nodes feats f'.
Proof.
  intros Hs. unfold Layer_forward. rewrite attn_sublayer.
  destruct (forward (attn_fn l) (map (map (layer_norm (attn_norm l))) feats) coors
              edges mask adj_mat) as [[o c]|e] eqn:Hf; cbn [bind fst snd]; [|discriminate].
  rewrite ff_sublayer. intros E. injection E as <- <-.
  destruct (coors_shape_attn _ _ _ _ _ _ _ _ _ Hs Hf) as [_ Hs'].
  split; [apply coors_shape_ff; exact Hs'|].
  pose proof (forward_lengths _ _ _ _ _ _ _ _ Hf) as (Ho & _ & Hl).
  rewrite length_map in Ho. unfold same_nodes. split.
  - unfold tensor_add. rewrite !length_zip_with, length_map, length_zip_with. lia.
  - intros b. rewrite length_nth_tensor_add.
    rewrite (nth_map_nil (map (fun x => FeedForward_net (ff_fn l) (layer_norm (ff_norm l) x))))
      by reflexivity.
    rewrite length_map, length_nth_tensor_add.
    destruct (Hl b) as [Hlo _].
    rewrite (nth_map_nil (map (layer_norm (attn_norm l)))) in Hlo by reflexivity.
    rewrite length_map in Hlo. lia.
Qed.

Lemma layers_forward_shape (ls : list (Layer R)) edges mask adj_mat
  (feats coors f' c' : list (list (list R))) :
  coors_shape 3 feats coors ->
  layers_forward ls edges mask adj_mat feats coors = Ok (f', c') ->
  coors_shape 3 f' c' /\ same_nodes feats f'.
Proof.
  revert feats coors. induction ls as [|l ls IH]; intros feats coors Hs; simpl.
  - intros E. injection E as <- <-. split; [exact Hs|]. split; [reflexivity|].
    intros b. reflexivity.
  - destruct (Layer_forward l edges mask adj_mat feats coors) as [[f1 c1]|e] eqn:Hl;
      cbn [bind fst snd]; [|discriminate].
    intros Hrest.
    destruct (Layer_forward_shape _ _ _ _ _ _ _ _ Hs Hl) as [Hs1 [Hb1 Hn1]].
    destruct (IH _ _ Hs1 Hrest) as [Hs' [Hb' Hn']].
    split; [exact Hs'|]. split; [lia|]. intros b. rewrite Hn', Hn1. reflexivity.
Qed.

End StackShape.

(** X18. The stack keeps the shapes: from features of shape [B, N, D] and
    coordinates of shape [B, N, 3], whatever it returns has the batch
    size and the node counts of the input, and coordinates with three
    entries per node. *)
Theorem EnTransformer_output_shape (self : EnTransformer R)
  (feats : feats_input (token_emb self)) (f coors : list (list (list R)))
  edges mask adj_mat :
  embed (token_emb self) feats = Found f ->
  coors_shape 3 f coors ->
  match EnTransformer_forward self feats coors edges mask adj_mat with
  | Found (Ok (f', c')) => coors_shape 3 f' c' /\ same_nodes f f'
  | Found (Raise e) => True
  | IndexError msg => False
  end.
Proof.
  intros He Hs. unfold EnTransformer_forward. rewrite He.
  destruct (layers_forward (layers self) edges mask adj_mat f coors) as [[f' c']|e] eqn:Hl;
    [|exact I].
  apply (layers_forward_shape _ _ _ _ _ _ _ _ Hs Hl).
Qed.

(** * Worked instances of the further properties *)

Section MoreWitnesses.
Local Open Scope R_scope.

Lemma attn_rows_sum_to_one_witness :
  ssum (tab (Fwd.j_size (block0 0 false) feats2 coors2 None)
          (Fwd.attn (block0 0 false) feats2 coors2 None None 0 0)) = 1 /\
  (forall j, (j < Fwd.j_size (block0 0 false) feats2 coors2 None)%nat ->
     0 <= Fwd.attn (block0 0 false) feats2 coors2 None None 0 0 j <= 1).
Proof.
  apply (attn_rows_sum_to_one (block0 0 false) feats2 coors2 None None 0 0).
  unfold Fwd.j_size, Fwd.nbhd_indices, Fwd.n. simpl. lia.
Defined.

Lemma forward_output_shape_witness :
  length [[[0]; [0]]] = length [feats2] /\
  length [[[-1; 0; 0]; [1; 0; 0]]] = length [feats2] /\
  forall b, (b < length [feats2])%nat ->
    length (nth b [[[0]; [0]]] []) = length (nth b [feats2] []) /\
    length (nth b [[[-1; 0; 0]; [1; 0; 0]]] []) = length (nth b [feats2] []) /\
    Forall (fun r => length r = length (hd [] (nth b [coors2] [])))
      (nth b [[[-1; 0; 0]; [1; 0; 0]]] []).
Proof.
  apply (forward_output_shape (block0 0 false) [feats2] [coors2] None None None).
  exact forward_block0.
Defined.

Lemma forward_topk_range_witness :
  forward (block0 3 false) [feats2] [coors2] None None None =
  Raise (RuntimeError "selected index k out of range").
Proof.
  apply (forward_topk_range (block0 3 false) [feats2] [coors2] None None None 2).
  - reflexivity.
  - simpl. lia.
  - reflexivity.
  - intros b Hb. simpl in Hb. destruct b as [|b]; [reflexivity | lia].
  - intros m Hm. discriminate Hm.
  - simpl. lia.
Defined.

Lemma coincident_neighbor_no_update_witness :
  Fwd.coors_term (block0 0 false) feats2 coors2 None None 0 0 0 = 0.
Proof.
  apply (coincident_neighbor_no_update (block0 0 false) feats2 coors2 None None 0 0 0).
  reflexivity.
Defined.


Lemma CoorsNorm_phase_constant_witness :
  CoorsNorm_forward coors_norm0 [3; 4; 0] =
    map (fun x => (gelu 0 / clamp_min (eps coors_norm0) (vnorm [3; 4; 0])) * x) [3; 4; 0] /\
  (0 = 0 -> CoorsNorm_forward coors_norm0 [3; 4; 0] = repeat 0 (length [3; 4; 0])).
Proof.
  apply (CoorsNorm_phase_constant coors_norm0 1 0 [3; 4; 0]); reflexivity.
Defined.

Lemma CoorsNorm_output_norm_witness :
  vnorm (CoorsNorm_forward coors_norm0 [3; 4; 0]) <= Rabs (gelu 0) /\
  (eps coors_norm0 <= vnorm [3; 4; 0] ->
   vnorm (CoorsNorm_forward coors_norm0 [3; 4; 0]) = Rabs (gelu 0)).
Proof.
  apply (CoorsNorm_output_norm coors_norm0 1 0 [3; 4; 0]); try reflexivity.
  simpl. lra.
Defined.

Lemma nbhd_indices_nearest_witness :
  length ix_near = Fwd.n_coors coors_near /\
  length (nth 0 ix_near []) = num_nearest_neighbors (block0 2 false) /\
  NoDup (nth 0 ix_near []) /\
  (forall j, In j (nth 0 ix_near []) -> (j < Fwd.n_coors coors_near)%nat) /\
  (forall j j', In j (nth 0 ix_near []) -> (j' < Fwd.n_coors coors_near)%nat ->
     ~ In j' (nth 0 ix_near []) ->
     Fwd.nbhd_ranking coors_near (Some mask_far) 0 j <=
     Fwd.nbhd_ranking coors_near (Some mask_far) 0 j').
Proof.
  apply (nbhd_indices_nearest (block0 2 false) coors_near (Some mask_far) ix_near 0).
  - reflexivity.
  - unfold Fwd.n_coors. simpl. lia.
  - unfold Fwd.n_coors. simpl. lia.
Defined.

Lemma coors2_width : rows_of_width 3 [coors2].
Proof. repeat constructor. Defined.

Lemma coors2_shape : coors_shape 3 [feats2] [coors2].
Proof.
  unfold coors_shape. split; [reflexivity|]. split.
  - intros [|[|b]]; reflexivity.
  - repeat constructor.
Defined.

Lemma EnTransformer_translation_equivariance_witness :
  EnTransformer_forward stack0 [feats2] (translate [1; 2; 3] [coors2]) None None None =
  lookup_map (on_coordinate_delta (translate [1; 2; 3]))
    (EnTransformer_forward stack0 [feats2] [coors2] None None None).
Proof.
  apply (EnTransformer_translation_equivariance stack0 [feats2] [coors2] None None None
           [1; 2; 3]).
  exact coors2_width.
Defined.

Lemma EnTransformer_rotation_equivariance_witness :
  EnTransformer_forward stack0 [feats2] (rotate quarter_turn [coors2]) None None None =
  lookup_map (on_coordinate_delta (rotate quarter_turn))
    (EnTransformer_forward stack0 [feats2] [coors2] None None None).
Proof.
  apply (EnTransformer_rotation_equivariance stack0 [feats2] [coors2] None None None
           quarter_turn quarter_turn_rotation).
  intros f E. injection E as <-. exact coors2_shape.
Defined.

Lemma EnTransformer_token_lookup_witness :
  EnTransformer_forward
    {| token_emb := Some [[1]; [2]]; layers := [layer0 0]; et_num_nearest_neighbors := 0 |}
    [[0%Z; 2%Z]] [coors2] None None None =
  IndexError "index out of range in self".
Proof.
  apply (EnTransformer_token_lookup [[1]; [2]] [layer0 0] 0 [[0%Z; 2%Z]] [coors2]
           None None None).
  exists [0%Z; 2%Z], 2%Z. split; [left; reflexivity|].
  split; [right; left; reflexivity|].
  unfold token_in_range. simpl. lia.
Defined.

Lemma EnTransformer_init_cases_witness :
  EnTransformer_init
    {| st_depth := 1; st_num_tokens := None; st_block := cfg_norm_weights |}
    (fun _ => [0])
    (fun _ => {| lp_attn_norm := layer_norm0; lp_attn := params0;
                 lp_ff_norm := layer_norm0; lp_ff := ff_fn (layer0 0) |}) =
  Raise (AttributeError "module 'torch.nn' has no attribute 'TanH'").
Proof.
  apply (EnTransformer_init_cases
           {| st_depth := 1; st_num_tokens := None; st_block := cfg_norm_weights |}).
  split; [simpl; lia | reflexivity].
Defined.

Lemma EnTransformer_edge_cases_witness :
  EnTransformer_forward
    {| token_emb := None; layers := []; et_num_nearest_neighbors := 0 |}
    [feats2] [coors2] None None None = Found (Ok ([feats2], [coors2])).
Proof.
  apply (EnTransformer_edge_cases
           {| token_emb := None; layers := []; et_num_nearest_neighbors := 0 |}
           [feats2] [feats2] [coors2] None None None); reflexivity.
Defined.


Lemma EnTransformer_output_shape_witness :
  match EnTransformer_forward stack0 [feats2] [coors2] None None None with
  | Found (Ok (f', c')) => coors_shape 3 f' c' /\ same_nodes [feats2] f'
  | Found (Raise e) => True
  | IndexError msg => False
  end.
Proof.
  apply (EnTransformer_output_shape stack0 [feats2] [feats2] [coors2] None None None).
  - reflexivity.
  - exact coors2_shape.
Defined.

End MoreWitnesses.
